(** * ion-accordion: the expand/collapse state machine of
      core/src/components/accordion/accordion.tsx

    The component is embedded as explicit state passing over a [World]:
    a heap of elements (object identity = heap index), the document
    order of the siblings, the accordion groups, the browser's queue of
    pending animation-frame callbacks, the promises awaiting a
    transition end, a clock counting milliseconds and a chronological log of the
    observable effects. *)

From Stdlib Require Import ZArith String.
From stdpp Require Import base tactics option list strings.

Open Scope string_scope.
Open Scope list_scope.

(** ** Data model *)

(** [const enum AccordionState] *)
Inductive AccordionState : Set :=
  | Collapsed
  | Collapsing
  | Expanded
  | Expanding.

Global Instance AccordionState_eq_dec : EqDecision AccordionState.
Proof. solve_decision. Defined.

(** The numeric values the enum members compile to. *)
Definition AccordionState_bits (s : AccordionState) : Z :=
  match s with
  | Collapsed => Z.shiftl 1 0
  | Collapsing => Z.shiftl 1 1
  | Expanded => Z.shiftl 1 2
  | Expanding => Z.shiftl 1 3
  end.

(** [accordionGroup.value]: a single identifier, an array of
    identifiers, or nothing ([undefined] / [null]). *)
Inductive GroupValue : Set :=
  | VUndefined
  | VString (s : string)
  | VArray (l : list string).

(** [Array.prototype.includes] on an array of strings. *)
Definition includes (l : list string) (x : string) : bool :=
  existsb (String.eqb x) l.

(** The expression
    [(Array.isArray(value)) ? value.includes(x) : value === x]
    that [updateState] evaluates for the item and for both siblings. *)
Definition isSelected (value : GroupValue) (x : string) : bool :=
  match value with
  | VArray l => includes l x
  | VString s => String.eqb s x
  | VUndefined => false
  end.

(** The two [div]s the render function keeps references to.  Only the
    layout height and the inline [max-height] (in px) matter here. *)
Record HTMLDivElement : Set := mkDiv {
  offsetHeight : nat;
  maxHeight : option nat
}.

(** The fields of [class Accordion] the state machine reads or writes.
    [value] is the [@Prop() value?: string]. *)
Record Accordion : Set := mkAccordion {
  accordionGroupEl : option nat;
  contentEl : option HTMLDivElement;
  contentElWrapper : option HTMLDivElement;
  currentRaf : option nat;
  state : AccordionState;
  isNext : bool;
  isPrevious : bool;
  value : option string
}.

(** A freshly constructed component: the field initialisers of the class. *)
Definition newAccordion (value : option string)
    (contentEl contentElWrapper : option HTMLDivElement) : Accordion :=
  {| accordionGroupEl := None;
     contentEl := contentEl;
     contentElWrapper := contentElWrapper;
     currentRaf := None;
     state := Collapsed;
     isNext := false;
     isPrevious := false;
     value := value |}.

Definition set_accordionGroupEl (g : option nat) (a : Accordion) : Accordion :=
  {| accordionGroupEl := g; contentEl := contentEl a;
     contentElWrapper := contentElWrapper a; currentRaf := currentRaf a;
     state := state a; isNext := isNext a; isPrevious := isPrevious a;
     value := value a |}.

Definition set_contentEl (c : option HTMLDivElement) (a : Accordion) : Accordion :=
  {| accordionGroupEl := accordionGroupEl a; contentEl := c;
     contentElWrapper := contentElWrapper a; currentRaf := currentRaf a;
     state := state a; isNext := isNext a; isPrevious := isPrevious a;
     value := value a |}.

Definition set_currentRaf (h : option nat) (a : Accordion) : Accordion :=
  {| accordionGroupEl := accordionGroupEl a; contentEl := contentEl a;
     contentElWrapper := contentElWrapper a; currentRaf := h;
     state := state a; isNext := isNext a; isPrevious := isPrevious a;
     value := value a |}.

Definition set_state (s : AccordionState) (a : Accordion) : Accordion :=
  {| accordionGroupEl := accordionGroupEl a; contentEl := contentEl a;
     contentElWrapper := contentElWrapper a; currentRaf := currentRaf a;
     state := s; isNext := isNext a; isPrevious := isPrevious a;
     value := value a |}.

Definition set_isNext (b : bool) (a : Accordion) : Accordion :=
  {| accordionGroupEl := accordionGroupEl a; contentEl := contentEl a;
     contentElWrapper := contentElWrapper a; currentRaf := currentRaf a;
     state := state a; isNext := b; isPrevious := isPrevious a;
     value := value a |}.

Definition set_isPrevious (b : bool) (a : Accordion) : Accordion :=
  {| accordionGroupEl := accordionGroupEl a; contentEl := contentEl a;
     contentElWrapper := contentElWrapper a; currentRaf := currentRaf a;
     state := state a; isNext := isNext a; isPrevious := b;
     value := value a |}.

Definition set_value (v : option string) (a : Accordion) : Accordion :=
  {| accordionGroupEl := accordionGroupEl a; contentEl := contentEl a;
     contentElWrapper := contentElWrapper a; currentRaf := currentRaf a;
     state := state a; isNext := isNext a; isPrevious := isPrevious a;
     value := v |}.

(** [style.setProperty('max-height', ...)] / [style.removeProperty] on
    the component's [contentEl]. *)
Definition set_maxHeight (m : option nat) (a : Accordion) : Accordion :=
  set_contentEl
    (match contentEl a with
     | Some c => Some {| offsetHeight := offsetHeight c; maxHeight := m |}
     | None => None
     end) a.

(** An element of the document: an [ion-accordion] with its component,
    or any other element, of which only the tag name is kept. *)
Inductive Node : Set :=
  | IonAccordion (a : Accordion)
  | OtherElement (tag : string).

Definition tagName (n : Node) : string :=
  match n with
  | IonAccordion _ => "ION-ACCORDION"
  | OtherElement tag => tag
  end.

(** Reading [.value] off an element; [undefined] on anything that is
    not an accordion component. *)
Definition nodeValue (n : Node) : option string :=
  match n with
  | IonAccordion a => value a
  | OtherElement _ => None
  end.

(** The accordion group, at its interface: the selection, and the
    [ionChange] listeners registered on the element. *)
Record AccordionGroup : Set := mkGroup {
  groupValue : GroupValue;
  listeners : list nat
}.

(** The two asynchronous closures of the component. *)
Inductive Direction : Set := Expand | Collapse.

Global Instance Direction_eq_dec : EqDecision Direction.
Proof. solve_decision. Defined.

(** The terminal state a transition ends in. *)
Definition terminal (d : Direction) : AccordionState :=
  match d with Expand => Expanded | Collapse => Collapsed end.

(** A promise returned by [transitionEndAsync(contentEl, ms)] together
    with the rest of the closure that awaits it. *)
Record Waiter : Set := mkWaiter {
  wTarget : nat;
  wDeadline : N;
  wDirection : Direction
}.

(** What the component does to its surroundings, in the order done. *)
Inductive Effect : Set :=
  | ESetState (this : nat) (s : AccordionState)
  | ERaf (handle : nat) (this : nat) (d : Direction)
  | ECancelAnimationFrame (handle : nat)
  | EMeasureWrapper (this : nat) (height : nat)
  | EMeasureContent (this : nat) (height : nat)
  | ETransitionEndAsync (this : nat) (expectedDuration : N)
  | ESetMaxHeight (this : nat) (height : nat)
  | EForceRepaint (this : nat)
  | ERemoveMaxHeight (this : nat)
  | ERequestAccordionToggle (group : nat) (v : option string) (expand : bool).

Global Instance Effect_eq_dec : EqDecision Effect.
Proof. solve_decision. Defined.

Record World : Set := mkWorld {
  nodes : list Node;
  children : list nat;
  closest : option nat;
  groups : list AccordionGroup;
  frames : list (nat * (nat * Direction));
  nextHandle : nat;
  waiters : list Waiter;
  now : N;
  log : list Effect
}.

Definition set_nodes (x : list Node) (w : World) : World :=
  {| nodes := x; children := children w; closest := closest w;
     groups := groups w; frames := frames w; nextHandle := nextHandle w;
     waiters := waiters w; now := now w; log := log w |}.

Definition set_children (x : list nat) (w : World) : World :=
  {| nodes := nodes w; children := x; closest := closest w;
     groups := groups w; frames := frames w; nextHandle := nextHandle w;
     waiters := waiters w; now := now w; log := log w |}.

Definition set_groups (x : list AccordionGroup) (w : World) : World :=
  {| nodes := nodes w; children := children w; closest := closest w;
     groups := x; frames := frames w; nextHandle := nextHandle w;
     waiters := waiters w; now := now w; log := log w |}.

Definition set_frames (x : list (nat * (nat * Direction))) (w : World) : World :=
  {| nodes := nodes w; children := children w; closest := closest w;
     groups := groups w; frames := x; nextHandle := nextHandle w;
     waiters := waiters w; now := now w; log := log w |}.

Definition set_nextHandle (x : nat) (w : World) : World :=
  {| nodes := nodes w; children := children w; closest := closest w;
     groups := groups w; frames := frames w; nextHandle := x;
     waiters := waiters w; now := now w; log := log w |}.

Definition set_waiters (x : list Waiter) (w : World) : World :=
  {| nodes := nodes w; children := children w; closest := closest w;
     groups := groups w; frames := frames w; nextHandle := nextHandle w;
     waiters := x; now := now w; log := log w |}.

Definition set_now (x : N) (w : World) : World :=
  {| nodes := nodes w; children := children w; closest := closest w;
     groups := groups w; frames := frames w; nextHandle := nextHandle w;
     waiters := waiters w; now := x; log := log w |}.

Definition emit (e : Effect) (w : World) : World :=
  {| nodes := nodes w; children := children w; closest := closest w;
     groups := groups w; frames := frames w; nextHandle := nextHandle w;
     waiters := waiters w; now := now w; log := log w ++ [e] |}.

(** ** Heap and document access *)

Definition getAccordion (w : World) (this : nat) : option Accordion :=
  match nodes w !! this with
  | Some (IonAccordion a) => Some a
  | _ => None
  end.

Definition onAccordion (f : Accordion -> Accordion) (n : Node) : Node :=
  match n with
  | IonAccordion a => IonAccordion (f a)
  | OtherElement tag => OtherElement tag
  end.

(** Assignment to fields of the component [this]. *)
Definition updAccordion (this : nat) (f : Accordion -> Accordion) (w : World) : World :=
  set_nodes (alter (onAccordion f) this (nodes w)) w.

(** [el.nextElementSibling] and [el.previousElementSibling] within the
    sibling list; [None] is [null]. *)
Fixpoint nextElementSibling (l : list nat) (this : nat) : option nat :=
  match l with
  | [] => None
  | x :: tl => if decide (x = this) then head tl else nextElementSibling tl this
  end.

Fixpoint previousElementSibling (l : list nat) (this : nat) : option nat :=
  match l with
  | [] => None
  | x :: tl =>
    match tl with
    | [] => None
    | y :: _ => if decide (y = this) then Some x else previousElementSibling tl this
    end
  end.

(** [if (sibling?.tagName !== 'ION-ACCORDION') { return; }] *)
Definition asAccordion (o : option Node) : option Node :=
  match o with
  | Some n => if decide (tagName n = "ION-ACCORDION") then Some n else None
  | None => None
  end.

(** [this.el] is the host element of the component and is the heap
    entry [this] itself, so the guard [if (!this.el)] never fires. *)
Definition getNextSibling (w : World) (this : nat) : option Node :=
  asAccordion (nextElementSibling (children w) this ≫= λ i, nodes w !! i).

Definition getPreviousSibling (w : World) (this : nat) : option Node :=
  asAccordion (previousElementSibling (children w) this ≫= λ i, nodes w !! i).

(** ** The animation-frame queue and the transition-end promise *)

(** Modelled from the spec: [raf] of utils/helpers is not part of the
    sources at hand.  Per the Transition Driver it schedules its
    callback for the next animation frame and returns the handle of the
    pending frame; handles are handed out in increasing order. *)
Definition raf (this : nat) (d : Direction) (w : World) : nat * World :=
  let h := nextHandle w in
  (h, emit (ERaf h this d)
        (set_nextHandle (S h) (set_frames (frames w ++ [(h, (this, d))]) w))).

(** Modelled from the spec: cancelling a handle unschedules the frame
    carrying it, and does nothing for a handle that is not pending. *)
Definition cancelAnimationFrame (h : nat) (w : World) : World :=
  emit (ECancelAnimationFrame h)
    (set_frames (filter (λ p, p.1 ≠ h) (frames w)) w).

(** Modelled from the spec: [transitionEndAsync] of utils/helpers is not
    part of the sources at hand.  Per the Transition Driver the promise
    resolves when the transition-completion signal of the element is
    observed or when the timeout given as second argument has elapsed,
    whichever occurs first.  The waiter keeps the direction of the
    closure that will [await] it. *)
Definition transitionEndAsync (this : nat) (expectedDuration : N)
    (d : Direction) (w : World) : World :=
  emit (ETransitionEndAsync this expectedDuration)
    (set_waiters
       (waiters w ++ [{| wTarget := this;
                         wDeadline := (now w + expectedDuration)%N;
                         wDirection := d |}]) w).

Definition setState (this : nat) (s : AccordionState) (w : World) : World :=
  emit (ESetState this s) (updAccordion this (set_state s) w).

(** ** The component *)

Definition expandAccordion (this : nat) (initialUpdate : bool) (w : World) : World :=
  match getAccordion w this with
  | None => w
  | Some a =>
    if initialUpdate then setState this Expanded w
    else if decide (state a = Expanded) then w
    else
      match contentEl a, contentElWrapper a with
      | Some _, Some _ =>
        let w := setState this Expanding w in
        let w := match currentRaf a with
                 | Some h => cancelAnimationFrame h w
                 | None => w
                 end in
        let '(h, w) := raf this Expand w in
        updAccordion this (set_currentRaf (Some h)) w
      | _, _ => w
      end
  end.

Definition collapseAccordion (this : nat) (initialUpdate : bool) (w : World) : World :=
  match getAccordion w this with
  | None => w
  | Some a =>
    if initialUpdate then setState this Collapsed w
    else if decide (state a = Collapsed) then w
    else
      match contentEl a with
      | Some _ =>
        let w := match currentRaf a with
                 | Some h => cancelAnimationFrame h w
                 | None => w
                 end in
        let '(h, w) := raf this Collapse w in
        updAccordion this (set_currentRaf (Some h)) w
      | None => w
      end
  end.

(** The body of the closure handed to [raf] by [expandAccordion], up to
    its [await].  The closure captured [contentEl] and [contentElWrapper]
    when it was created; both are fields of the component that nothing
    reassigns, so reading them when the frame runs gives the same
    elements.  [void contentEl.offsetHeight] is the forced repaint. *)
Definition expandFrame (this : nat) (w : World) : World :=
  match getAccordion w this with
  | Some a =>
    match contentEl a, contentElWrapper a with
    | Some _, Some wrapper =>
      let contentHeight := offsetHeight wrapper in
      let w := emit (EMeasureWrapper this contentHeight) w in
      let w := transitionEndAsync this 50000%N Expand w in
      let w := emit (ESetMaxHeight this contentHeight)
                 (updAccordion this (set_maxHeight (Some contentHeight)) w) in
      emit (EForceRepaint this) w
    | _, _ => w
    end
  | None => w
  end.

(** The body of the closure handed to [raf] by [collapseAccordion], up
    to its [await]. *)
Definition collapseFrame (this : nat) (w : World) : World :=
  match getAccordion w this with
  | Some a =>
    match contentEl a with
    | Some content =>
      let contentHeight := offsetHeight content in
      let w := emit (EMeasureContent this contentHeight) w in
      let w := emit (ESetMaxHeight this contentHeight)
                 (updAccordion this (set_maxHeight (Some contentHeight)) w) in
      let w := emit (EForceRepaint this) w in
      let w := transitionEndAsync this 50000%N Collapse w in
      setState this Collapsing w
    | None => w
    end
  | None => w
  end.

Definition runFrame (cb : nat * Direction) (w : World) : World :=
  match cb.2 with
  | Expand => expandFrame cb.1 w
  | Collapse => collapseFrame cb.1 w
  end.

(** What either closure does after its [await]. *)
Definition resume (x : Waiter) (w : World) : World :=
  emit (ERemoveMaxHeight (wTarget x))
    (updAccordion (wTarget x) (set_maxHeight None)
       (setState (wTarget x) (terminal (wDirection x)) w)).

Definition updateState (this : nat) (initialUpdate : bool) (w : World) : World :=
  match getAccordion w this with
  | None => w
  | Some a =>
    match value a, accordionGroupEl a ≫= λ g, groups w !! g with
    | Some accordionValue, Some accordionGroup =>
      let value := groupValue accordionGroup in
      let shouldExpand := isSelected value accordionValue in
      if shouldExpand then
        let w := expandAccordion this initialUpdate w in
        updAccordion this (λ a, set_isNext false (set_isPrevious false a)) w
      else
        let w := collapseAccordion this initialUpdate w in
        let nextAccordionValue := getNextSibling w this ≫= nodeValue in
        let w := match nextAccordionValue with
                 | Some v => updAccordion this (set_isPrevious (isSelected value v)) w
                 | None => w
                 end in
        let previousAccordionValue := getPreviousSibling w this ≫= nodeValue in
        match previousAccordionValue with
        | Some v => updAccordion this (set_isNext (isSelected value v)) w
        | None => w
        end
    | _, _ => w
    end
  end.

Definition toggleExpanded (this : nat) (w : World) : World :=
  match getAccordion w this with
  | None => w
  | Some a =>
    match accordionGroupEl a with
    | Some g =>
      let expand := bool_decide (state a = Collapsed)
                    || bool_decide (state a = Collapsing) in
      emit (ERequestAccordionToggle g (value a) expand) w
    | None => w
    end
  end.

(** [addEventListener(group, 'ionChange', this.updateListener)]: the
    same listener is registered at most once. *)
Definition addEventListener (g this : nat) (w : World) : World :=
  set_groups
    (alter (λ gr, {| groupValue := groupValue gr;
                     listeners := if decide (this ∈ listeners gr)
                                  then listeners gr
                                  else listeners gr ++ [this] |}) g (groups w)) w.

Definition removeEventListener (g this : nat) (w : World) : World :=
  set_groups
    (alter (λ gr, {| groupValue := groupValue gr;
                     listeners := filter (λ l, l ≠ this) (listeners gr) |})
       g (groups w)) w.

(** [this.el.closest('ion-accordion-group')] for an element among the
    siblings is the group enclosing them, if there is one. *)
Definition connectedCallback (this : nat) (w : World) : World :=
  let accordionGroupEl := if decide (this ∈ children w) then closest w else None in
  let w := updAccordion this (set_accordionGroupEl accordionGroupEl) w in
  match accordionGroupEl with
  | Some g => addEventListener g this (updateState this true w)
  | None => w
  end.

Definition disconnectedCallback (this : nat) (w : World) : World :=
  match getAccordion w this ≫= accordionGroupEl with
  | Some g => removeEventListener g this w
  | None => w
  end.

(** ** The surroundings: browser, application and group *)

(** One animation frame: every callback pending when the frame starts
    runs, in the order scheduled, up to its [await]. *)
Definition animationFrame (w : World) : World :=
  foldl (λ w p, runFrame p.2 w) (set_frames [] w) (frames w).

(** Resolve the promises selected by [fires], oldest first; each
    continuation runs as soon as its promise resolves. *)
Definition resolveWaiters (fires : Waiter -> bool) (w : World) : World :=
  foldl (λ w x, resume x w)
    (set_waiters (filter (λ x, fires x = false) (waiters w)) w)
    (filter (λ x, fires x = true) (waiters w)).

(** The transition-completion signal on the [contentEl] of [this]. *)
Definition transitionEnd (this : nat) (w : World) : World :=
  resolveWaiters (λ x, bool_decide (wTarget x = this)) w.

(** [ms] milliseconds pass with no other event: the promises whose
    timeout has been reached resolve.  All timeouts have the same
    length, so the order of registration is the order of expiry. *)
Definition elapse (ms : N) (w : World) : World :=
  let w := set_now (now w + ms)%N w in
  resolveWaiters (λ x, bool_decide (wDeadline x ≤ now w)%N) w.

(** The group [g] takes the selection [v] and emits [ionChange]: every
    registered [updateListener] runs [updateState(false)]. *)
Definition ionChange (g : nat) (v : GroupValue) (w : World) : World :=
  let w := set_groups
             (alter (λ gr, {| groupValue := v; listeners := listeners gr |})
                g (groups w)) w in
  match groups w !! g with
  | Some gr => foldl (λ w l, updateState l false w) w (listeners gr)
  | None => w
  end.

(** The element leaves the document. *)
Definition removeChild (this : nat) (w : World) : World :=
  disconnectedCallback this
    (set_children (filter (λ c, c ≠ this) (children w)) w).

Inductive Event : Set :=
  | Connected (this : nat)
  | Click (this : nat)
  | IonChange (g : nat) (v : GroupValue)
  | AnimationFrame
  | TransitionEnd (this : nat)
  | Elapse (ms : N)
  | SetValue (this : nat) (v : option string)
  | RemoveChild (this : nat).

Definition step (e : Event) (w : World) : World :=
  match e with
  | Connected this => connectedCallback this w
  | Click this => toggleExpanded this w
  | IonChange g v => ionChange g v w
  | AnimationFrame => animationFrame w
  | TransitionEnd this => transitionEnd this w
  | Elapse ms => elapse ms w
  | SetValue this v => updAccordion this (set_value v) w
  | RemoveChild this => removeChild this w
  end.

Definition run (es : list Event) (w : World) : World :=
  foldl (λ w e, step e w) w es.

(** A document whose components have just been constructed: nothing is
    scheduled, nothing is awaited, no listener is registered. *)
Definition isFresh (n : Node) : bool :=
  match n with
  | IonAccordion a =>
    bool_decide (accordionGroupEl a = None)
    && bool_decide (currentRaf a = None)
    && bool_decide (state a = Collapsed)
    && negb (isNext a) && negb (isPrevious a)
    && bool_decide (contentEl a ≫= maxHeight = None)
  | OtherElement _ => true
  end.

Definition mount (nodes : list Node) (groups : list GroupValue) : World :=
  {| nodes := nodes;
     children := seq 0 (length nodes);
     closest := match groups with [] => None | _ => Some 0 end;
     groups := (λ v, {| groupValue := v; listeners := [] |}) <$> groups;
     frames := [];
     nextHandle := 1;
     waiters := [];
     now := 0;
     log := [] |}.

(** Projections used in the statements. *)
Definition stateOf (w : World) (this : nat) : option AccordionState :=
  state <$> getAccordion w this.

Definition flagsOf (w : World) (this : nat) : option (bool * bool) :=
  (λ a, (isNext a, isPrevious a)) <$> getAccordion w this.

Definition maxHeightOf (w : World) (this : nat) : option (option nat) :=
  getAccordion w this ≫= λ a, maxHeight <$> contentEl a.

(** A panel as rendered: both [div]s present, no height constraint. *)
Definition panel (v : string) (height : nat) : Node :=
  IonAccordion (newAccordion (Some v)
                  (Some {| offsetHeight := height; maxHeight := None |})
                  (Some {| offsetHeight := height; maxHeight := None |})).

Definition three_panels : World :=
  Eval vm_compute in
  run [Connected 0; Connected 1; Connected 2]
    (mount [panel "panel-1" 40; panel "panel-2" 60; panel "panel-3" 80]
       [VString "panel-2"]).

(** The three panels after the selection has moved to "panel-3" and
    all scheduled work has settled. *)
Definition panel3_open : World :=
  Eval vm_compute in
  run [IonChange 0 (VString "panel-3"); AnimationFrame; Elapse 50000] three_panels.

(** Three attached items of which the middle one has no identifier. *)
Definition anonymous_middle : World :=
  Eval vm_compute in
  run [Connected 0; Connected 1; Connected 2]
    (mount [panel "a" 10;
            IonAccordion (newAccordion None (Some (mkDiv 20 None))
                            (Some (mkDiv 20 None)));
            panel "c" 30]
       [VString "a"]).

(** The three panels after the selection has moved to "panel-1" and
    the scheduled frames have run, the transitions still under way. *)
Definition mid_transition : World :=
  Eval vm_compute in
  run [IonChange 0 (VString "panel-1"); AnimationFrame] three_panels.

(** ** Views of the heap used to state what an operation leaves alone *)

(** What no operation of the component ever assigns: the identifier,
    the group reference and the rendered [div]s up to their inline
    [max-height]. *)
Definition static (a : Accordion) :
    option string * option nat * option nat * option HTMLDivElement :=
  (value a, accordionGroupEl a, offsetHeight <$> contentEl a, contentElWrapper a).

Definition flags (a : Accordion) : bool * bool := (isNext a, isPrevious a).

Definition view {X : Type} (π : Accordion -> X) (w : World) : list (X + string) :=
  (λ n, match n with
        | IonAccordion a => inl (π a)
        | OtherElement tag => inr tag
        end) <$> nodes w.

(** The items with scheduled or awaited work. *)
Definition frameTargets (w : World) : list nat := (λ p, p.2.1) <$> frames w.
Definition waiterTargets (w : World) : list nat := wTarget <$> waiters w.

(** What the operations of the component [this] assign besides its
    lifecycle state, its pending handle and the inline height. *)
Definition kept (a : Accordion) := (static a, flags a).

(** What the frame callbacks and the continuations leave alone: they
    only assign the lifecycle state and the inline height. *)
Definition keptByFrames (a : Accordion) := (kept a, currentRaf a).

(** [w'] differs from [w] only in the component [this], in the
    scheduler and in the log; the view [π] of every component is the
    same in both. *)
Record local {X : Type} (π : Accordion -> X) (this : nat) (w w' : World) : Prop :=
  mkLocal {
    local_children : children w' = children w;
    local_closest : closest w' = closest w;
    local_groups : groups w' = groups w;
    local_now : now w' = now w;
    local_view : view π w' = view π w;
    local_other : ∀ i, i ≠ this -> nodes w' !! i = nodes w !! i;
    local_frames : ∀ p, p ∈ frames w' -> p ∈ frames w ∨ p.2.1 = this;
    local_waiters : ∀ x, x ∈ waiters w' -> x ∈ waiters w ∨ wTarget x = this
  }.

(** The identifiers [updateState] reads off the two neighbours. *)
Definition nextAccordionValue (w : World) (this : nat) : option string :=
  getNextSibling w this ≫= nodeValue.

Definition previousAccordionValue (w : World) (this : nat) : option string :=
  getPreviousSibling w this ≫= nodeValue.

(** The property "both adjacency flags are false while the item is
    open or opening", for one component of one world. *)
Definition flags_false_while_open (w : World) (this : nat) : Prop :=
  ∀ a, getAccordion w this = Some a ->
       state a = Expanded ∨ state a = Expanding ->
       isNext a = false ∧ isPrevious a = false.

(** The adjacency of A, B, C with the flag names read as "A is next"
    and "C is previous"; flags are listed as [(isNext, isPrevious)]. *)
Definition adjacency_as_specified (w : World) (A B C : nat) : Prop :=
  flagsOf w A = Some (true, false)
  ∧ flagsOf w C = Some (false, true)
  ∧ flagsOf w B = Some (false, false).

(** The events by which scheduled work settles. *)
Definition settling (e : Event) : Prop :=
  match e with
  | AnimationFrame | TransitionEnd _ | Elapse _ => True
  | _ => False
  end.

(** What [cancelAnimationFrame(this.currentRaf)], guarded by
    [this.currentRaf !== undefined], does to the queue and to the log. *)
Definition cancelled (a : Accordion) (fr : list (nat * (nat * Direction))) :
    list (nat * (nat * Direction)) :=
  match currentRaf a with
  | Some h => filter (λ p, p.1 ≠ h) fr
  | None => fr
  end.

Definition cancelLog (a : Accordion) : list Effect :=
  match currentRaf a with
  | Some h => [ECancelAnimationFrame h]
  | None => []
  end.

(** Nothing is scheduled or awaited for the component [this]. *)
Definition idle (w : World) (this : nat) : Prop :=
  (this ∉ frameTargets w) ∧ (this ∉ waiterTargets w).

(** The component [this] has no identifier, nothing pending, and the
    lifecycle state, flags, handle and [div]s recorded in [s]. *)
Definition inert (this : nat)
    (s : AccordionState * bool * bool * option nat * option HTMLDivElement)
    (w : World) : Prop :=
  (∃ a, getAccordion w this = Some a ∧ value a = None
        ∧ (state a, isNext a, isPrevious a, currentRaf a, contentEl a) = s)
  ∧ idle w this.

(** Every event except giving [this] an identifier. *)
Definition keepsUndefined (this : nat) (e : Event) : Prop :=
  ∀ v, e ≠ SetValue this (Some v).

(** "Applying the selection once more schedules nothing": the
    scheduler and the log are as before the call. *)
Definition reapplication_is_noop (w : World) (this : nat) : Prop :=
  let w1 := updateState this false w in
  frames w1 = frames w ∧ waiters w1 = waiters w ∧ log w1 = log w.

(** The reassignment of the adjacency flags at the end of the
    not-selected branch of [updateState]. *)
Definition adjust (w : World) (this : nat) (value : GroupValue)
    (a : Accordion) : Accordion :=
  let a1 := match nextAccordionValue w this with
            | Some nv => set_isPrevious (isSelected value nv) a
            | None => a
            end in
  match previousAccordionValue w this with
  | Some pv => set_isNext (isSelected value pv) a1
  | None => a1
  end.

(** ** Reachable worlds and the invariant of the scheduler *)

(** A document just built: every component as constructed, nothing
    scheduled, nothing awaited. *)
Definition initial (w : World) : Prop :=
  frames w = [] ∧ waiters w = [] ∧ Forall (λ n, isFresh n = true) (nodes w).

Definition reachable (w : World) : Prop :=
  ∃ w0 es, initial w0 ∧ w = run es w0.

(** The component is in a transient state or carries an inline height. *)
Definition busy (a : Accordion) : Prop :=
  state a = Expanding ∨ state a = Collapsing ∨ contentEl a ≫= maxHeight ≠ None.

(** The promise a pending frame registers when it runs at time [t]. *)
Definition toWaiter (t : N) (p : nat * (nat * Direction)) : Waiter :=
  {| wTarget := p.2.1; wDeadline := (t + 50000)%N; wDirection := p.2.2 |}.

(** The direction of the last promise of [this] in a list. *)
Definition lastDirection (this : nat) (ws : list Waiter) : option Direction :=
  wDirection <$> last (filter (λ x, wTarget x = this) ws).

(** The direction of the latest transition of [this] that is still under
    way: that of its pending frame if it has one, else that of the
    promise it registered last. *)
Definition pendingDirection (w : World) (this : nat) : option Direction :=
  match last (filter (λ p, p.2.1 = this) (frames w)) with
  | Some p => Some p.2.2
  | None => lastDirection this (waiters w)
  end.

(** The component a pending frame belongs to exists and has the
    [div]s its closure captured. *)
Definition ready (w : World) (p : nat * (nat * Direction)) : Prop :=
  ∃ a, getAccordion w p.2.1 = Some a ∧ is_Some (contentEl a)
       ∧ (p.2.2 = Expand -> is_Some (contentElWrapper a)).

Record Inv (w : World) : Prop := mkInv {
  inv_nodup : NoDup (frameTargets w);
  inv_frame : ∀ h i d, (h, (i, d)) ∈ frames w ->
    ∃ a, getAccordion w i = Some a ∧ currentRaf a = Some h
         ∧ is_Some (contentEl a)
         ∧ (d = Expand -> is_Some (contentElWrapper a));
  inv_fresh : ∀ i a h,
    getAccordion w i = Some a -> currentRaf a = Some h -> h < nextHandle w;
  inv_inj : ∀ i j a b h,
    getAccordion w i = Some a -> getAccordion w j = Some b ->
    currentRaf a = Some h -> currentRaf b = Some h -> i = j;
  inv_deadline : ∀ x, x ∈ waiters w -> (wDeadline x ≤ now w + 50000)%N;
  inv_waiter : ∀ x, x ∈ waiters w -> is_Some (getAccordion w (wTarget x));
  inv_busy : ∀ i a,
    getAccordion w i = Some a -> busy a ->
    i ∈ frameTargets w ∨ i ∈ waiterTargets w
}.

(** Letting the scheduled work finish with no completion signal: the
    pending frames run, then the timeout of the waits elapses. *)
Definition settle (w : World) : World := elapse 50000 (animationFrame w).

(** The three panels right after the selection has moved to "panel-1":
    both frames are requested, none has run. *)
Definition frames_pending : World :=
  Eval vm_compute in step (IonChange 0 (VString "panel-1")) three_panels.

(** The item exists with the identifier [x], the group [g] and both
    [div]s rendered. *)
Definition rendered_member (w : World) (this : nat) (x : string) (g : nat) : Prop :=
  ∃ a, getAccordion w this = Some a ∧ value a = Some x
       ∧ accordionGroupEl a = Some g
       ∧ is_Some (contentEl a) ∧ is_Some (contentElWrapper a).

(** The item exists and its content [div] is not rendered. *)
Definition unrendered (w : World) (this : nat) : Prop :=
  ∃ a, getAccordion w this = Some a ∧ contentEl a = None.

(** An attached item whose content was never rendered, selected when
    it was attached. *)
Definition content_missing : World :=
  Eval vm_compute in
  run [Connected 0]
    (mount [IonAccordion (newAccordion (Some "a") None None)] [VString "a"]).

(** ** Rendering *)

(** [getIonMode(this)] *)
Inductive Mode : Set := ios | md.

Definition modeName (m : Mode) : string :=
  match m with ios => "ios" | md => "md" end.

(** What [render] hands to the host and to the two [div]s: the class
    map of [Host] in the order written, the [part] of the header, its
    [aria-expanded], and the [part] of the content.  The [ref]
    callbacks and the click handler are not part of the value. *)
Record Rendered : Set := mkRendered {
  hostClass : list (string * bool);
  headerPart : string;
  ariaExpanded : string;
  contentPart : string
}.

(** [disabled] and [readonly] are the two [@Prop]s of the component
    that only [render] reads. *)
Definition render (mode : Mode) (disabled readonly : bool) (a : Accordion) : Rendered :=
  let expanded := bool_decide (state a = Expanded)
                  || bool_decide (state a = Expanding) in
  let headerPart := if expanded then "header expanded" else "header" in
  let contentPart := if expanded then "content expanded" else "content" in
  {| hostClass :=
       [(modeName mode, true);
        ("accordion-expanding", bool_decide (state a = Expanding));
        ("accordion-expanded", bool_decide (state a = Expanded));
        ("accordion-collapsing", bool_decide (state a = Collapsing));
        ("accordion-collapsed", bool_decide (state a = Collapsed));
        ("accordion-next", isNext a);
        ("accordion-previous", isPrevious a);
        ("accordion-disabled", disabled);
        ("accordion-readonly", readonly)];
     headerPart := headerPart;
     ariaExpanded := if expanded then "true" else "false";
     contentPart := contentPart |}.

(** The classes the host ends up with: the keys of the map whose value
    is true. *)
Definition classList (r : Rendered) : list string :=
  fst <$> filter (λ p, p.2 = true) (hostClass r).

Definition stateClass (s : AccordionState) : string :=
  match s with
  | Collapsed => "accordion-collapsed"
  | Collapsing => "accordion-collapsing"
  | Expanded => "accordion-expanded"
  | Expanding => "accordion-expanding"
  end.

Definition stateClasses : list string :=
  stateClass <$> [Collapsed; Collapsing; Expanded; Expanding].

(** ** The toggle icon *)

(** [@Prop() toggleIconSlot: 'start' | 'end'] *)
Inductive IconSlot : Set := SlotStart | SlotEnd.

(** An [ion-icon] as [slotToggleIcon] sets it up. *)
Record IonIcon : Set := mkIcon {
  iconSlot : IconSlot;
  lazy : bool;
  iconClasses : list string;
  icon : string
}.

(** A descendant of a slotted element, as far as
    [querySelector('.ion-accordion-toggle-icon')] can tell. *)
Inductive Descendant : Set :=
  | DIcon (i : IonIcon)
  | DOther (classes : list string).

Definition descendantClasses (d : Descendant) : list string :=
  match d with
  | DIcon i => iconClasses i
  | DOther classes => classes
  end.

(** An element assigned to the header slot: its tag, the two
    properties [slotToggleIcon] assigns, and its descendants in
    document order ([appendChild] adds at the end). *)
Record Slotted : Set := mkSlotted {
  slottedTag : string;
  button : bool;
  detail : option bool;
  descendants : list Descendant
}.

(** The [slot] found in the header; [assignedElements] is [None] where
    the method is not defined. *)
Record Slot : Set := mkSlot {
  assignedElements : option (list Slotted)
}.

(** [headerEl], with the result of [querySelector('slot')]. *)
Record HeaderEl : Set := mkHeader {
  querySlot : option Slot
}.

Definition isIonItem (e : Slotted) : Prop := slottedTag e = "ION-ITEM".

Definition hasToggleIcon (e : Slotted) : bool :=
  existsb (λ d, bool_decide ("ion-accordion-toggle-icon" ∈ descendantClasses d))
    (descendants e).

Definition newToggleIcon (toggleIconSlot : IconSlot) (toggleIcon : string) : IonIcon :=
  {| iconSlot := toggleIconSlot;
     lazy := false;
     iconClasses := ["ion-accordion-toggle-icon"];
     icon := toggleIcon |}.

(** What [slotToggleIcon] does to the [ion-item] it found. *)
Definition slotInto (toggleIconSlot : IconSlot) (toggleIcon : string)
    (ionItem : Slotted) : Slotted :=
  let ionItem := {| slottedTag := slottedTag ionItem;
                    button := true;
                    detail := Some false;
                    descendants := descendants ionItem |} in
  if hasToggleIcon ionItem then ionItem
  else {| slottedTag := slottedTag ionItem;
          button := button ionItem;
          detail := detail ionItem;
          descendants := descendants ionItem
                         ++ [DIcon (newToggleIcon toggleIconSlot toggleIcon)] |}.

Definition slotToggleIcon (toggleIconSlot : IconSlot) (toggleIcon : string)
    (headerEl : option HeaderEl) : option HeaderEl :=
  match headerEl with
  | None => headerEl
  | Some h =>
    match querySlot h with
    | None => headerEl
    | Some slot =>
      match assignedElements slot with
      | None => headerEl
      | Some els =>
        match list_find isIonItem els with
        | None => headerEl
        | Some (i, ionItem) =>
          Some {| querySlot :=
                    Some {| assignedElements :=
                              Some (<[i := slotInto toggleIconSlot toggleIcon ionItem]>
                                      els) |} |}
        end
      end
    end
  end.

Definition componentDidLoad (toggleIconSlot : IconSlot) (toggleIcon : string)
    (headerEl : option HeaderEl) : option HeaderEl :=
  slotToggleIcon toggleIconSlot toggleIcon headerEl.

(** The elements assigned to the header slot, if any can be reached. *)
Definition slotted (headerEl : option HeaderEl) : option (list Slotted) :=
  (headerEl ≫= querySlot) ≫= assignedElements.

Definition toggleIcons (e : Slotted) : list Descendant :=
  filter (λ d, "ion-accordion-toggle-icon" ∈ descendantClasses d) (descendants e).

(** ** Reading the log *)

(** The component an effect is performed on; cancelling a frame names a
    handle and a toggle request names the group instead. *)
Definition effectItem (e : Effect) : option nat :=
  match e with
  | ESetState this _ | ERaf _ this _ | EMeasureWrapper this _
  | EMeasureContent this _ | ETransitionEndAsync this _
  | ESetMaxHeight this _ | EForceRepaint this | ERemoveMaxHeight this =>
    Some this
  | ECancelAnimationFrame _ | ERequestAccordionToggle _ _ _ => None
  end.

(** An effect that is not performed on the component [this]. *)
Definition elsewhere (this : nat) (e : Effect) : Prop :=
  effectItem e ≠ Some this.

(** What a closure does after its [await], for some component: the
    terminal state is assigned and the inline height removed. *)
Definition isCompletion (e : Effect) : Prop :=
  ∃ i d, e = ESetState i (terminal d) ∨ e = ERemoveMaxHeight i.

(** ** Basic facts about the heap *)

Lemma AccordionState_bits_inj s1 s2 :
  AccordionState_bits s1 = AccordionState_bits s2 -> s1 = s2.
Proof. by destruct s1, s2. Qed.

Lemma getAccordion_updAccordion w i j f :
  getAccordion (updAccordion i f w) j
  = if decide (i = j) then f <$> getAccordion w j else getAccordion w j.
Proof.
  unfold getAccordion, updAccordion; simpl.
  destruct (decide (i = j)) as [->|Hne].
  - rewrite list_lookup_alter_eq. by destruct (nodes w !! j) as [[]|].
  - by rewrite list_lookup_alter_ne.
Qed.

Lemma getAccordion_updAccordion_eq w i f :
  getAccordion (updAccordion i f w) i = f <$> getAccordion w i.
Proof. rewrite getAccordion_updAccordion. by rewrite decide_True. Qed.

Lemma getAccordion_nodes w w' i :
  nodes w' = nodes w -> getAccordion w' i = getAccordion w i.
Proof. unfold getAccordion. by intros ->. Qed.

Lemma updAccordion_miss w i f :
  getAccordion w i = None -> updAccordion i f w = w.
Proof.
  unfold getAccordion, updAccordion, set_nodes. intros H.
  destruct w as [ns ch cl gs fr nh ws t lg]; simpl in *. f_equal.
  apply list_eq. intros j. destruct (decide (i = j)) as [->|Hne].
  - rewrite list_lookup_alter_eq. by destruct (ns !! j) as [[]|].
  - by rewrite list_lookup_alter_ne.
Qed.

Lemma view_updAccordion {X} (π : Accordion -> X) w i f :
  (∀ a, π (f a) = π a) -> view π (updAccordion i f w) = view π w.
Proof.
  intros Hf. unfold view, updAccordion; simpl.
  apply list_eq. intros j. rewrite !list_lookup_fmap.
  destruct (decide (i = j)) as [->|Hne].
  - rewrite list_lookup_alter_eq.
    destruct (nodes w !! j) as [[a|]|]; simpl; by rewrite ?Hf.
  - by rewrite list_lookup_alter_ne.
Qed.

Lemma view_lookup {X} (π : Accordion -> X) w w' i :
  view π w' = view π w ->
  match nodes w' !! i, nodes w !! i with
  | Some (IonAccordion a'), Some (IonAccordion a) => π a' = π a
  | Some (OtherElement t'), Some (OtherElement t) => t' = t
  | None, None => True
  | _, _ => False
  end.
Proof.
  intros H. apply (f_equal (λ l, l !! i)) in H.
  unfold view in H. rewrite !list_lookup_fmap in H.
  destruct (nodes w' !! i) as [[]|], (nodes w !! i) as [[]|]; simpl in H;
    by simplify_eq.
Qed.

Lemma view_getAccordion {X} (π : Accordion -> X) w w' i :
  view π w' = view π w -> π <$> getAccordion w' i = π <$> getAccordion w i.
Proof.
  intros H. pose proof (view_lookup π w w' i H) as Hl. unfold getAccordion.
  destruct (nodes w' !! i) as [[]|], (nodes w !! i) as [[]|]; simpl;
    by try congruence.
Qed.

(** ** Locality of the operations *)

Section Locality.
Context {X : Type} (π : Accordion -> X).

Lemma local_refl this w : local π this w w.
Proof. constructor; auto. Qed.

Lemma local_trans this w1 w2 w3 :
  local π this w1 w2 -> local π this w2 w3 -> local π this w1 w3.
Proof.
  intros [c1 c2 c3 c4 c5 c6 c7 c8] [d1 d2 d3 d4 d5 d6 d7 d8].
  constructor; [congruence..| | |].
  - intros i Hi. by rewrite d6, c6.
  - intros p Hp. destruct (d7 p Hp); auto.
  - intros x Hx. destruct (d8 x Hx); auto.
Qed.

Lemma local_same_nodes this w w' :
  nodes w' = nodes w -> children w' = children w -> closest w' = closest w ->
  groups w' = groups w -> now w' = now w ->
  (∀ p, p ∈ frames w' -> p ∈ frames w ∨ p.2.1 = this) ->
  (∀ x, x ∈ waiters w' -> x ∈ waiters w ∨ wTarget x = this) ->
  local π this w w'.
Proof.
  intros Hn ? ? ? ? ? ?. constructor; try done.
  - unfold view. by rewrite Hn.
  - intros. by rewrite Hn.
Qed.

Lemma local_updAccordion this f w :
  (∀ a, π (f a) = π a) -> local π this w (updAccordion this f w).
Proof.
  intros Hf. constructor; auto.
  - by apply view_updAccordion.
  - intros i Hi. simpl. by rewrite list_lookup_alter_ne.
Qed.

Lemma local_emit this e w : local π this w (emit e w).
Proof. apply local_same_nodes; auto. Qed.

Lemma local_set_nextHandle this h w : local π this w (set_nextHandle h w).
Proof. apply local_same_nodes; auto. Qed.

Lemma local_clear_frames this w : local π this w (set_frames [] w).
Proof.
  apply local_same_nodes; auto. simpl. intros p Hp. by apply elem_of_nil in Hp.
Qed.

Lemma local_filter_waiters this (P : Waiter -> Prop) `{∀ x, Decision (P x)} w :
  local π this w (set_waiters (filter P (waiters w)) w).
Proof.
  apply local_same_nodes; auto. simpl.
  intros x Hx. apply list_elem_of_filter in Hx as [_ Hx]. auto.
Qed.

Lemma local_cancelAnimationFrame this h w :
  local π this w (cancelAnimationFrame h w).
Proof.
  apply local_same_nodes; auto. simpl.
  intros p Hp. apply list_elem_of_filter in Hp as [_ Hp]. auto.
Qed.

Lemma local_raf this d f w :
  (∀ h a, π (f h a) = π a) ->
  local π this w
    (let '(h, w0) := raf this d w in updAccordion this (f h) w0).
Proof.
  intros Hf. unfold raf.
  eapply local_trans; [|by apply local_updAccordion].
  apply local_same_nodes; auto. simpl.
  intros p Hp. apply elem_of_app in Hp as [Hp|Hp]; [auto|].
  apply list_elem_of_singleton in Hp as ->. auto.
Qed.

Lemma local_transitionEndAsync this ms d w :
  local π this w (transitionEndAsync this ms d w).
Proof.
  apply local_same_nodes; auto. simpl.
  intros x Hx. apply elem_of_app in Hx as [Hx|Hx]; [auto|].
  apply list_elem_of_singleton in Hx as ->. auto.
Qed.
End Locality.

Lemma local_setState {X} (π : Accordion -> X) this s w :
  (∀ a, π (set_state s a) = π a) -> local π this w (setState this s w).
Proof.
  intros H. unfold setState.
  eapply local_trans; [by apply local_updAccordion|apply local_emit].
Qed.

Ltac local_step :=
  first
    [ apply local_cancelAnimationFrame
    | apply local_transitionEndAsync
    | (apply local_setState; by intros [])
    | (apply local_raf; by intros ? [])
    | (apply local_updAccordion; by intros [? [[]|] ? ? ? ? ? ?])
    | apply local_emit
    | apply local_set_nextHandle ].

Ltac local_steps :=
  repeat first
    [ apply local_refl
    | local_step
    | (eapply local_trans; [|local_step]) ].

Lemma expandAccordion_local this initialUpdate w :
  local kept this w (expandAccordion this initialUpdate w).
Proof.
  unfold expandAccordion.
  destruct (getAccordion w this) as [a|]; [|apply local_refl].
  destruct initialUpdate; [local_steps|].
  case_decide; [apply local_refl|].
  destruct (contentEl a), (contentElWrapper a); try apply local_refl.
  destruct (currentRaf a); local_steps.
Qed.

Lemma collapseAccordion_local this initialUpdate w :
  local kept this w (collapseAccordion this initialUpdate w).
Proof.
  unfold collapseAccordion.
  destruct (getAccordion w this) as [a|]; [|apply local_refl].
  destruct initialUpdate; [local_steps|].
  case_decide; [apply local_refl|].
  destruct (contentEl a); try apply local_refl.
  destruct (currentRaf a); local_steps.
Qed.

Lemma view_compose {X Y} (π : Accordion -> X) (g : X -> Y) w w' :
  view π w' = view π w -> view (g ∘ π) w' = view (g ∘ π) w.
Proof.
  intros H. apply list_eq. intros i.
  pose proof (view_lookup π w w' i H) as Hl.
  unfold view. rewrite !list_lookup_fmap.
  destruct (nodes w' !! i) as [[]|], (nodes w !! i) as [[]|]; simpl in *;
    try done; congruence.
Qed.

Lemma local_kept_static this w w' : local kept this w w' -> local static this w w'.
Proof.
  intros []. constructor; try done.
  by apply (view_compose kept fst).
Qed.

Lemma local_kept_flags this w w' : local kept this w w' -> view flags w' = view flags w.
Proof. intros []. by apply (view_compose kept snd). Qed.

Lemma expandFrame_local this w : local keptByFrames this w (expandFrame this w).
Proof.
  unfold expandFrame.
  destruct (getAccordion w this) as [a|]; [|apply local_refl].
  destruct (contentEl a), (contentElWrapper a); try apply local_refl.
  local_steps.
Qed.

Lemma collapseFrame_local this w : local keptByFrames this w (collapseFrame this w).
Proof.
  unfold collapseFrame.
  destruct (getAccordion w this) as [a|]; [|apply local_refl].
  destruct (contentEl a); try apply local_refl.
  local_steps.
Qed.

Lemma runFrame_local cb w : local keptByFrames cb.1 w (runFrame cb w).
Proof.
  unfold runFrame. destruct cb.2;
    [apply expandFrame_local|apply collapseFrame_local].
Qed.

Lemma resume_local x w : local keptByFrames (wTarget x) w (resume x w).
Proof. unfold resume. local_steps. Qed.

Lemma sibling_values_view w w' this :
  children w' = children w -> view static w' = view static w ->
  nextAccordionValue w' this = nextAccordionValue w this
  ∧ previousAccordionValue w' this = previousAccordionValue w this.
Proof.
  intros Hc Hv.
  assert (∀ o : option nat,
    asAccordion (o ≫= λ i, nodes w' !! i) ≫= nodeValue
    = asAccordion (o ≫= λ i, nodes w !! i) ≫= nodeValue) as Hs.
  { intros [j|]; [simpl|done].
    pose proof (view_lookup static w w' j Hv) as Hl.
    destruct (nodes w' !! j) as [[a'|t']|], (nodes w !! j) as [[a|t]|];
      simpl in *; try done.
    - unfold static in Hl. by simplify_eq.
    - subst. by destruct (decide (t = "ION-ACCORDION")). }
  unfold nextAccordionValue, previousAccordionValue,
    getNextSibling, getPreviousSibling.
  rewrite Hc. split; apply Hs.
Qed.

Lemma local_sibling_values this w w' i :
  local static this w w' ->
  nextAccordionValue w' i = nextAccordionValue w i
  ∧ previousAccordionValue w' i = previousAccordionValue w i.
Proof. intros []. by apply sibling_values_view. Qed.

Lemma local_getAccordion_kept this w w' i :
  local kept this w w' -> kept <$> getAccordion w' i = kept <$> getAccordion w i.
Proof. intros []. by apply view_getAccordion. Qed.

Lemma updateState_local this initialUpdate w :
  local static this w (updateState this initialUpdate w).
Proof.
  unfold updateState.
  destruct (getAccordion w this) as [a|]; [|apply local_refl].
  destruct (value a) as [v|]; [|apply local_refl].
  destruct (accordionGroupEl a ≫= _) as [gr|]; [|apply local_refl].
  destruct (isSelected _ _).
  - eapply local_trans;
      [apply local_kept_static, expandAccordion_local|local_steps].
  - eapply local_trans;
      [apply local_kept_static, collapseAccordion_local|].
    destruct (getNextSibling _ _ ≫= nodeValue);
      destruct (getPreviousSibling _ _ ≫= nodeValue); local_steps.
Qed.

(** The adjacency flags [updateState] leaves in [this]. *)
Lemma updateState_flags this initialUpdate w a v g gr :
  getAccordion w this = Some a ->
  value a = Some v ->
  accordionGroupEl a = Some g ->
  groups w !! g = Some gr ->
  flagsOf (updateState this initialUpdate w) this
  = Some (if isSelected (groupValue gr) v then (false, false)
          else (match previousAccordionValue w this with
                | Some pv => isSelected (groupValue gr) pv
                | None => isNext a
                end,
                match nextAccordionValue w this with
                | Some nv => isSelected (groupValue gr) nv
                | None => isPrevious a
                end)).
Proof.
  intros Ha Hv Hg Hgr. unfold updateState, flagsOf.
  rewrite Ha, Hv, Hg. simpl. rewrite Hgr.
  destruct (isSelected (groupValue gr) v).
  - rewrite getAccordion_updAccordion_eq.
    pose proof (local_getAccordion_kept _ _ _ this
                  (expandAccordion_local this initialUpdate w)) as Hk.
    rewrite Ha in Hk.
    by destruct (getAccordion (expandAccordion this initialUpdate w) this).
  - set (w1 := collapseAccordion this initialUpdate w).
    pose proof (collapseAccordion_local this initialUpdate w) as Hl. fold w1 in Hl.
    pose proof (local_getAccordion_kept _ _ _ this Hl) as Hk. rewrite Ha in Hk.
    destruct (local_sibling_values _ _ _ this (local_kept_static _ _ _ Hl))
      as [Hn Hp].
    unfold nextAccordionValue, previousAccordionValue in *.
    destruct (getAccordion w1 this) as [a1|] eqn:Ha1; [|done].
    simpl in Hk. unfold kept, flags in Hk. simplify_eq.
    rewrite Hn.
    destruct (getNextSibling w this ≫= nodeValue) as [nv|] eqn:Hnv.
    + set (w2 := updAccordion this _ w1).
      assert (local static this w1 w2) as Hl2 by (subst w2; local_steps).
      destruct (local_sibling_values _ _ _ this Hl2) as [_ Hp2].
      unfold previousAccordionValue in Hp2. rewrite Hp2, Hp.
      destruct (getPreviousSibling w this ≫= nodeValue) as [pv|];
        subst w2; rewrite ?getAccordion_updAccordion_eq, Ha1; simpl; congruence.
    + rewrite Hp.
      destruct (getPreviousSibling w this ≫= nodeValue) as [pv|];
        rewrite ?getAccordion_updAccordion_eq, Ha1; simpl; congruence.
Qed.

(** ** Selection and adjacency *)

Lemma includes_elem_of l x : includes l x = true ↔ x ∈ l.
Proof.
  unfold includes. rewrite existsb_exists. split.
  - intros (y & Hy & Heq). apply String.eqb_eq in Heq. subst.
    by apply list_elem_of_In.
  - intros Hx. exists x. split; [by apply list_elem_of_In|apply String.eqb_refl].
Qed.

Lemma nextAccordionValue_Some w this nv :
  nextAccordionValue w this = Some nv ↔
  ∃ j n, nextElementSibling (children w) this = Some j ∧ nodes w !! j = Some n
         ∧ tagName n = "ION-ACCORDION" ∧ nodeValue n = Some nv.
Proof.
  unfold nextAccordionValue, getNextSibling, asAccordion. split.
  - destruct (nextElementSibling _ _) as [j|]; [simpl|done].
    destruct (nodes w !! j) as [n|] eqn:Hn; [|done].
    case_decide; [|done]. intros Hv. by exists j, n.
  - intros (j & n & -> & Hn & Ht & Hv). simpl. rewrite Hn.
    by rewrite decide_True.
Qed.

Lemma previousAccordionValue_Some w this pv :
  previousAccordionValue w this = Some pv ↔
  ∃ j n, previousElementSibling (children w) this = Some j ∧ nodes w !! j = Some n
         ∧ tagName n = "ION-ACCORDION" ∧ nodeValue n = Some pv.
Proof.
  unfold previousAccordionValue, getPreviousSibling, asAccordion. split.
  - destruct (previousElementSibling _ _) as [j|]; [simpl|done].
    destruct (nodes w !! j) as [n|] eqn:Hn; [|done].
    case_decide; [|done]. intros Hv. by exists j, n.
  - intros (j & n & -> & Hn & Ht & Hv). simpl. rewrite Hn.
    by rewrite decide_True.
Qed.

(** C10: when [updateState] finds the item not selected, [isPrevious]
    is assigned exactly when the next element sibling exists, is an
    [ion-accordion] and has a defined identifier, and [isNext] exactly
    when the previous one does; otherwise the flag keeps the value it
    had.  A flag set earlier therefore survives the neighbour that
    justified it: after panel-2 loses its identifier, or is taken out
    of the document, the flags of its neighbours stay [true] although
    nothing is selected any more. *)
Theorem updateState_adjacency_frame this initialUpdate w a v g gr :
  getAccordion w this = Some a ->
  value a = Some v ->
  accordionGroupEl a = Some g ->
  groups w !! g = Some gr ->
  isSelected (groupValue gr) v = false ->
  (∃ a', getAccordion (updateState this initialUpdate w) this = Some a'
     ∧ isPrevious a' = match nextAccordionValue w this with
                       | Some nv => isSelected (groupValue gr) nv
                       | None => isPrevious a
                       end
     ∧ isNext a' = match previousAccordionValue w this with
                   | Some pv => isSelected (groupValue gr) pv
                   | None => isNext a
                   end)
  ∧ (∀ nv, nextAccordionValue w this = Some nv ↔
       ∃ j n, nextElementSibling (children w) this = Some j
              ∧ nodes w !! j = Some n
              ∧ tagName n = "ION-ACCORDION" ∧ nodeValue n = Some nv)
  ∧ (∀ pv, previousAccordionValue w this = Some pv ↔
       ∃ j n, previousElementSibling (children w) this = Some j
              ∧ nodes w !! j = Some n
              ∧ tagName n = "ION-ACCORDION" ∧ nodeValue n = Some pv)
  ∧ flagsOf (run [SetValue 1 None; IonChange 0 VUndefined] three_panels) 0
    = Some (false, true)
  ∧ flagsOf (run [RemoveChild 1; RemoveChild 0; IonChange 0 VUndefined]
               three_panels) 2
    = Some (true, false).
Proof.
  intros Ha Hv Hg Hgr Hsel.
  split; [|split; [|split; [|split]]].
  - pose proof (updateState_flags this initialUpdate w a v g gr Ha Hv Hg Hgr) as Hf.
    rewrite Hsel in Hf. unfold flagsOf in Hf.
    destruct (getAccordion (updateState this initialUpdate w) this) as [a'|];
      [|done].
    simpl in Hf. exists a'. by simplify_eq.
  - apply nextAccordionValue_Some.
  - apply previousAccordionValue_Some.
  - by vm_compute.
  - by vm_compute.
Qed.

Lemma updateState_adjacency_frame_witness :
  ∃ a', getAccordion (updateState 2 false three_panels) 2 = Some a'
        ∧ isPrevious a' = false ∧ isNext a' = true.
Proof.
  destruct (updateState_adjacency_frame 2 false three_panels
              (mkAccordion (Some 0) (Some (mkDiv 80 None)) (Some (mkDiv 80 None))
                 None Collapsed true false (Some "panel-3"))
              "panel-3" 0 (mkGroup (VString "panel-2") [0; 1; 2])
              eq_refl eq_refl eq_refl eq_refl eq_refl)
    as [Hflags _].
  exact Hflags.
Defined.

Lemma stateOf_updAccordion w i j f :
  (∀ a, state (f a) = state a) ->
  stateOf (updAccordion i f w) j = stateOf w j.
Proof.
  intros Hf. unfold stateOf. rewrite getAccordion_updAccordion.
  case_decide; [|done]. destruct (getAccordion w j); simpl; by rewrite ?Hf.
Qed.

Lemma isSelected_spec value x :
  isSelected value x = true ↔
  match value with
  | VArray l => x ∈ l
  | VString s => s = x
  | VUndefined => False
  end.
Proof.
  destruct value as [|s|l]; simpl.
  - done.
  - apply String.eqb_eq.
  - apply includes_elem_of.
Qed.

(** C3 (as the code has it): for an item with a resolvable group and a
    defined identifier, [updateState] takes [shouldExpand] to be
    membership of the identifier in an array selection and equality
    with a scalar one.  When it holds, the call is [expandAccordion]
    followed by clearing both adjacency flags, so both flags are false
    after it.  When it does not hold, the call is [collapseAccordion]
    followed by the reassignment of the flags from the neighbours; the
    scheduler, the log and the lifecycle state are those
    [collapseAccordion] leaves, which on a later update is still the
    open state until the scheduled frame runs. *)
Theorem updateState_selection this initialUpdate w a v g gr :
  getAccordion w this = Some a ->
  value a = Some v ->
  accordionGroupEl a = Some g ->
  groups w !! g = Some gr ->
  let shouldExpand := isSelected (groupValue gr) v in
  let w' := updateState this initialUpdate w in
  (shouldExpand = true ↔
     match groupValue gr with
     | VArray l => v ∈ l
     | VString s => s = v
     | VUndefined => False
     end)
  ∧ (shouldExpand = true ->
       w' = updAccordion this (λ a, set_isNext false (set_isPrevious false a))
              (expandAccordion this initialUpdate w)
       ∧ flagsOf w' this = Some (false, false)
       ∧ stateOf w' this = stateOf (expandAccordion this initialUpdate w) this)
  ∧ (shouldExpand = false ->
       let w1 := collapseAccordion this initialUpdate w in
       frames w' = frames w1 ∧ waiters w' = waiters w1 ∧ log w' = log w1
       ∧ stateOf w' this = stateOf w1 this
       ∧ flagsOf w' this
         = Some (match previousAccordionValue w this with
                 | Some pv => isSelected (groupValue gr) pv
                 | None => isNext a
                 end,
                 match nextAccordionValue w this with
                 | Some nv => isSelected (groupValue gr) nv
                 | None => isPrevious a
                 end)).
Proof.
  intros Ha Hv Hg Hgr shouldExpand w'.
  pose proof (updateState_flags this initialUpdate w a v g gr Ha Hv Hg Hgr) as Hf.
  fold shouldExpand w' in Hf.
  split; [apply isSelected_spec|]. split; intros Hs; rewrite Hs in Hf.
  - split; [|split; [done|]]; subst w'; unfold updateState;
      rewrite Ha, Hv, Hg; simpl; rewrite Hgr; fold shouldExpand; rewrite Hs.
    + done.
    + by apply stateOf_updAccordion.
  - intros w1. split; [|split; [|split; [|split; [|done]]]]; subst w' w1;
      unfold updateState; rewrite Ha, Hv, Hg; simpl; rewrite Hgr;
      fold shouldExpand; rewrite Hs;
      destruct (getNextSibling _ _ ≫= nodeValue);
      destruct (getPreviousSibling _ _ ≫= nodeValue); try done;
      by rewrite ?stateOf_updAccordion.
Qed.

Lemma updateState_selection_witness :
  flagsOf (updateState 1 false three_panels) 1 = Some (false, false)
  ∧ flagsOf (updateState 0 false three_panels) 0 = Some (false, true).
Proof.
  destruct (updateState_selection 1 false three_panels
              (mkAccordion (Some 0) (Some (mkDiv 60 None)) (Some (mkDiv 60 None))
                 None Expanded false false (Some "panel-2"))
              "panel-2" 0 (mkGroup (VString "panel-2") [0; 1; 2])
              eq_refl eq_refl eq_refl eq_refl)
    as (_ & Hsel & _).
  destruct (updateState_selection 0 false three_panels
              (mkAccordion (Some 0) (Some (mkDiv 40 None)) (Some (mkDiv 40 None))
                 None Collapsed false true (Some "panel-1"))
              "panel-1" 0 (mkGroup (VString "panel-2") [0; 1; 2])
              eq_refl eq_refl eq_refl eq_refl)
    as (_ & _ & Hun).
  split.
  - exact (proj1 (proj2 (Hsel eq_refl))).
  - exact (proj2 (proj2 (proj2 (proj2 (Hun eq_refl))))).
Defined.

(** C3 as stated fails: when the selection moves from panel-2 to
    panel-1, [updateState] finds panel-2 not selected, only schedules
    the collapse and sets [isNext] at once, so panel-2 is still
    [Expanded] with an adjacency flag already true. *)
Lemma flags_true_while_expanded :
  ¬ flags_false_while_open
      (step (IonChange 0 (VString "panel-1")) three_panels) 1.
Proof.
  intros H.
  destruct (H (mkAccordion (Some 0) (Some (mkDiv 60 None)) (Some (mkDiv 60 None))
                 (Some 2) Expanded true false (Some "panel-2")))
    as [Hn _]; [by vm_compute|by left|].
  discriminate Hn.
Qed.

(** ** Toggle requests *)

(** C5: with a resolvable group, [toggleExpanded] takes [expand] to be
    true exactly in the states Collapsed and Collapsing, hands the pair
    of the identifier and [expand] to the group, and changes nothing
    else: every component, the scheduler and the clock are as before. *)
Theorem toggleExpanded_defers_to_group this w a g :
  getAccordion w this = Some a ->
  accordionGroupEl a = Some g ->
  let expand := bool_decide (state a = Collapsed ∨ state a = Collapsing) in
  let w' := toggleExpanded this w in
  log w' = log w ++ [ERequestAccordionToggle g (value a) expand]
  ∧ nodes w' = nodes w
  ∧ groups w' = groups w
  ∧ frames w' = frames w
  ∧ waiters w' = waiters w
  ∧ stateOf w' this = Some (state a)
  ∧ flagsOf w' this = Some (isNext a, isPrevious a).
Proof.
  intros Ha Hg expand w'. subst w' expand. unfold toggleExpanded, stateOf, flagsOf.
  rewrite Ha, Hg. simpl.
  assert (getAccordion (emit (ERequestAccordionToggle g (value a)
            (bool_decide (state a = Collapsed) || bool_decide (state a = Collapsing))) w)
            this = Some a) as -> by done.
  repeat split. do 3 f_equal. by destruct (state a).
Qed.

Lemma toggleExpanded_defers_to_group_witness :
  log (toggleExpanded 1 three_panels)
  = log three_panels ++ [ERequestAccordionToggle 0 (Some "panel-2") false]
  ∧ stateOf (toggleExpanded 1 three_panels) 1 = Some Expanded.
Proof.
  destruct (toggleExpanded_defers_to_group 1 three_panels
              (mkAccordion (Some 0) (Some (mkDiv 60 None)) (Some (mkDiv 60 None))
                 None Expanded false false (Some "panel-2"))
              0 eq_refl eq_refl)
    as (Hlog & _ & _ & _ & _ & Hstate & _).
  split; [exact Hlog|exact Hstate].
Defined.

(** ** First attachment *)

Lemma getAccordion_emit e w i : getAccordion (emit e w) i = getAccordion w i.
Proof. done. Qed.

Lemma getAccordion_setState w this s i :
  getAccordion (setState this s w) i
  = if decide (this = i) then set_state s <$> getAccordion w i
    else getAccordion w i.
Proof. unfold setState. by rewrite getAccordion_emit, getAccordion_updAccordion. Qed.

Lemma stateOf_setState w this s a :
  getAccordion w this = Some a -> stateOf (setState this s w) this = Some s.
Proof.
  intros Ha. unfold stateOf.
  by rewrite getAccordion_setState, decide_True, Ha.
Qed.

Lemma updateState_initial this w a v g gr :
  getAccordion w this = Some a ->
  value a = Some v ->
  accordionGroupEl a = Some g ->
  groups w !! g = Some gr ->
  let s := if isSelected (groupValue gr) v then Expanded else Collapsed in
  let w' := updateState this true w in
  stateOf w' this = Some s
  ∧ frames w' = frames w ∧ waiters w' = waiters w
  ∧ nextHandle w' = nextHandle w ∧ groups w' = groups w
  ∧ log w' = log w ++ [ESetState this s].
Proof.
  intros Ha Hv Hg Hgr s w'. subst s w'. unfold updateState.
  rewrite Ha, Hv, Hg. simpl. rewrite Hgr.
  destruct (isSelected (groupValue gr) v).
  - unfold expandAccordion. rewrite Ha.
    rewrite stateOf_updAccordion by done.
    by rewrite (stateOf_setState _ _ _ a).
  - unfold collapseAccordion. rewrite Ha.
    destruct (getNextSibling _ _ ≫= nodeValue);
      destruct (getPreviousSibling _ _ ≫= nodeValue);
      rewrite ?stateOf_updAccordion by done;
      by rewrite (stateOf_setState _ _ _ a).
Qed.

(** C8: on first attachment an item with a resolvable group and a
    defined identifier takes at once the terminal state matching the
    selection of the group, Expanded if selected and Collapsed if not;
    the only effect is that one assignment of the state: no animation
    frame is requested and no transition end is awaited.  With the
    scalar selection "panel-2" and fresh items "panel-1", "panel-2",
    "panel-3" the states right after attachment are Collapsed,
    Expanded, Collapsed, with nothing scheduled. *)
Theorem connectedCallback_adopts_terminal_state this w a v g gr :
  getAccordion w this = Some a ->
  value a = Some v ->
  this ∈ children w ->
  closest w = Some g ->
  groups w !! g = Some gr ->
  let s := if isSelected (groupValue gr) v then Expanded else Collapsed in
  let w' := connectedCallback this w in
  (stateOf w' this = Some s
   ∧ frames w' = frames w ∧ waiters w' = waiters w
   ∧ nextHandle w' = nextHandle w
   ∧ log w' = log w ++ [ESetState this s])
  ∧ (stateOf three_panels <$> [0; 1; 2]
       = [Some Collapsed; Some Expanded; Some Collapsed]
     ∧ frames three_panels = [] ∧ waiters three_panels = []
     ∧ log three_panels
       = [ESetState 0 Collapsed; ESetState 1 Expanded; ESetState 2 Collapsed]).
Proof.
  intros Ha Hv Hin Hc Hgr s w'. split; [|by vm_compute].
  subst s w'. unfold connectedCallback.
  rewrite decide_True by done. rewrite Hc.
  set (w0 := updAccordion this (set_accordionGroupEl (Some g)) w).
  assert (getAccordion w0 this = Some (set_accordionGroupEl (Some g) a)) as Ha0.
  { subst w0. by rewrite getAccordion_updAccordion_eq, Ha. }
  destruct (updateState_initial this w0 _ v g gr Ha0 Hv eq_refl Hgr)
    as (Hs & Hf & Hw & Hn & Hgs & Hl).
  by repeat split.
Qed.

Lemma connectedCallback_adopts_terminal_state_witness :
  let w0 := mount [panel "panel-1" 40; panel "panel-2" 60; panel "panel-3" 80]
              [VString "panel-2"] in
  let w1 := connectedCallback 0 w0 in
  let w2 := connectedCallback 1 w1 in
  let w3 := connectedCallback 2 w2 in
  (stateOf w1 0 = Some Collapsed ∧ frames w1 = frames w0 ∧ waiters w1 = waiters w0)
  ∧ (stateOf w2 1 = Some Expanded ∧ frames w2 = frames w1 ∧ waiters w2 = waiters w1)
  ∧ (stateOf w3 2 = Some Collapsed ∧ frames w3 = frames w2 ∧ waiters w3 = waiters w2).
Proof.
  intros w0 w1 w2 w3.
  assert (0 ∈ children w0) as H0 by (apply (list_elem_of_lookup_2 _ 0); reflexivity).
  assert (1 ∈ children w1) as H1 by (apply (list_elem_of_lookup_2 _ 1); reflexivity).
  assert (2 ∈ children w2) as H2 by (apply (list_elem_of_lookup_2 _ 2); reflexivity).
  split; [|split].
  - destruct (connectedCallback_adopts_terminal_state 0 w0
                (newAccordion (Some "panel-1") (Some (mkDiv 40 None)) (Some (mkDiv 40 None)))
                "panel-1" 0 (mkGroup (VString "panel-2") [])
                eq_refl eq_refl H0 eq_refl eq_refl)
      as [(Hs & Hf & Hw & _) _].
    by repeat split.
  - destruct (connectedCallback_adopts_terminal_state 1 w1
                (newAccordion (Some "panel-2") (Some (mkDiv 60 None)) (Some (mkDiv 60 None)))
                "panel-2" 0 (mkGroup (VString "panel-2") [0])
                eq_refl eq_refl H1 eq_refl eq_refl)
      as [(Hs & Hf & Hw & _) _].
    by repeat split.
  - destruct (connectedCallback_adopts_terminal_state 2 w2
                (newAccordion (Some "panel-3") (Some (mkDiv 80 None)) (Some (mkDiv 80 None)))
                "panel-3" 0 (mkGroup (VString "panel-2") [0; 1])
                eq_refl eq_refl H2 eq_refl eq_refl)
      as [(Hs & Hf & Hw & _) _].
    by repeat split.
Defined.

(** ** Siblings in document order *)

Lemma nextElementSibling_app l1 x l2 :
  x ∉ l1 -> nextElementSibling (l1 ++ x :: l2) x = head l2.
Proof.
  induction l1 as [|y l1 IH]; intros Hx; simpl.
  - by rewrite decide_True.
  - rewrite decide_False by (intros ->; apply Hx; left).
    apply IH. intros ?. apply Hx. by right.
Qed.

Lemma previousElementSibling_absent y l x :
  x ∉ l -> previousElementSibling (y :: l) x = None.
Proof.
  revert y. induction l as [|z l IH]; intros y Hx; [done|].
  simpl. rewrite decide_False by (intros ->; apply Hx; left).
  apply IH. intros ?. apply Hx. by right.
Qed.

Lemma previousElementSibling_app l1 x l2 :
  x ∉ l1 -> x ∉ l2 -> previousElementSibling (l1 ++ x :: l2) x = last l1.
Proof.
  intros H1 H2. induction l1 as [|y l1 IH].
  - by apply previousElementSibling_absent.
  - destruct l1 as [|z l1].
    + simpl. by rewrite decide_True.
    + change (previousElementSibling ((y :: z :: l1) ++ x :: l2) x)
        with (if decide (z = x) then Some y
              else previousElementSibling ((z :: l1) ++ x :: l2) x).
      rewrite decide_False by (intros ->; apply H1; right; left).
      rewrite IH; [done|]. intros ?. apply H1. by right.
Qed.

(** ** Settling leaves the adjacency flags alone *)

Lemma view_foldl {X B} (π : Accordion -> X) (f : World -> B -> World) l w :
  (∀ w b, view π (f w b) = view π w) -> view π (foldl f w l) = view π w.
Proof.
  intros Hf. revert w. induction l as [|b l IH]; intros w; [done|].
  simpl. by rewrite IH, Hf.
Qed.

Lemma animationFrame_view w :
  view keptByFrames (animationFrame w) = view keptByFrames w.
Proof.
  unfold animationFrame. rewrite view_foldl; [done|].
  intros w' p. apply (runFrame_local p.2 w').
Qed.

Lemma resolveWaiters_view fires w :
  view keptByFrames (resolveWaiters fires w) = view keptByFrames w.
Proof.
  unfold resolveWaiters. rewrite view_foldl; [done|].
  intros w' x. apply (resume_local x w').
Qed.

Lemma animationFrame_view_kept w : view kept (animationFrame w) = view kept w.
Proof. apply (view_compose keptByFrames fst), animationFrame_view. Qed.

Lemma resolveWaiters_view_kept fires w :
  view kept (resolveWaiters fires w) = view kept w.
Proof. apply (view_compose keptByFrames fst), resolveWaiters_view. Qed.

Lemma settling_view_kept e w : settling e -> view kept (step e w) = view kept w.
Proof.
  destruct e; simpl; try done; intros _.
  - apply animationFrame_view_kept.
  - apply resolveWaiters_view_kept.
  - unfold elapse. by rewrite resolveWaiters_view_kept.
Qed.

Lemma settling_run_view_kept es w :
  Forall settling es -> view kept (run es w) = view kept w.
Proof.
  intros H. revert w. induction H as [|e es He _ IH]; intros w; [done|].
  unfold run in *. simpl. by rewrite IH, settling_view_kept.
Qed.

Lemma view_kept_flagsOf w w' i :
  view kept w' = view kept w -> flagsOf w' i = flagsOf w i.
Proof.
  intros H. apply (view_getAccordion kept w w' i) in H. unfold flagsOf.
  destruct (getAccordion w' i), (getAccordion w i); simpl in *; try done.
  unfold kept, flags in H. congruence.
Qed.

Lemma view_static_getAccordion w w' i a :
  view static w' = view static w -> getAccordion w i = Some a ->
  ∃ a', getAccordion w' i = Some a' ∧ value a' = value a
        ∧ accordionGroupEl a' = accordionGroupEl a.
Proof.
  intros H Ha. apply (view_getAccordion static w w' i) in H. rewrite Ha in H.
  destruct (getAccordion w' i) as [a'|]; [|done].
  exists a'. unfold static in H. simpl in H. by simplify_eq.
Qed.

Lemma local_other_getAccordion {X} (π : Accordion -> X) this w w' i :
  local π this w w' -> i ≠ this -> getAccordion w' i = getAccordion w i.
Proof. intros Hl Hi. unfold getAccordion. by rewrite (local_other _ _ _ _ Hl). Qed.

(** Running the listeners of a broadcast: a component that is among
    them ends with the flags its own [updateState] gives it. *)
Lemma broadcast_flags (inv : World -> Prop) X t ls w :
  (∀ w l, inv w -> inv (updateState l false w)) ->
  (∀ w, inv w -> flagsOf (updateState X false w) X = Some t) ->
  inv w ->
  X ∈ ls ∨ flagsOf w X = Some t ->
  flagsOf (foldl (λ w l, updateState l false w) w ls) X = Some t.
Proof.
  intros Hinv Hself. revert w.
  induction ls as [|l ls IH]; intros w Hw Hcase; simpl.
  - destruct Hcase as [Hin|]; [|done]. by apply elem_of_nil in Hin.
  - apply IH; [by apply Hinv|].
    destruct (decide (l = X)) as [->|Hne].
    + right. by apply Hself.
    + destruct Hcase as [Hin|Hdone].
      * left. apply elem_of_cons in Hin as [->|]; done.
      * right. rewrite <- Hdone. unfold flagsOf.
        by rewrite (local_other_getAccordion _ _ _ _ _
                      (updateState_local l false w)).
Qed.

Lemma updateState_flags_later this initialUpdate w w' a v g gr' :
  children w' = children w ->
  view static w' = view static w ->
  getAccordion w this = Some a ->
  value a = Some v ->
  accordionGroupEl a = Some g ->
  groups w' !! g = Some gr' ->
  ∃ a', getAccordion w' this = Some a'
    ∧ flagsOf (updateState this initialUpdate w') this
      = Some (if isSelected (groupValue gr') v then (false, false)
              else (match previousAccordionValue w this with
                    | Some pv => isSelected (groupValue gr') pv
                    | None => isNext a'
                    end,
                    match nextAccordionValue w this with
                    | Some nv => isSelected (groupValue gr') nv
                    | None => isPrevious a'
                    end)).
Proof.
  intros Hc Hv Ha Hval Hg Hgr.
  destruct (view_static_getAccordion w w' this a Hv Ha) as (a' & Ha' & Hv' & Hg').
  exists a'. split; [done|].
  destruct (sibling_values_view w w' this Hc Hv) as [Hn Hp].
  rewrite <- Hn, <- Hp.
  apply (updateState_flags this initialUpdate w' a' v g gr'); congruence.
Qed.

(** C1 (as the code has it): let A, B, C be adjacent accordion items in
    document order, subscribed to the group, with defined identifiers,
    B's identifier carried by no other element, and let the new
    selection select exactly B's identifier.  Assume A and C carry no
    stale flag on the side away from B.  After the change notification
    and any settling of the scheduled work, A has [isPrevious] true and
    [isNext] false, C has [isNext] true and [isPrevious] false, and B
    has both flags false.  Flags are written [(isNext, isPrevious)]. *)
Theorem adjacency_after_selection_change
    w g gr sel pre post A B C aA aB aC a b c es :
  children w = pre ++ [A; B; C] ++ post ->
  NoDup (children w) ->
  getAccordion w A = Some aA ->
  getAccordion w B = Some aB ->
  getAccordion w C = Some aC ->
  value aA = Some a -> value aB = Some b -> value aC = Some c ->
  accordionGroupEl aA = Some g ->
  accordionGroupEl aB = Some g ->
  accordionGroupEl aC = Some g ->
  groups w !! g = Some gr ->
  A ∈ listeners gr -> B ∈ listeners gr -> C ∈ listeners gr ->
  (∀ x, isSelected sel x = true ↔ x = b) ->
  (∀ j n, nodes w !! j = Some n -> nodeValue n = Some b -> j = B) ->
  (previousAccordionValue w A = None -> isNext aA = false) ->
  (nextAccordionValue w C = None -> isPrevious aC = false) ->
  Forall settling es ->
  let w' := run (IonChange g sel :: es) w in
  flagsOf w' A = Some (false, true)
  ∧ flagsOf w' B = Some (false, false)
  ∧ flagsOf w' C = Some (true, false).
Proof.
  intros Hch Hnd HA HB HC Hva Hvb Hvc HgA HgB HgC Hgr HlA HlB HlC Hsel Huniq
    HstA HstC Hes w'.
  (* the three items are distinct and occur once *)
  rewrite Hch in Hnd.
  apply NoDup_app in Hnd as (_ & Hpre & Hnd).
  apply NoDup_cons in Hnd as (HA' & Hnd).
  apply NoDup_cons in Hnd as (HB' & Hnd).
  apply NoDup_cons in Hnd as (HCpost & _).
  apply not_elem_of_cons in HA' as (HAB & HA').
  apply not_elem_of_cons in HA' as (HAC & HApost).
  apply not_elem_of_cons in HB' as (HBC & HBpost).
  assert (A ∉ pre) as HApre by (intros Hin; apply (Hpre A Hin); left).
  assert (B ∉ pre) as HBpre by (intros Hin; apply (Hpre B Hin); right; left).
  assert (C ∉ pre) as HCpre
    by (intros Hin; apply (Hpre C Hin); right; right; left).
  assert (pre ++ [A; B; C] ++ post = (pre ++ [A]) ++ B :: C :: post) as HchB
    by by rewrite <- app_assoc.
  assert (pre ++ [A; B; C] ++ post = ((pre ++ [A]) ++ [B]) ++ C :: post) as HchC
    by by rewrite <- !app_assoc.
  (* who is next to whom *)
  assert (nextElementSibling (children w) A = Some B) as HnA.
  { rewrite Hch. simpl. by rewrite nextElementSibling_app. }
  assert (previousElementSibling (children w) A = last pre) as HpA.
  { rewrite Hch. simpl. rewrite previousElementSibling_app; [done..|].
    rewrite !not_elem_of_cons. auto. }
  assert (previousElementSibling (children w) B = Some A) as HpB.
  { rewrite Hch, HchB.
    rewrite previousElementSibling_app; [by rewrite last_snoc|..].
    - rewrite not_elem_of_app, not_elem_of_cons. auto using not_elem_of_nil.
    - rewrite not_elem_of_cons. auto. }
  assert (nextElementSibling (children w) B = Some C) as HnB.
  { rewrite Hch, HchB. rewrite nextElementSibling_app; [done|].
    rewrite not_elem_of_app, not_elem_of_cons. auto using not_elem_of_nil. }
  assert (previousElementSibling (children w) C = Some B) as HpC.
  { rewrite Hch, HchC.
    rewrite previousElementSibling_app; [by rewrite last_snoc|..|done].
    rewrite !not_elem_of_app, !not_elem_of_cons. auto using not_elem_of_nil. }
  assert (nextElementSibling (children w) C = head post) as HnC.
  { rewrite Hch, HchC. rewrite nextElementSibling_app; [done|].
    rewrite !not_elem_of_app, !not_elem_of_cons. auto using not_elem_of_nil. }
  (* the identifiers read off the neighbours *)
  assert (nodes w !! B = Some (IonAccordion aB)) as HBn.
  { unfold getAccordion in HB. by destruct (nodes w !! B) as [[]|]; simplify_eq. }
  assert (nextAccordionValue w A = Some b) as HnvA.
  { apply nextAccordionValue_Some. by exists B, (IonAccordion aB). }
  assert (previousAccordionValue w C = Some b) as HpvC.
  { apply previousAccordionValue_Some. by exists B, (IonAccordion aB). }
  assert (∀ pv, previousAccordionValue w A = Some pv -> isSelected sel pv = false)
    as HpvA.
  { intros pv (j & n & Hj & Hn & _ & Hv)%previousAccordionValue_Some.
    destruct (isSelected sel pv) eqn:Hs; [|done].
    apply Hsel in Hs as ->. apply (Huniq j n Hn) in Hv as ->.
    rewrite HpA in Hj. destruct HBpre.
    by apply last_Some_elem_of. }
  assert (∀ nv, nextAccordionValue w C = Some nv -> isSelected sel nv = false)
    as HnvC.
  { intros nv (j & n & Hj & Hn & _ & Hv)%nextAccordionValue_Some.
    destruct (isSelected sel nv) eqn:Hs; [|done].
    apply Hsel in Hs as ->. apply (Huniq j n Hn) in Hv as ->.
    rewrite HnC in Hj. destruct HBpost.
    by apply head_Some_elem_of. }
  assert (nextAccordionValue w B = Some c) as HnvB.
  { apply nextAccordionValue_Some. exists C.
    unfold getAccordion in HC. destruct (nodes w !! C) as [[]|]; simplify_eq.
    by eexists. }
  assert (isSelected sel b = true) as Hselb by by apply Hsel.
  assert (isSelected sel a = false) as Hsela.
  { destruct (isSelected sel a) eqn:Hs; [|done]. apply Hsel in Hs as ->.
    unfold getAccordion in HA. destruct (nodes w !! A) as [[aA'|]|] eqn:HAn;
      simplify_eq.
    destruct HAB. by apply (Huniq A (IonAccordion aA)). }
  assert (isSelected sel c = false) as Hselc.
  { destruct (isSelected sel c) eqn:Hs; [|done]. apply Hsel in Hs as ->.
    unfold getAccordion in HC. destruct (nodes w !! C) as [[aC'|]|] eqn:HCn;
      simplify_eq.
    destruct HBC. symmetry. by apply (Huniq C (IonAccordion aC)). }
  (* the broadcast *)
  set (gr' := {| groupValue := sel; listeners := listeners gr |}).
  set (w1 := set_groups (alter (λ gr, {| groupValue := sel;
                                        listeners := listeners gr |}) g (groups w)) w).
  assert (groups w1 !! g = Some gr') as Hgr1.
  { subst w1. simpl. by rewrite list_lookup_alter_eq, Hgr. }
  set (inv := λ v : World,
    children v = children w ∧ view static v = view static w
    ∧ groups v = groups w1
    ∧ (∀ a', getAccordion v A = Some a' ->
             previousAccordionValue w A = None -> isNext a' = false)
    ∧ (∀ a', getAccordion v C = Some a' ->
             nextAccordionValue w C = None -> isPrevious a' = false)).
  assert (inv w1) as Hinv1.
  { subst inv w1. repeat split; try done.
    - intros a' Ha'. change (getAccordion w A = Some a') in Ha'.
      by simplify_eq.
    - intros a' Ha'. change (getAccordion w C = Some a') in Ha'.
      by simplify_eq. }
  assert (∀ v, inv v -> flagsOf (updateState A false v) A = Some (false, true))
    as HselfA.
  { intros v (Hc & Hv & Hg & HcA & _).
    assert (groups v !! g = Some gr') as Hgv by by rewrite Hg.
    destruct (updateState_flags_later A false w v aA a g gr' Hc Hv HA Hva HgA Hgv)
      as (a' & Ha' & ->).
    simpl. rewrite Hsela, HnvA, Hselb.
    destruct (previousAccordionValue w A) as [pv|] eqn:Hpv.
    - by rewrite (HpvA pv).
    - by rewrite (HcA a'). }
  assert (∀ v, inv v -> flagsOf (updateState C false v) C = Some (true, false))
    as HselfC.
  { intros v (Hc & Hv & Hg & _ & HcC).
    assert (groups v !! g = Some gr') as Hgv by by rewrite Hg.
    destruct (updateState_flags_later C false w v aC c g gr' Hc Hv HC Hvc HgC Hgv)
      as (a' & Ha' & ->).
    simpl. rewrite Hselc, HpvC, Hselb.
    destruct (nextAccordionValue w C) as [nv|] eqn:Hnv.
    - by rewrite (HnvC nv).
    - by rewrite (HcC a'). }
  assert (∀ v, inv v -> flagsOf (updateState B false v) B = Some (false, false))
    as HselfB.
  { intros v (Hc & Hv & Hg & _ & _).
    assert (groups v !! g = Some gr') as Hgv by by rewrite Hg.
    destruct (updateState_flags_later B false w v aB b g gr' Hc Hv HB Hvb HgB Hgv)
      as (a' & Ha' & ->).
    simpl. by rewrite Hselb. }
  assert (∀ v l, inv v -> inv (updateState l false v)) as Hstep.
  { intros v l Hv. pose proof Hv as (Hc & Hvs & Hg & HcA & HcC).
    pose proof (updateState_local l false v) as Hl.
    destruct Hl as [Hl1 Hl2 Hl3 Hl4 Hl5 Hl6].
    split; [congruence|]. split; [congruence|]. split; [congruence|]. split.
    - intros a' Ha' Hnone. destruct (decide (l = A)) as [->|Hne].
      + pose proof (HselfA v Hv) as Hf. unfold flagsOf in Hf.
        rewrite Ha' in Hf. simpl in Hf. by simplify_eq.
      + apply HcA; [|done]. rewrite <- Ha'. unfold getAccordion.
        by rewrite Hl6.
    - intros a' Ha' Hnone. destruct (decide (l = C)) as [->|Hne].
      + pose proof (HselfC v Hv) as Hf. unfold flagsOf in Hf.
        rewrite Ha' in Hf. simpl in Hf. by simplify_eq.
      + apply HcC; [|done]. rewrite <- Ha'. unfold getAccordion.
        by rewrite Hl6. }
  (* settling does not touch the flags *)
  subst w'. unfold run. simpl. fold (run es (ionChange g sel w)).
  rewrite !(view_kept_flagsOf (ionChange g sel w) (run es (ionChange g sel w)))
    by by apply settling_run_view_kept.
  unfold ionChange. fold w1. rewrite Hgr1. simpl.
  split; [|split]; apply (broadcast_flags inv); auto.
Qed.

Lemma adjacency_after_selection_change_witness :
  let w' := run [IonChange 0 (VString "panel-2"); AnimationFrame; Elapse 50000]
              panel3_open in
  flagsOf w' 0 = Some (false, true)
  ∧ flagsOf w' 1 = Some (false, false)
  ∧ flagsOf w' 2 = Some (true, false).
Proof.
  apply (adjacency_after_selection_change panel3_open 0
           (mkGroup (VString "panel-3") [0; 1; 2]) (VString "panel-2")
           [] [] 0 1 2
           (mkAccordion (Some 0) (Some (mkDiv 40 None)) (Some (mkDiv 40 None))
              None Collapsed false false (Some "panel-1"))
           (mkAccordion (Some 0) (Some (mkDiv 60 None)) (Some (mkDiv 60 None))
              (Some 1) Collapsed false true (Some "panel-2"))
           (mkAccordion (Some 0) (Some (mkDiv 80 None)) (Some (mkDiv 80 None))
              (Some 2) Expanded false false (Some "panel-3"))
           "panel-1" "panel-2" "panel-3" [AnimationFrame; Elapse 50000]);
    try (vm_compute; reflexivity).
  - apply (bool_decide_unpack _). reflexivity.
  - apply (list_elem_of_lookup_2 _ 0). reflexivity.
  - apply (list_elem_of_lookup_2 _ 1). reflexivity.
  - apply (list_elem_of_lookup_2 _ 2). reflexivity.
  - intros x. unfold isSelected. rewrite String.eqb_eq. split; congruence.
  - intros [|[|[|j]]] n Hn Hv; vm_compute in Hn;
      try reflexivity; try discriminate Hn;
      injection Hn as <-; discriminate Hv.
  - repeat constructor.
Defined.

(** C1 as stated fails: with only panel-2 selected, panel-1 (the item
    before it) ends with [isPrevious] true and [isNext] false, not the
    other way round, and panel-3 with [isNext] true. *)
Lemma adjacency_flags_named_from_the_item :
  ¬ adjacency_as_specified
      (run [IonChange 0 (VString "panel-2"); AnimationFrame; Elapse 50000]
         panel3_open) 0 1 2.
Proof. intros [H _]. vm_compute in H. discriminate H. Qed.

(** ** The transition driver, step by step *)

Lemma getAccordion_lookup w this a :
  getAccordion w this = Some a ↔ nodes w !! this = Some (IonAccordion a).
Proof.
  unfold getAccordion. destruct (nodes w !! this) as [[]|]; split; congruence.
Qed.

Lemma expandAccordion_accepted this w a c cw :
  getAccordion w this = Some a ->
  state a ≠ Expanded ->
  contentEl a = Some c ->
  contentElWrapper a = Some cw ->
  let w' := expandAccordion this false w in
  getAccordion w' this
    = Some (set_currentRaf (Some (nextHandle w)) (set_state Expanding a))
  ∧ frames w' = cancelled a (frames w) ++ [(nextHandle w, (this, Expand))]
  ∧ waiters w' = waiters w
  ∧ nextHandle w' = S (nextHandle w)
  ∧ now w' = now w
  ∧ log w' = log w ++ ESetState this Expanding :: cancelLog a
                   ++ [ERaf (nextHandle w) this Expand].
Proof.
  intros Ha Hs Hc Hcw w'. subst w'. unfold expandAccordion.
  rewrite Ha, decide_False, Hc, Hcw by done.
  apply getAccordion_lookup in Ha.
  unfold cancelled, cancelLog, getAccordion.
  destruct (currentRaf a) as [h|]; simpl;
    rewrite !list_lookup_alter_eq, Ha; simpl;
    repeat split; by rewrite <- ?app_assoc.
Qed.

Lemma collapseAccordion_accepted this w a c :
  getAccordion w this = Some a ->
  state a ≠ Collapsed ->
  contentEl a = Some c ->
  let w' := collapseAccordion this false w in
  getAccordion w' this = Some (set_currentRaf (Some (nextHandle w)) a)
  ∧ frames w' = cancelled a (frames w) ++ [(nextHandle w, (this, Collapse))]
  ∧ waiters w' = waiters w
  ∧ nextHandle w' = S (nextHandle w)
  ∧ now w' = now w
  ∧ log w' = log w ++ cancelLog a ++ [ERaf (nextHandle w) this Collapse].
Proof.
  intros Ha Hs Hc w'. subst w'. unfold collapseAccordion.
  rewrite Ha, decide_False, Hc by done.
  apply getAccordion_lookup in Ha.
  unfold cancelled, cancelLog, getAccordion.
  destruct (currentRaf a) as [h|]; simpl;
    rewrite !list_lookup_alter_eq, Ha; simpl;
    repeat split; by rewrite <- ?app_assoc.
Qed.

Lemma expandFrame_runs this w a c cw :
  getAccordion w this = Some a ->
  contentEl a = Some c ->
  contentElWrapper a = Some cw ->
  let w' := expandFrame this w in
  getAccordion w' this = Some (set_maxHeight (Some (offsetHeight cw)) a)
  ∧ frames w' = frames w
  ∧ waiters w' = waiters w ++ [mkWaiter this (now w + 50000)%N Expand]
  ∧ nextHandle w' = nextHandle w
  ∧ now w' = now w
  ∧ log w' = log w ++ [EMeasureWrapper this (offsetHeight cw);
                       ETransitionEndAsync this 50000;
                       ESetMaxHeight this (offsetHeight cw);
                       EForceRepaint this].
Proof.
  intros Ha Hc Hcw w'. subst w'. unfold expandFrame.
  rewrite Ha, Hc, Hcw. apply getAccordion_lookup in Ha.
  unfold getAccordion. simpl. rewrite list_lookup_alter_eq, Ha. simpl.
  repeat split. by rewrite <- !app_assoc.
Qed.

Lemma collapseFrame_runs this w a c :
  getAccordion w this = Some a ->
  contentEl a = Some c ->
  let w' := collapseFrame this w in
  getAccordion w' this
    = Some (set_state Collapsing (set_maxHeight (Some (offsetHeight c)) a))
  ∧ frames w' = frames w
  ∧ waiters w' = waiters w ++ [mkWaiter this (now w + 50000)%N Collapse]
  ∧ nextHandle w' = nextHandle w
  ∧ now w' = now w
  ∧ log w' = log w ++ [EMeasureContent this (offsetHeight c);
                       ESetMaxHeight this (offsetHeight c);
                       EForceRepaint this;
                       ETransitionEndAsync this 50000;
                       ESetState this Collapsing].
Proof.
  intros Ha Hc w'. subst w'. unfold collapseFrame.
  rewrite Ha, Hc. apply getAccordion_lookup in Ha.
  unfold getAccordion. simpl. rewrite !list_lookup_alter_eq, Ha. simpl.
  repeat split. by rewrite <- !app_assoc.
Qed.

Lemma resume_runs x w a :
  getAccordion w (wTarget x) = Some a ->
  let w' := resume x w in
  getAccordion w' (wTarget x)
    = Some (set_maxHeight None (set_state (terminal (wDirection x)) a))
  ∧ frames w' = frames w
  ∧ waiters w' = waiters w
  ∧ nextHandle w' = nextHandle w
  ∧ now w' = now w
  ∧ log w' = log w ++ [ESetState (wTarget x) (terminal (wDirection x));
                       ERemoveMaxHeight (wTarget x)].
Proof.
  intros Ha w'. subst w'. unfold resume.
  apply getAccordion_lookup in Ha.
  unfold getAccordion. simpl. rewrite !list_lookup_alter_eq, Ha. simpl.
  repeat split. by rewrite <- !app_assoc.
Qed.

Lemma cancelled_nil a : cancelled a [] = [].
Proof. unfold cancelled. by destruct (currentRaf a). Qed.

Lemma resolveWaiters_all fires w :
  Forall (λ x, fires x = true) (waiters w) ->
  resolveWaiters fires w
  = foldl (λ w x, resume x w) (set_waiters [] w) (waiters w).
Proof.
  intros H. unfold resolveWaiters.
  assert (filter (λ x, fires x = true) (waiters w) = waiters w) as ->.
  { induction H as [|x l Hx _ IH]; [done|]. by rewrite filter_cons_True, IH. }
  assert (filter (λ x, fires x = false) (waiters w) = []) as ->; [|done].
  induction H as [|x l Hx _ IH]; [done|].
  rewrite filter_cons_False; [done|congruence].
Qed.

Lemma maxHeightOf_resumed w this a c s :
  getAccordion w this = Some (set_maxHeight None (set_state s a)) ->
  contentEl a = Some c ->
  maxHeightOf w this = Some None.
Proof.
  intros Hw Hc. unfold maxHeightOf. rewrite Hw. simpl. by rewrite Hc.
Qed.

(** The end of one transition whose promise is the only one pending:
    the completion signal and the timeout have the same outcome. *)
Lemma completion_of_single_waiter this d w a c w3 :
  getAccordion w this = Some a ->
  contentEl a = Some c ->
  waiters w = [mkWaiter this (now w + 50000)%N d] ->
  w3 = transitionEnd this w ∨ w3 = elapse 50000 w ->
  log w3 = log w ++ [ESetState this (terminal d); ERemoveMaxHeight this]
  ∧ stateOf w3 this = Some (terminal d)
  ∧ maxHeightOf w3 this = Some None
  ∧ waiters w3 = [] ∧ frames w3 = frames w.
Proof.
  intros Ha Hc Hw Hw3.
  assert (∃ t, w3 = resume (mkWaiter this (now w + 50000)%N d)
                      (set_waiters [] (set_now t w))) as [t ->].
  { destruct Hw3 as [->| ->].
    - exists (now w). unfold transitionEnd. rewrite resolveWaiters_all.
      + rewrite Hw. by destruct w.
      + rewrite Hw. repeat constructor. by apply bool_decide_eq_true.
    - exists (now w + 50000)%N. unfold elapse. rewrite resolveWaiters_all.
      + simpl. by rewrite Hw.
      + simpl. rewrite Hw. repeat constructor. simpl.
        by apply bool_decide_eq_true. }
  destruct (resume_runs (mkWaiter this (now w + 50000)%N d)
              (set_waiters [] (set_now t w)) a Ha)
    as (Hget & Hfr & Hws & _ & _ & Hlog).
  simpl in *. repeat split; try done.
  - unfold stateOf. by rewrite Hget.
  - by apply (maxHeightOf_resumed _ _ a c (terminal d)).
Qed.

(** ** Items without an identifier *)

Lemma updateState_undefined this initialUpdate w a :
  getAccordion w this = Some a -> value a = None ->
  updateState this initialUpdate w = w.
Proof. intros Ha Hv. unfold updateState. by rewrite Ha, Hv. Qed.

Lemma local_keeps_idle {X} (π : Accordion -> X) j this w w' :
  local π j w w' -> j ≠ this -> idle w this ->
  idle w' this ∧ nodes w' !! this = nodes w !! this.
Proof.
  intros Hl Hne [Hf Hw]. split; [split|].
  - intros (p & -> & Hp)%list_elem_of_fmap.
    destruct (local_frames _ _ _ _ Hl p Hp) as [Hin|Heq]; [|done].
    apply Hf, list_elem_of_fmap. by exists p.
  - intros (x & -> & Hx)%list_elem_of_fmap.
    destruct (local_waiters _ _ _ _ Hl x Hx) as [Hin|Heq]; [|done].
    apply Hw, list_elem_of_fmap. by exists x.
  - by apply (local_other _ _ _ _ Hl).
Qed.

Lemma foldl_keeps_idle {X B} (π : Accordion -> X) (f : World -> B -> World)
    (tgt : B -> nat) this l w :
  (∀ w b, local π (tgt b) w (f w b)) ->
  (∀ b, b ∈ l -> tgt b ≠ this) ->
  idle w this ->
  idle (foldl f w l) this ∧ nodes (foldl f w l) !! this = nodes w !! this.
Proof.
  intros Hf. revert w. induction l as [|b l IH]; intros w Hl Hi; [done|].
  simpl.
  destruct (local_keeps_idle π (tgt b) this w (f w b)) as [Hi' Hn'];
    [done|apply Hl; left|done|].
  destruct (IH (f w b)) as [Hi'' Hn'']; [intros; apply Hl; by right|done|].
  split; [done|congruence].
Qed.

Lemma inert_ext this s w w' :
  nodes w' = nodes w -> frames w' = frames w -> waiters w' = waiters w ->
  inert this s w -> inert this s w'.
Proof.
  intros Hn Hf Hw [(a & Ha & Hv & Hs) [Hi1 Hi2]]. split.
  - exists a. by rewrite (getAccordion_nodes w).
  - unfold idle, frameTargets, waiterTargets. by rewrite Hf, Hw.
Qed.

Lemma inert_same_node this s w w' :
  nodes w' !! this = nodes w !! this -> idle w' this ->
  inert this s w -> inert this s w'.
Proof.
  intros Hn Hi [(a & Ha & Hv & Hs) _]. split; [|done].
  exists a. unfold getAccordion in *. by rewrite Hn.
Qed.

Lemma inert_updateState this s j initialUpdate w :
  inert this s w -> inert this s (updateState j initialUpdate w).
Proof.
  intros Hin. destruct (decide (j = this)) as [->|Hne].
  - destruct Hin as [(a & Ha & Hv & Hs) Hi].
    rewrite (updateState_undefined this initialUpdate w a) by done.
    split; [by exists a|done].
  - destruct (local_keeps_idle static j this w _
                (updateState_local j initialUpdate w) Hne) as [Hi Hn];
      [apply Hin|].
    by apply (inert_same_node this s w).
Qed.

Lemma inert_resolveWaiters this s fires w :
  inert this s w -> inert this s (resolveWaiters fires w).
Proof.
  intros Hin. unfold resolveWaiters.
  set (w1 := set_waiters (filter (λ x, fires x = false) (waiters w)) w).
  assert (idle w1 this) as Hi1.
  { destruct Hin as [_ [Hf Hw]]. split; [done|].
    intros (x & -> & Hx)%list_elem_of_fmap.
    apply list_elem_of_filter in Hx as [_ Hx].
    apply Hw, list_elem_of_fmap. by exists x. }
  destruct (foldl_keeps_idle keptByFrames (λ w x, resume x w) wTarget this
              (filter (λ x, fires x = true) (waiters w)) w1) as [Hi Hn];
    [intros; apply resume_local| |done|].
  { intros x [_ Hx]%list_elem_of_filter Heq.
    destruct Hin as [_ [_ Hw]]. apply Hw, list_elem_of_fmap. by exists x. }
  by apply (inert_same_node this s w).
Qed.

Lemma inert_step this s e w :
  keepsUndefined this e -> inert this s w -> inert this s (step e w).
Proof.
  intros He Hin. destruct e as [j|j|g v| |j|ms|j v|j]; simpl.
  - (* Connected *)
    unfold connectedCallback.
    set (g' := if decide (j ∈ children w) then closest w else None).
    set (w1 := updAccordion j (set_accordionGroupEl g') w).
    assert (inert this s w1) as Hin1.
    { destruct Hin as [(a & Ha & Hv & Hs) Hi]. split; [|done].
      subst w1. rewrite getAccordion_updAccordion. case_decide.
      - subst j. rewrite Ha. by exists (set_accordionGroupEl g' a).
      - by exists a. }
    destruct g' as [g|]; [|done].
    by apply (inert_ext this s (updateState j true w1)),
      inert_updateState.
  - (* Click *)
    unfold toggleExpanded. destruct (getAccordion w j) as [a|]; [|done].
    destruct (accordionGroupEl a); [|done]. by apply (inert_ext this s w).
  - (* IonChange *)
    unfold ionChange.
    set (w1 := set_groups _ w).
    assert (inert this s w1) as Hin1 by by apply (inert_ext this s w).
    destruct (groups w1 !! g) as [gr|]; [|done].
    generalize dependent w1. clear.
    induction (listeners gr) as [|l ls IH]; intros w1 Hin1; [done|].
    simpl. by apply IH, inert_updateState.
  - (* AnimationFrame *)
    unfold animationFrame.
    assert (idle (set_frames [] w) this) as Hi0.
    { split; [apply not_elem_of_nil|apply Hin]. }
    destruct (foldl_keeps_idle keptByFrames (λ w p, runFrame p.2 w)
                (λ p, p.2.1) this (frames w) (set_frames [] w)) as [Hi Hn];
      [intros; apply runFrame_local| |done|].
    { intros p Hp Heq. destruct Hin as [_ [Hf _]].
      apply Hf, list_elem_of_fmap. by exists p. }
    by apply (inert_same_node this s w).
  - (* TransitionEnd *)
    by apply inert_resolveWaiters.
  - (* Elapse *)
    unfold elapse. by apply inert_resolveWaiters, (inert_ext this s w).
  - (* SetValue *)
    destruct Hin as [(a & Ha & Hv & Hs) Hi]. split; [|done].
    rewrite getAccordion_updAccordion. case_decide.
    + subst j. rewrite Ha. exists (set_value v a).
      destruct v as [v|]; [by destruct (He v)|done].
    + by exists a.
  - (* RemoveChild *)
    unfold removeChild, disconnectedCallback.
    destruct (getAccordion _ j ≫= accordionGroupEl);
      by apply (inert_ext this s w).
Qed.

Lemma inert_run this s es w :
  Forall (keepsUndefined this) es -> inert this s w -> inert this s (run es w).
Proof.
  intros H. revert w. induction H as [|e es He _ IH]; intros w Hin; [done|].
  unfold run in *. simpl. by apply IH, inert_step.
Qed.

(** C9: an item whose identifier is undefined takes no part.
    [updateState] returns at once and leaves the world as it is,
    whatever the selection of the group and whether or not the update
    is the initial one; a change notification of any group with any
    selection leaves the item as it is; a toggle request only reaches
    the group; and as long as the item is given no identifier, no
    sequence of attachments, clicks, change notifications, frames,
    transition ends, timeouts or document changes alters its lifecycle
    state or its adjacency flags, or schedules anything for it. *)
Theorem undefined_identifier_is_inert this w a :
  getAccordion w this = Some a ->
  value a = None ->
  (∀ initialUpdate, updateState this initialUpdate w = w)
  ∧ (∀ g v, getAccordion (ionChange g v w) this = Some a)
  ∧ (nodes (toggleExpanded this w) = nodes w
     ∧ frames (toggleExpanded this w) = frames w
     ∧ waiters (toggleExpanded this w) = waiters w)
  ∧ (idle w this ->
     ∀ es, Forall (keepsUndefined this) es ->
       idle (run es w) this
       ∧ ∃ a', getAccordion (run es w) this = Some a'
               ∧ value a' = None
               ∧ state a' = state a
               ∧ isNext a' = isNext a
               ∧ isPrevious a' = isPrevious a).
Proof.
  intros Ha Hv. split; [|split; [|split]].
  - intros initialUpdate. by apply (updateState_undefined _ _ _ a).
  - intros g v. unfold ionChange. set (w1 := set_groups _ w).
    assert (getAccordion w1 this = Some a) as Ha1 by done.
    destruct (groups w1 !! g) as [gr|]; [|done].
    generalize dependent w1. clear -Hv.
    induction (listeners gr) as [|l ls IH]; intros w1 Ha1; [done|].
    simpl. apply IH. destruct (decide (l = this)) as [->|Hne].
    + by rewrite (updateState_undefined _ _ _ a).
    + by rewrite (local_other_getAccordion _ _ _ _ _
                    (updateState_local l false w1)).
  - unfold toggleExpanded. rewrite Ha. by destruct (accordionGroupEl a).
  - intros Hi es Hes.
    destruct (inert_run this
                (state a, isNext a, isPrevious a, currentRaf a, contentEl a)
                es w Hes) as [(a' & Ha' & Hv' & Hs) Hi'].
    { split; [by exists a|done]. }
    split; [done|]. exists a'. by simplify_eq.
Qed.

Lemma undefined_identifier_is_inert_witness :
  let es := [Click 1; IonChange 0 (VString "c"); AnimationFrame;
             TransitionEnd 1; Elapse 50000; RemoveChild 0] in
  updateState 1 false anonymous_middle = anonymous_middle
  ∧ ∃ a', getAccordion (run es anonymous_middle) 1 = Some a'
          ∧ value a' = None ∧ state a' = Collapsed
          ∧ isNext a' = false ∧ isPrevious a' = false.
Proof.
  intros es.
  destruct (undefined_identifier_is_inert 1 anonymous_middle
              (mkAccordion (Some 0) (Some (mkDiv 20 None)) (Some (mkDiv 20 None))
                 None Collapsed false false None) eq_refl eq_refl)
    as (Hupd & _ & _ & Hrun).
  split; [apply Hupd|].
  apply Hrun.
  - split; apply not_elem_of_nil.
  - subst es. repeat constructor; intros v; discriminate.
Defined.

(** ** Applying an unchanged selection again *)

Lemma updAccordion_compose i f g w :
  updAccordion i f (updAccordion i g w) = updAccordion i (f ∘ g) w.
Proof.
  unfold updAccordion, set_nodes; simpl. f_equal.
  apply list_eq. intros j. destruct (decide (i = j)) as [->|Hne].
  - rewrite !list_lookup_alter_eq. by destruct (nodes w !! j) as [[]|].
  - by rewrite !list_lookup_alter_ne.
Qed.

Lemma updAccordion_ext i f g w :
  (∀ a, f a = g a) -> updAccordion i f w = updAccordion i g w.
Proof.
  intros H. unfold updAccordion. f_equal.
  apply list_alter_ext; [|done]. intros [a|] _; simpl; by rewrite ?H.
Qed.

Lemma updAccordion_id i w : updAccordion i id w = w.
Proof.
  unfold updAccordion, set_nodes. destruct w; simpl. f_equal.
  apply list_alter_id. by intros [].
Qed.

Lemma expandAccordion_noop this w a :
  getAccordion w this = Some a -> state a = Expanded ->
  expandAccordion this false w = w.
Proof. intros Ha Hs. unfold expandAccordion. by rewrite Ha, decide_True. Qed.

Lemma collapseAccordion_noop this w a :
  getAccordion w this = Some a -> state a = Collapsed ->
  collapseAccordion this false w = w.
Proof. intros Ha Hs. unfold collapseAccordion. by rewrite Ha, decide_True. Qed.

Lemma updateState_settled this w a v g gr :
  getAccordion w this = Some a ->
  value a = Some v ->
  accordionGroupEl a = Some g ->
  groups w !! g = Some gr ->
  state a = (if isSelected (groupValue gr) v then Expanded else Collapsed) ->
  updateState this false w
  = updAccordion this
      (if isSelected (groupValue gr) v
       then λ a, set_isNext false (set_isPrevious false a)
       else adjust w this (groupValue gr)) w.
Proof.
  intros Ha Hv Hg Hgr Hs. unfold updateState.
  rewrite Ha, Hv, Hg. simpl. rewrite Hgr.
  destruct (isSelected (groupValue gr) v).
  - by rewrite (expandAccordion_noop this w a).
  - rewrite (collapseAccordion_noop this w a) by done.
    unfold adjust.
    change (getNextSibling w this ≫= nodeValue) with (nextAccordionValue w this).
    destruct (nextAccordionValue w this) as [nv|].
    + set (w1 := updAccordion this _ w).
      assert (local static this w w1) as Hl by (subst w1; local_steps).
      destruct (local_sibling_values _ _ _ this Hl) as [_ Hp].
      unfold previousAccordionValue in Hp. rewrite Hp.
      fold (previousAccordionValue w this).
      destruct (previousAccordionValue w this) as [pv|]; subst w1.
      * by rewrite updAccordion_compose.
      * done.
    + change (getPreviousSibling w this ≫= nodeValue)
        with (previousAccordionValue w this).
      destruct (previousAccordionValue w this) as [pv|]; [done|].
      symmetry. apply updAccordion_id.
Qed.

(** C7 (as the code has it): once the item is in the terminal state
    matching the selection (Expanded if selected, Collapsed if not),
    applying the unchanged selection again schedules nothing: no frame
    is requested or cancelled, no wait begins, nothing is logged, the
    state stays, and a further application changes nothing at all. *)
Theorem updateState_idempotent_when_settled this w a v g gr :
  getAccordion w this = Some a ->
  value a = Some v ->
  accordionGroupEl a = Some g ->
  groups w !! g = Some gr ->
  state a = (if isSelected (groupValue gr) v then Expanded else Collapsed) ->
  let w1 := updateState this false w in
  frames w1 = frames w ∧ waiters w1 = waiters w
  ∧ nextHandle w1 = nextHandle w ∧ log w1 = log w
  ∧ stateOf w1 this = Some (state a)
  ∧ updateState this false w1 = w1.
Proof.
  intros Ha Hv Hg Hgr Hs w1.
  pose proof (updateState_settled this w a v g gr Ha Hv Hg Hgr Hs) as Hw1.
  fold w1 in Hw1.
  set (F := if isSelected (groupValue gr) v
            then λ a, set_isNext false (set_isPrevious false a)
            else adjust w this (groupValue gr)) in Hw1.
  assert (∀ x, state (F x) = state x ∧ value (F x) = value x
               ∧ accordionGroupEl (F x) = accordionGroupEl x
               ∧ F (F x) = F x) as HF.
  { intros x. subst F. unfold adjust.
    destruct (isSelected (groupValue gr) v); [by destruct x|].
    destruct (nextAccordionValue w this), (previousAccordionValue w this);
      by destruct x. }
  rewrite Hw1. repeat split; try done.
  - rewrite stateOf_updAccordion by apply HF. unfold stateOf. by rewrite Ha.
  - assert (getAccordion (updAccordion this F w) this = Some (F a)) as Ha1
      by by rewrite getAccordion_updAccordion_eq, Ha.
    destruct (HF a) as (HFs & HFv & HFg & _).
    rewrite (updateState_settled this _ (F a) v g gr Ha1); try congruence; [|done].
    assert (local static this w (updAccordion this F w)) as Hl.
    { apply local_updAccordion. intros x. destruct (HF x) as (_ & ? & ? & _).
      subst F. unfold adjust.
      destruct (isSelected (groupValue gr) v); [by destruct x|].
      destruct (nextAccordionValue w this), (previousAccordionValue w this);
        by destruct x. }
    destruct (local_sibling_values _ _ _ this Hl) as [Hn Hp].
    rewrite updAccordion_compose. apply updAccordion_ext. intros x. simpl.
    unfold adjust. rewrite Hn, Hp. fold (adjust w this (groupValue gr)).
    change (if isSelected (groupValue gr) v
            then λ a, set_isNext false (set_isPrevious false a)
            else adjust w this (groupValue gr)) with F.
    apply HF.
Qed.

Lemma updateState_idempotent_when_settled_witness :
  let w1 := updateState 1 false three_panels in
  frames w1 = frames three_panels ∧ log w1 = log three_panels
  ∧ updateState 1 false w1 = w1.
Proof.
  destruct (updateState_idempotent_when_settled 1 three_panels
              (mkAccordion (Some 0) (Some (mkDiv 60 None)) (Some (mkDiv 60 None))
                 None Expanded false false (Some "panel-2"))
              "panel-2" 0 (mkGroup (VString "panel-2") [0; 1; 2])
              eq_refl eq_refl eq_refl eq_refl eq_refl)
    as (Hf & _ & _ & Hl & _ & Hidem).
  by repeat split.
Defined.

(** C7 as stated fails: with the selection unchanged since the first
    application, but the item still Expanding (its frame has run, its
    transition has not ended), a second application cancels the stale
    handle and requests a new frame. *)
Lemma reapplication_mid_transition_schedules_again :
  ¬ reapplication_is_noop mid_transition 0.
Proof. intros (H & _). vm_compute in H. discriminate H. Qed.

(** ** Reversing a transition under way *)

(** C2, evaluated on the three panels with panel-2 open.  The selection
    moves to panel-1, so a collapse of panel-2 is requested: its frame
    (handle 2) is pending and its state is still Expanded, because
    [collapseAccordion] assigns Collapsing only inside the frame.  The
    selection moves back to panel-2 before the frame runs:
    [expandAccordion] returns at its guard on Expanded, the pending
    frame is not cancelled, and after all scheduled work has settled
    panel-2 is Collapsed while selected.  When instead the frame has
    run before the selection moves back (panel-2 is Collapsing), no
    frame is pending any more, the cancellation is of a handle that has
    already fired, and the completion of the superseded collapse and
    the completion of the expand both take effect, in this order. *)
Theorem expand_during_collapse_in_flight :
  let w1 := step (IonChange 0 (VString "panel-1")) three_panels in
  let w2 := step (IonChange 0 (VString "panel-2")) w1 in
  let w3 := run [AnimationFrame; Elapse 50000] w2 in
  let v1 := mid_transition in
  let v2 := step (IonChange 0 (VString "panel-2")) v1 in
  let v3 := run [AnimationFrame; Elapse 50000] v2 in
  (stateOf w1 1 = Some Expanded
   ∧ frames w1 = [(1, (0, Expand)); (2, (1, Collapse))]
   ∧ expandAccordion 1 false w1 = w1
   ∧ frames w2 = [(2, (1, Collapse)); (3, (0, Collapse))]
   ∧ log w2 = log w1 ++ [ECancelAnimationFrame 1; ERaf 3 0 Collapse]
   ∧ groupValue <$> groups w3 !! 0 = Some (VString "panel-2")
   ∧ frames w3 = [] ∧ waiters w3 = []
   ∧ stateOf w3 1 = Some Collapsed)
  ∧ (stateOf v1 1 = Some Collapsing
     ∧ frames v1 = []
     ∧ log v2 = log v1 ++ [ECancelAnimationFrame 1; ERaf 3 0 Collapse;
                           ESetState 1 Expanding;
                           ECancelAnimationFrame 2; ERaf 4 1 Expand]
     ∧ filter (λ e, e = ESetState 1 Collapsed ∨ e = ESetState 1 Expanded)
         (drop (length (log v2)) (log v3))
       = [ESetState 1 Collapsed; ESetState 1 Expanded]
     ∧ stateOf v3 1 = Some Expanded).
Proof.
  intros w1 w2 w3 v1 v2 v3.
  repeat match goal with |- _ ∧ _ => split end; vm_compute; reflexivity.
Qed.

(** ** The invariant of the scheduler *)

Lemma initial_Inv w : initial w -> Inv w.
Proof.
  intros (Hf & Hw & Hn).
  assert (∀ i a, getAccordion w i = Some a ->
            currentRaf a = None ∧ state a = Collapsed
            ∧ contentEl a ≫= maxHeight = None) as Hfresh.
  { intros i a Ha%getAccordion_lookup.
    rewrite Forall_lookup in Hn. specialize (Hn i _ Ha). simpl in Hn.
    repeat (apply andb_prop in Hn as [Hn ?]).
    repeat match goal with
           | H : Is_true (bool_decide _) |- _ => apply bool_decide_unpack in H
           | H : bool_decide _ = true |- _ => apply bool_decide_eq_true in H
           end.
    done. }
  constructor; unfold frameTargets, waiterTargets; rewrite ?Hf, ?Hw.
  - constructor.
  - intros h i d Hin. by apply elem_of_nil in Hin.
  - intros i a h Ha Hr. destruct (Hfresh i a Ha) as (Hr' & _). congruence.
  - intros i j a b h Ha _ Hr. destruct (Hfresh i a Ha) as (Hr' & _). congruence.
  - intros x Hin. by apply elem_of_nil in Hin.
  - intros x Hin. by apply elem_of_nil in Hin.
  - intros i a Ha [Hb|[Hb|Hb]]; destruct (Hfresh i a Ha) as (_ & Hs & Hm);
      congruence.
Qed.

(** The invariant only reads the handle, the [div]s and whether the
    component is busy. *)
Lemma Inv_nodes w w' :
  frames w' = frames w -> waiters w' = waiters w ->
  nextHandle w' = nextHandle w -> now w' = now w ->
  (∀ i a', getAccordion w' i = Some a' ->
     ∃ a, getAccordion w i = Some a ∧ currentRaf a' = currentRaf a
          ∧ contentEl a' = contentEl a
          ∧ contentElWrapper a' = contentElWrapper a
          ∧ (busy a' -> busy a)) ->
  (∀ i, is_Some (getAccordion w i) -> is_Some (getAccordion w' i)) ->
  Inv w -> Inv w'.
Proof.
  intros Hf Hw Hh Hn Hback Hfwd [I1 I2 I3 I4 I5 I6 I7].
  constructor; unfold frameTargets, waiterTargets in *;
    rewrite ?Hf, ?Hw, ?Hh, ?Hn; try done.
  - intros h i d Hin. destruct (I2 h i d Hin) as (a & Ha & Hr & Hc & Hcw).
    destruct (Hfwd i) as [a' Ha']; [by eexists|].
    destruct (Hback i a' Ha') as (a0 & Ha0 & E1 & E2 & E3 & _).
    simplify_eq. exists a'. rewrite E1, E2, E3. done.
  - intros i a' h Ha' Hr. destruct (Hback i a' Ha') as (a & Ha & E1 & _).
    apply (I3 i a h Ha). congruence.
  - intros i j a' b' h Ha' Hb' Hra Hrb.
    destruct (Hback i a' Ha') as (a & Ha & E1 & _).
    destruct (Hback j b' Hb') as (b & Hb & E2 & _).
    apply (I4 i j a b h); congruence.
  - intros x Hx. by apply Hfwd, I6.
  - intros i a' Ha' Hbusy. destruct (Hback i a' Ha') as (a & Ha & _ & _ & _ & Hb).
    apply (I7 i a Ha). by apply Hb.
Qed.

Lemma Inv_updAccordion this f w :
  (∀ a, currentRaf (f a) = currentRaf a ∧ contentEl (f a) = contentEl a
        ∧ contentElWrapper (f a) = contentElWrapper a
        ∧ (busy (f a) -> busy a)) ->
  Inv w -> Inv (updAccordion this f w).
Proof.
  intros Hf. apply Inv_nodes; try done.
  - intros i a'. rewrite getAccordion_updAccordion. case_decide.
    + destruct (getAccordion w i) as [a|]; [|done]. simpl. intros [= <-].
      exists a. destruct (Hf a) as (? & ? & ? & ?). done.
    + intros Ha. exists a'. done.
  - intros i [a Ha]. rewrite getAccordion_updAccordion. case_decide.
    + rewrite Ha. by eexists.
    + by eexists.
Qed.

Lemma Inv_same w w' :
  nodes w' = nodes w -> frames w' = frames w -> waiters w' = waiters w ->
  nextHandle w' = nextHandle w -> now w' = now w -> Inv w -> Inv w'.
Proof.
  intros Hn ? ? ? ?. apply Inv_nodes; try done.
  - intros i a' Ha'. exists a'. by rewrite <- (getAccordion_nodes w w').
  - intros i. by rewrite (getAccordion_nodes w w').
Qed.

Lemma Inv_setState_terminal this d w :
  Inv w -> Inv (setState this (terminal d) w).
Proof.
  intros Hi. unfold setState.
  apply (Inv_same (updAccordion this (set_state (terminal d)) w)); try done.
  apply Inv_updAccordion; [|done].
  intros a. repeat split; try done.
  unfold busy. simpl. intros [?|[?|?]]; [by destruct d..|auto].
Qed.

Lemma cancelled_sound w this a p :
  Inv w -> getAccordion w this = Some a ->
  p ∈ cancelled a (frames w) -> p ∈ frames w ∧ p.2.1 ≠ this.
Proof.
  intros Hi Ha Hp.
  assert (p ∈ frames w) as Hin.
  { unfold cancelled in Hp. destruct (currentRaf a); [|done].
    by apply list_elem_of_filter in Hp as [_ ?]. }
  split; [done|]. intros Heq. destruct p as [h [i d]]. simpl in Heq. subst i.
  destruct (inv_frame w Hi h this d Hin) as (a0 & Ha0 & Hr & _).
  simplify_eq. unfold cancelled in Hp. rewrite Hr in Hp.
  apply list_elem_of_filter in Hp as [Hne _]. by apply Hne.
Qed.

Lemma cancelled_complete w this a p :
  Inv w -> getAccordion w this = Some a ->
  p ∈ frames w -> p.2.1 ≠ this -> p ∈ cancelled a (frames w).
Proof.
  intros Hi Ha Hin Hne. unfold cancelled.
  destruct (currentRaf a) as [h0|] eqn:Hr; [|done].
  apply list_elem_of_filter. split; [|done].
  destruct p as [h [i d]]. simpl in *. intros ->.
  destruct (inv_frame w Hi h0 i d Hin) as (b & Hb & Hrb & _).
  apply Hne. by apply (inv_inj w Hi i this b a h0).
Qed.

Lemma cancelled_sublist a fr : cancelled a fr `sublist_of` fr.
Proof. unfold cancelled. destruct (currentRaf a); [apply sublist_filter|done]. Qed.

(** Cancelling the stored handle and requesting a frame for [this]. *)
Lemma Inv_schedule this d w w' a a1 :
  Inv w ->
  getAccordion w this = Some a ->
  is_Some (contentEl a) ->
  (d = Expand -> is_Some (contentElWrapper a)) ->
  getAccordion w' this = Some a1 ->
  currentRaf a1 = Some (nextHandle w) ->
  contentEl a1 = contentEl a ->
  contentElWrapper a1 = contentElWrapper a ->
  frames w' = cancelled a (frames w) ++ [(nextHandle w, (this, d))] ->
  waiters w' = waiters w ->
  nextHandle w' = S (nextHandle w) ->
  now w' = now w ->
  (∀ i, i ≠ this -> nodes w' !! i = nodes w !! i) ->
  Inv w'.
Proof.
  intros Hi Ha Hc Hcw Ha1 Hr1 Hc1 Hcw1 Hf Hw Hh Hn Hother.
  assert (∀ i, i ≠ this -> getAccordion w' i = getAccordion w i) as Hget.
  { intros i Hne. unfold getAccordion. by rewrite Hother. }
  constructor; unfold frameTargets, waiterTargets; rewrite ?Hf, ?Hw, ?Hh, ?Hn.
  - rewrite fmap_app. apply NoDup_app. split; [|split].
    + apply (sublist_NoDup _ (frameTargets w)); [apply Hi|].
      apply fmap_sublist, cancelled_sublist.
    + intros i (p & -> & Hp)%list_elem_of_fmap Hin.
      apply list_elem_of_singleton in Hin.
      by destruct (cancelled_sound w this a p Hi Ha Hp).
    + apply NoDup_singleton.
  - intros h i d' [Hin|Hin]%elem_of_app.
    + destruct (cancelled_sound w this a _ Hi Ha Hin) as [Hin' Hne].
      simpl in Hne. rewrite (Hget i Hne). by apply (inv_frame w Hi).
    + apply list_elem_of_singleton in Hin. simplify_eq.
      exists a1. rewrite Hc1, Hcw1. done.
  - intros i a' h Ha' Hr. destruct (decide (i = this)) as [->|Hne].
    + simplify_eq. lia.
    + rewrite (Hget i Hne) in Ha'.
      pose proof (inv_fresh w Hi i a' h Ha' Hr). lia.
  - intros i j a' b' h Ha' Hb' Hra Hrb.
    destruct (decide (i = this)) as [->|Hi'], (decide (j = this)) as [->|Hj'];
      try done.
    + rewrite (Hget j Hj') in Hb'. simplify_eq.
      pose proof (inv_fresh w Hi j b' _ Hb' Hrb). lia.
    + rewrite (Hget i Hi') in Ha'. simplify_eq.
      pose proof (inv_fresh w Hi i a' _ Ha' Hra). lia.
    + rewrite (Hget i Hi') in Ha'. rewrite (Hget j Hj') in Hb'.
      by apply (inv_inj w Hi i j a' b' h).
  - apply Hi.
  - intros x Hx. destruct (decide (wTarget x = this)) as [->|Hne].
    + by eexists.
    + rewrite (Hget _ Hne). by apply (inv_waiter w Hi).
  - intros i a' Ha' Hb. destruct (decide (i = this)) as [->|Hne].
    + left. rewrite fmap_app. apply elem_of_app. right. by left.
    + rewrite (Hget i Hne) in Ha'.
      destruct (inv_busy w Hi i a' Ha' Hb) as [Hin|Hin]; [left|by right].
      apply list_elem_of_fmap in Hin as (p & -> & Hp).
      rewrite fmap_app. apply elem_of_app. left.
      apply list_elem_of_fmap. exists p. split; [done|].
      by apply (cancelled_complete w this a).
Qed.

Lemma Inv_expandAccordion this initialUpdate w :
  Inv w -> Inv (expandAccordion this initialUpdate w).
Proof.
  intros Hi.
  destruct (getAccordion w this) as [a|] eqn:Ha;
    [|unfold expandAccordion; by rewrite Ha].
  destruct initialUpdate.
  { unfold expandAccordion. rewrite Ha.
    apply (Inv_setState_terminal this Expand), Hi. }
  destruct (decide (state a = Expanded)) as [Hs|Hs].
  { by rewrite (expandAccordion_noop this w a). }
  destruct (contentEl a) as [c|] eqn:Hc;
    [|unfold expandAccordion; by rewrite Ha, decide_False, Hc].
  destruct (contentElWrapper a) as [cw|] eqn:Hcw;
    [|unfold expandAccordion; by rewrite Ha, decide_False, Hc, Hcw].
  destruct (expandAccordion_accepted this w a c cw Ha Hs Hc Hcw)
    as (Hg & Hf & Hw & Hh & Hn & _).
  apply (Inv_schedule this Expand w _ a _ Hi Ha
           ltac:(by rewrite Hc) ltac:(by rewrite Hcw)
           Hg eq_refl eq_refl eq_refl Hf Hw Hh Hn).
  apply (local_other _ _ _ _ (expandAccordion_local this false w)).
Qed.

Lemma Inv_collapseAccordion this initialUpdate w :
  Inv w -> Inv (collapseAccordion this initialUpdate w).
Proof.
  intros Hi.
  destruct (getAccordion w this) as [a|] eqn:Ha;
    [|unfold collapseAccordion; by rewrite Ha].
  destruct initialUpdate.
  { unfold collapseAccordion. rewrite Ha.
    apply (Inv_setState_terminal this Collapse), Hi. }
  destruct (decide (state a = Collapsed)) as [Hs|Hs].
  { by rewrite (collapseAccordion_noop this w a). }
  destruct (contentEl a) as [c|] eqn:Hc;
    [|unfold collapseAccordion; by rewrite Ha, decide_False, Hc].
  destruct (collapseAccordion_accepted this w a c Ha Hs Hc)
    as (Hg & Hf & Hw & Hh & Hn & _).
  apply (Inv_schedule this Collapse w _ a _ Hi Ha
           ltac:(by rewrite Hc) ltac:(done)
           Hg eq_refl eq_refl eq_refl Hf Hw Hh Hn).
  apply (local_other _ _ _ _ (collapseAccordion_local this false w)).
Qed.

Lemma Inv_updateState this initialUpdate w :
  Inv w -> Inv (updateState this initialUpdate w).
Proof.
  intros Hi. unfold updateState.
  destruct (getAccordion w this) as [a|]; [|done].
  destruct (value a) as [v|]; [|done].
  destruct (accordionGroupEl a ≫= _) as [gr|]; [|done].
  destruct (isSelected _ _).
  - apply Inv_updAccordion; [by intros []|]. by apply Inv_expandAccordion.
  - pose proof (Inv_collapseAccordion this initialUpdate w Hi) as Hi1.
    destruct (getNextSibling _ _ ≫= nodeValue);
      destruct (getPreviousSibling _ _ ≫= nodeValue);
      repeat (apply Inv_updAccordion; [by intros []|]); done.
Qed.

(** ** Running the frames and resolving the promises *)

Lemma view_frames_getAccordion w w' i a' :
  view keptByFrames w' = view keptByFrames w ->
  getAccordion w' i = Some a' ->
  ∃ a, getAccordion w i = Some a ∧ currentRaf a' = currentRaf a
       ∧ (is_Some (contentEl a') ↔ is_Some (contentEl a))
       ∧ contentElWrapper a' = contentElWrapper a.
Proof.
  intros Hv Ha'. apply (view_getAccordion keptByFrames w w' i) in Hv.
  rewrite Ha' in Hv. destruct (getAccordion w i) as [a|]; [|done].
  exists a. unfold keptByFrames, kept, static in Hv. simpl in Hv.
  simplify_eq. split; [done|]. split; [done|]. split; [|done].
  destruct (contentEl a'), (contentEl a); simplify_eq;
    split; intros [? ?]; by try eexists.
Qed.

Lemma ready_view w w' p :
  view keptByFrames w' = view keptByFrames w -> ready w p -> ready w' p.
Proof.
  intros Hv (a & Ha & Hc & Hcw). symmetry in Hv.
  destruct (view_frames_getAccordion w' w _ a Hv Ha) as (a' & Ha' & _ & Ec & Ew).
  exists a'. rewrite <- Ew. split; [done|]. split; [by apply Ec|done].
Qed.

Lemma runFrame_ready p w :
  ready w p ->
  frames (runFrame p.2 w) = frames w
  ∧ waiters (runFrame p.2 w) = waiters w ++ [toWaiter (now w) p]
  ∧ now (runFrame p.2 w) = now w
  ∧ nextHandle (runFrame p.2 w) = nextHandle w.
Proof.
  destruct p as [h [i d]]. intros (a & Ha & [c Hc] & Hcw). simpl in *.
  unfold runFrame, toWaiter. simpl. destruct d.
  - destruct Hcw as [cw Hcw]; [done|].
    destruct (expandFrame_runs i w a c cw Ha Hc Hcw) as (_ & ? & ? & ? & ? & _).
    done.
  - destruct (collapseFrame_runs i w a c Ha Hc) as (_ & ? & ? & ? & ? & _).
    done.
Qed.

Lemma foldl_runFrame_spec fs v0 :
  Forall (ready v0) fs ->
  let v := foldl (λ w p, runFrame p.2 w) v0 fs in
  frames v = frames v0
  ∧ waiters v = waiters v0 ++ (toWaiter (now v0) <$> fs)
  ∧ now v = now v0
  ∧ nextHandle v = nextHandle v0
  ∧ view keptByFrames v = view keptByFrames v0
  ∧ (∀ i, i ∉ (λ p, p.2.1) <$> fs -> nodes v !! i = nodes v0 !! i).
Proof.
  revert v0. induction fs as [|p fs IH]; intros v0 Hr; simpl.
  - rewrite app_nil_r. done.
  - apply Forall_cons in Hr as [Hp Hfs].
    destruct (runFrame_ready p v0 Hp) as (Hf1 & Hw1 & Hn1 & Hh1).
    pose proof (runFrame_local p.2 v0) as Hl.
    destruct (IH (runFrame p.2 v0)) as (Hf & Hw & Hn & Hh & Hv & Ho).
    { eapply Forall_impl; [done|]. intros q. apply ready_view.
      apply (local_view _ _ _ _ Hl). }
    rewrite Hf, Hw, Hn, Hh, Hv, Hf1, Hw1, Hn1, Hh1.
    repeat split; try done.
    + by rewrite <- app_assoc.
    + apply (local_view _ _ _ _ Hl).
    + intros i [Hne Hi]%not_elem_of_cons. rewrite (Ho i Hi).
      apply (local_other _ _ _ _ Hl). done.
Qed.

Lemma animationFrame_spec w :
  Inv w ->
  let v := animationFrame w in
  frames v = []
  ∧ waiters v = waiters w ++ (toWaiter (now w) <$> frames w)
  ∧ now v = now w
  ∧ nextHandle v = nextHandle w
  ∧ view keptByFrames v = view keptByFrames w
  ∧ (∀ i, i ∉ frameTargets w -> nodes v !! i = nodes w !! i).
Proof.
  intros Hi. unfold animationFrame.
  apply (foldl_runFrame_spec (frames w) (set_frames [] w)).
  apply Forall_forall. intros [h [i d]] Hp.
  destruct (inv_frame w Hi h i d Hp) as (a & Ha & _ & Hc & Hcw).
  by exists a.
Qed.

Lemma getAccordion_resume x w i :
  getAccordion (resume x w) i
  = if decide (wTarget x = i)
    then (λ a, set_maxHeight None (set_state (terminal (wDirection x)) a))
           <$> getAccordion w i
    else getAccordion w i.
Proof.
  unfold resume.
  rewrite getAccordion_emit, getAccordion_updAccordion, getAccordion_setState.
  case_decide; [|done]. by destruct (getAccordion w i).
Qed.

Lemma lastDirection_snoc i xs x :
  lastDirection i (xs ++ [x])
  = if decide (wTarget x = i) then Some (wDirection x) else lastDirection i xs.
Proof.
  unfold lastDirection. rewrite filter_app.
  case_decide.
  - rewrite filter_cons_True, filter_nil by done. by rewrite last_snoc.
  - rewrite filter_cons_False, filter_nil by done. by rewrite app_nil_r.
Qed.

Lemma lastDirection_None i xs :
  lastDirection i xs = None ↔ ∀ x, x ∈ xs -> wTarget x ≠ i.
Proof.
  unfold lastDirection. rewrite fmap_None, last_None. split.
  - intros Hnil x Hx Heq. by apply (filter_nil_not_elem_of _ _ x Hnil).
  - intros Hall. apply elem_of_nil_inv. intros x [Hx Hin]%list_elem_of_filter.
    by apply (Hall x).
Qed.

Lemma foldl_resume_spec xs v0 :
  let v := foldl (λ w x, resume x w) v0 xs in
  frames v = frames v0 ∧ waiters v = waiters v0
  ∧ now v = now v0 ∧ nextHandle v = nextHandle v0
  ∧ view keptByFrames v = view keptByFrames v0
  ∧ (∀ i, lastDirection i xs = None -> nodes v !! i = nodes v0 !! i)
  ∧ (∀ i a' d, getAccordion v i = Some a' -> lastDirection i xs = Some d ->
       state a' = terminal d ∧ contentEl a' ≫= maxHeight = None).
Proof.
  induction xs as [|x xs IH] using rev_ind; simpl.
  - do 6 (split; [done|]). intros i a' d _ Hl. by vm_compute in Hl.
  - rewrite foldl_snoc. destruct IH as (Hf & Hw & Hn & Hh & Hv & Ho & Hd).
    set (v := foldl (λ w x, resume x w) v0 xs) in *.
    pose proof (resume_local x v) as Hl.
    do 4 (split; [done|]).
    split; [by rewrite (local_view _ _ _ _ Hl)|]. split.
    + intros i. rewrite lastDirection_snoc. case_decide; [done|].
      intros Hnone. rewrite <- (Ho i Hnone).
      by apply (local_other _ _ _ _ Hl).
    + intros i a' d Ha' Hlast.
      rewrite getAccordion_resume in Ha'. rewrite lastDirection_snoc in Hlast.
      case_decide; [|by apply (Hd i a' d)].
      destruct (getAccordion v i) as [a0|]; [|done].
      simpl in Ha'. injection Ha' as <-. injection Hlast as <-.
      split; [done|]. simpl. by destruct (contentEl a0).
Qed.

Lemma Inv_animationFrame w : Inv w -> Inv (animationFrame w).
Proof.
  intros Hi.
  destruct (animationFrame_spec w Hi) as (Hf & Hw & Hn & Hh & Hv & Ho).
  set (v := animationFrame w) in *.
  constructor; unfold frameTargets, waiterTargets; rewrite ?Hf, ?Hw, ?Hn, ?Hh.
  - constructor.
  - intros h i d Hin. by apply elem_of_nil in Hin.
  - intros i a' h Ha' Hr.
    destruct (view_frames_getAccordion w v i a' Hv Ha') as (a & Ha & E & _).
    apply (inv_fresh w Hi i a h Ha). congruence.
  - intros i j a' b' h Ha' Hb' Hra Hrb.
    destruct (view_frames_getAccordion w v i a' Hv Ha') as (a & Ha & Ea & _).
    destruct (view_frames_getAccordion w v j b' Hv Hb') as (b & Hb & Eb & _).
    apply (inv_inj w Hi i j a b h); congruence.
  - intros x [Hx|Hx]%elem_of_app; [by apply (inv_deadline w Hi)|].
    apply list_elem_of_fmap in Hx as (p & -> & _). done.
  - assert (∀ i, is_Some (getAccordion w i) -> is_Some (getAccordion v i)) as Hex.
    { intros i [a Ha]. symmetry in Hv.
      destruct (view_frames_getAccordion v w i a Hv Ha) as (a' & Ha' & _).
      by eexists. }
    intros x [Hx|Hx]%elem_of_app; apply Hex; [by apply (inv_waiter w Hi)|].
    apply list_elem_of_fmap in Hx as ([h [i d]] & -> & Hp).
    destruct (inv_frame w Hi h i d Hp) as (a & Ha & _). by eexists.
  - intros i a' Ha' Hb. right. rewrite fmap_app. apply elem_of_app.
    destruct (decide (i ∈ frameTargets w)) as [Hin|Hout].
    + right. apply list_elem_of_fmap in Hin as (p & -> & Hp).
      apply list_elem_of_fmap. exists (toWaiter (now w) p). split; [done|].
      apply list_elem_of_fmap. by exists p.
    + left. unfold getAccordion in Ha'. rewrite (Ho i Hout) in Ha'.
      destruct (inv_busy w Hi i a' Ha' Hb); done.
Qed.

Lemma Inv_set_now ms w : Inv w -> Inv (set_now (now w + ms)%N w).
Proof.
  intros [I1 I2 I3 I4 I5 I6 I7]. constructor; try done.
  intros x Hx. simpl. specialize (I5 x Hx). lia.
Qed.

Lemma resolveWaiters_spec fires w :
  let w' := resolveWaiters fires w in
  let fired := filter (λ x, fires x = true) (waiters w) in
  frames w' = frames w
  ∧ waiters w' = filter (λ x, fires x = false) (waiters w)
  ∧ now w' = now w ∧ nextHandle w' = nextHandle w
  ∧ view keptByFrames w' = view keptByFrames w
  ∧ (∀ i, lastDirection i fired = None -> nodes w' !! i = nodes w !! i)
  ∧ (∀ i a' d, getAccordion w' i = Some a' -> lastDirection i fired = Some d ->
       state a' = terminal d ∧ contentEl a' ≫= maxHeight = None).
Proof.
  unfold resolveWaiters.
  apply (foldl_resume_spec (filter (λ x, fires x = true) (waiters w))
           (set_waiters (filter (λ x, fires x = false) (waiters w)) w)).
Qed.

Lemma Inv_resolveWaiters fires w : Inv w -> Inv (resolveWaiters fires w).
Proof.
  intros Hi.
  destruct (resolveWaiters_spec fires w) as (Hf & Hw & Hn & Hh & Hv & Ho & Hd).
  set (w' := resolveWaiters fires w) in *.
  set (fired := filter (λ x, fires x = true) (waiters w)) in *.
  assert (∀ i, is_Some (getAccordion w i) -> is_Some (getAccordion w' i)) as Hex.
  { intros i [a Ha]. symmetry in Hv.
    destruct (view_frames_getAccordion w' w i a Hv Ha) as (a' & Ha' & _).
    by eexists. }
  constructor; unfold frameTargets, waiterTargets; rewrite ?Hf, ?Hw, ?Hn, ?Hh.
  - apply Hi.
  - intros h i d Hin. destruct (inv_frame w Hi h i d Hin) as (a & Ha & Hr & Hc & Hcw).
    destruct (Hex i) as [a' Ha']; [by eexists|].
    destruct (view_frames_getAccordion w w' i a' Hv Ha') as (a0 & Ha0 & E1 & E2 & E3).
    simplify_eq. exists a'. rewrite E1, E3. split; [done|]. split; [done|].
    split; [by apply E2|done].
  - intros i a' h Ha' Hr.
    destruct (view_frames_getAccordion w w' i a' Hv Ha') as (a & Ha & E & _).
    apply (inv_fresh w Hi i a h Ha). congruence.
  - intros i j a' b' h Ha' Hb' Hra Hrb.
    destruct (view_frames_getAccordion w w' i a' Hv Ha') as (a & Ha & Ea & _).
    destruct (view_frames_getAccordion w w' j b' Hv Hb') as (b & Hb & Eb & _).
    apply (inv_inj w Hi i j a b h); congruence.
  - intros x [_ Hx]%list_elem_of_filter. by apply (inv_deadline w Hi).
  - intros x [_ Hx]%list_elem_of_filter. by apply Hex, (inv_waiter w Hi).
  - intros i a' Ha' Hb.
    destruct (lastDirection i fired) as [d|] eqn:Hlast.
    + destruct (Hd i a' d Ha' Hlast) as [Hs Hm].
      destruct Hb as [Hb|[Hb|Hb]]; [destruct d; simpl in Hs; congruence..|done].
    + unfold getAccordion in Ha'. rewrite (Ho i Hlast) in Ha'.
      destruct (inv_busy w Hi i a' Ha' Hb) as [Hin|Hin]; [by left|right].
      apply list_elem_of_fmap in Hin as (x & -> & Hx).
      apply list_elem_of_fmap. exists x. split; [done|].
      apply list_elem_of_filter. split; [|done].
      destruct (fires x) eqn:Hfx; [|done].
      rewrite lastDirection_None in Hlast.
      destruct (Hlast x); [|done]. apply list_elem_of_filter. done.
Qed.

Lemma Inv_step e w : Inv w -> Inv (step e w).
Proof.
  intros Hi. destruct e as [j|j|g v| |j|ms|j v|j]; simpl.
  - unfold connectedCallback.
    set (g' := if decide (j ∈ children w) then closest w else None).
    assert (Inv (updAccordion j (set_accordionGroupEl g') w)) as Hi1
      by (apply Inv_updAccordion; [by intros []|done]).
    destruct g' as [g|]; [|done].
    eapply Inv_same; [..|apply Inv_updateState, Hi1]; done.
  - unfold toggleExpanded. destruct (getAccordion w j) as [a|]; [|done].
    destruct (accordionGroupEl a); [|done]. by apply (Inv_same w).
  - unfold ionChange. set (w1 := set_groups _ w).
    assert (Inv w1) as Hi1 by by apply (Inv_same w).
    destruct (groups w1 !! g) as [gr|]; [|done].
    generalize dependent w1. clear.
    induction (listeners gr) as [|l ls IH]; intros w1 Hi1; [done|].
    simpl. by apply IH, Inv_updateState.
  - by apply Inv_animationFrame.
  - by apply Inv_resolveWaiters.
  - unfold elapse. by apply Inv_resolveWaiters, Inv_set_now.
  - apply Inv_updAccordion; [by intros []|done].
  - unfold removeChild, disconnectedCallback.
    destruct (getAccordion _ j ≫= accordionGroupEl); by apply (Inv_same w).
Qed.

Lemma reachable_Inv w : reachable w -> Inv w.
Proof.
  intros (w0 & es & H0 & ->). apply initial_Inv in H0.
  revert w0 H0. induction es as [|e es IH]; intros w0 H0; [done|].
  unfold run in *. simpl. by apply IH, Inv_step.
Qed.

Lemma lastDirection_pending w this t :
  lastDirection this (waiters w ++ (toWaiter t <$> frames w))
  = pendingDirection w this.
Proof.
  unfold lastDirection, pendingDirection.
  rewrite filter_app, last_app.
  assert (filter (λ x, wTarget x = this) (toWaiter t <$> frames w)
          = toWaiter t <$> filter (λ p, p.2.1 = this) (frames w)) as ->.
  { induction (frames w) as [|p fs IH]; [done|]. rewrite fmap_cons.
    destruct (decide (p.2.1 = this)) as [Hp|Hp].
    - rewrite !filter_cons_True by done. by rewrite fmap_cons, IH.
    - by rewrite !filter_cons_False. }
  rewrite fmap_last.
  by destruct (last (filter (λ p, p.2.1 = this) (frames w))).
Qed.

Lemma lastDirection_Some_elem this ws d :
  lastDirection this ws = Some d -> ∃ x, x ∈ ws ∧ wTarget x = this.
Proof.
  unfold lastDirection. intros (x & Hx & _)%fmap_Some.
  apply last_Some_elem_of, list_elem_of_filter in Hx as [? ?]. by exists x.
Qed.

(** C6: every wait for the end of a transition is bounded by 50000 ms,
    and no reachable world keeps an item in a transient state once the
    pending frames have run and the timeout has elapsed, even if no
    completion signal ever arrives.  After the next animation frame
    every pending frame has begun its wait, with the deadline 50000 ms
    ahead; 50000 ms later nothing is scheduled or awaited any more,
    every item whose latest transition under way was an expand is
    Expanded and every item whose latest transition under way was a
    collapse is Collapsed, and every item is in a terminal state, all
    without an inline height. *)
Theorem transitions_settle_within_timeout w :
  reachable w ->
  let w1 := animationFrame w in
  let w' := elapse 50000 w1 in
  waiters w1 = waiters w ++ (toWaiter (now w) <$> frames w)
  ∧ (∀ x, x ∈ waiters w1 -> (wDeadline x ≤ now w + 50000)%N)
  ∧ frames w' = [] ∧ waiters w' = []
  ∧ (∀ this d, pendingDirection w this = Some d ->
       ∃ a', getAccordion w' this = Some a' ∧ state a' = terminal d
             ∧ contentEl a' ≫= maxHeight = None)
  ∧ (∀ this a', getAccordion w' this = Some a' ->
       (state a' = Expanded ∨ state a' = Collapsed)
       ∧ contentEl a' ≫= maxHeight = None).
Proof.
  intros Hi%reachable_Inv w1 w'.
  destruct (animationFrame_spec w Hi) as (Hf1 & Hw1 & Hn1 & _ & _ & _).
  pose proof (Inv_animationFrame w Hi) as Hi1. fold w1 in Hf1, Hw1, Hn1, Hi1.
  pose proof (Inv_step (Elapse 50000) w1 Hi1) as Hi'.
  simpl in Hi'. fold w' in Hi'.
  assert (∀ x, x ∈ waiters w1 -> (wDeadline x ≤ now w + 50000)%N) as Hdl.
  { intros x Hx. rewrite <- Hn1. by apply (inv_deadline w1 Hi1). }
  set (v := set_now (now w1 + 50000)%N w1).
  assert (w' = foldl (λ w x, resume x w) (set_waiters [] v) (waiters w1)) as Hw'.
  { subst w'. unfold elapse. fold v. rewrite resolveWaiters_all; [done|].
    apply Forall_forall. intros x Hx. apply bool_decide_eq_true. simpl.
    rewrite Hn1. by apply Hdl. }
  destruct (foldl_resume_spec (waiters w1) (set_waiters [] v))
    as (Hf & Hw & _ & _ & Hv & _ & Hd).
  rewrite <- Hw' in Hf, Hw, Hv, Hd. simpl in Hf, Hw.
  split; [done|]. split; [done|]. split; [congruence|]. split; [done|]. split.
  - intros this d Hp.
    rewrite <- (lastDirection_pending w this (now w)), <- Hw1 in Hp.
    destruct (lastDirection_Some_elem this _ d Hp) as (x & Hx & Ht).
    destruct (inv_waiter w1 Hi1 x Hx) as [a1 Ha1]. rewrite Ht in Ha1.
    assert (view keptByFrames w1 = view keptByFrames w') as Hv' by done.
    destruct (view_frames_getAccordion w' w1 this a1 Hv' Ha1) as (a' & Ha' & _).
    exists a'. split; [done|]. by apply (Hd this a' d).
  - intros this a' Ha'.
    assert (¬ busy a') as Hnb.
    { intros Hb. destruct (inv_busy w' Hi' this a' Ha' Hb) as [Hin|Hin].
      - unfold frameTargets in Hin. rewrite Hf, Hf1 in Hin.
        by apply elem_of_nil in Hin.
      - unfold waiterTargets in Hin. rewrite Hw in Hin.
        by apply elem_of_nil in Hin. }
    unfold busy in Hnb. split.
    + destruct (state a'); auto; destruct Hnb; auto.
    + destruct (contentEl a' ≫= maxHeight) eqn:Hm; [|done].
      destruct Hnb. right. right. congruence.
Qed.

Lemma transitions_settle_within_timeout_witness :
  let w' := elapse 50000 (animationFrame mid_transition) in
  frames w' = [] ∧ waiters w' = []
  ∧ ∀ this a', getAccordion w' this = Some a' ->
      (state a' = Expanded ∨ state a' = Collapsed)
      ∧ contentEl a' ≫= maxHeight = None.
Proof.
  assert (reachable mid_transition) as Hr.
  { exists (mount [panel "panel-1" 40; panel "panel-2" 60; panel "panel-3" 80]
              [VString "panel-2"]),
      [Connected 0; Connected 1; Connected 2;
       IonChange 0 (VString "panel-1"); AnimationFrame].
    split; [|vm_compute; reflexivity].
    split; [reflexivity|]. split; [reflexivity|]. by repeat constructor. }
  destruct (transitions_settle_within_timeout mid_transition Hr)
    as (_ & _ & Hf & Hw & _ & Hall).
  split; [exact Hf|]. split; [exact Hw|exact Hall].
Defined.

(** ** What the component leaves alone *)

Lemma expandAccordion_waiters this initialUpdate w :
  waiters (expandAccordion this initialUpdate w) = waiters w.
Proof.
  unfold expandAccordion. destruct (getAccordion w this) as [a|]; [|done].
  destruct initialUpdate; [done|]. case_decide; [done|].
  destruct (contentEl a), (contentElWrapper a); try done.
  by destruct (currentRaf a).
Qed.

Lemma collapseAccordion_waiters this initialUpdate w :
  waiters (collapseAccordion this initialUpdate w) = waiters w.
Proof.
  unfold collapseAccordion. destruct (getAccordion w this) as [a|]; [|done].
  destruct initialUpdate; [done|]. case_decide; [done|].
  destruct (contentEl a); try done. by destruct (currentRaf a).
Qed.

Lemma updateState_waiters this initialUpdate w :
  waiters (updateState this initialUpdate w) = waiters w.
Proof.
  unfold updateState. destruct (getAccordion w this) as [a|]; [|done].
  destruct (value a) as [v|]; [|done].
  destruct (accordionGroupEl a ≫= _) as [gr|]; [|done].
  destruct (isSelected _ _).
  - apply expandAccordion_waiters.
  - destruct (getNextSibling _ _ ≫= nodeValue);
      destruct (getPreviousSibling _ _ ≫= nodeValue);
      apply collapseAccordion_waiters.
Qed.

(** X1: [updateState] of one item never writes outside that item: the
    selection and the listeners of every group, the document order,
    every other element and the promises under way are as before; a
    frame that is pending afterwards was pending before or belongs to
    the item; and the item keeps its identifier and its group. *)
Theorem updateState_touches_only_this this initialUpdate w :
  let w' := updateState this initialUpdate w in
  groups w' = groups w
  ∧ children w' = children w
  ∧ waiters w' = waiters w
  ∧ (∀ i, i ≠ this -> nodes w' !! i = nodes w !! i)
  ∧ (∀ p, p ∈ frames w' -> p ∈ frames w ∨ p.2.1 = this)
  ∧ (∀ a, getAccordion w this = Some a ->
       ∃ a', getAccordion w' this = Some a' ∧ value a' = value a
             ∧ accordionGroupEl a' = accordionGroupEl a).
Proof.
  intros w'. pose proof (updateState_local this initialUpdate w) as Hl.
  fold w' in Hl. destruct Hl as [H1 H2 H3 H4 H5 H6 H7 H8].
  split; [done|]. split; [done|].
  split; [apply updateState_waiters|]. split; [done|]. split; [done|].
  intros a Ha. by apply (view_static_getAccordion w w' this a).
Qed.

(** ** Detachment and missing groups *)




(** X3: an item that finds no enclosing group when it is attached
    registers no listener and schedules nothing; from then on
    [updateState], a click on its header and detachment all leave the
    world as it is, so the item keeps the state it was constructed
    with and no toggle request is ever sent. *)
Theorem no_group_no_participation this w a :
  getAccordion w this = Some a ->
  closest w = None ∨ this ∉ children w ->
  let w1 := connectedCallback this w in
  getAccordion w1 this = Some (set_accordionGroupEl None a)
  ∧ groups w1 = groups w ∧ frames w1 = frames w ∧ waiters w1 = waiters w
  ∧ log w1 = log w
  ∧ (∀ initialUpdate, updateState this initialUpdate w1 = w1)
  ∧ toggleExpanded this w1 = w1
  ∧ disconnectedCallback this w1 = w1.
Proof.
  intros Ha Hno w1.
  assert (w1 = updAccordion this (set_accordionGroupEl None) w) as ->.
  { subst w1. unfold connectedCallback.
    destruct Hno as [Hc|Hn]; [rewrite Hc; by case_decide|].
    by rewrite decide_False. }
  assert (getAccordion (updAccordion this (set_accordionGroupEl None) w) this
          = Some (set_accordionGroupEl None a)) as Ha1
    by by rewrite getAccordion_updAccordion_eq, Ha.
  do 5 (split; [done|]). split; [|split].
  - intros initialUpdate. unfold updateState. rewrite Ha1. simpl.
    by destruct (value a).
  - unfold toggleExpanded. by rewrite Ha1.
  - unfold disconnectedCallback. by rewrite Ha1.
Qed.

Lemma no_group_no_participation_witness :
  let w1 := connectedCallback 0 (mount [panel "a" 10] []) in
  stateOf w1 0 = Some Collapsed
  ∧ toggleExpanded 0 w1 = w1
  ∧ updateState 0 false w1 = w1.
Proof.
  destruct (no_group_no_participation 0 (mount [panel "a" 10] [])
              (newAccordion (Some "a") (Some (mkDiv 10 None)) (Some (mkDiv 10 None)))
              eq_refl (or_introl eq_refl))
    as (Hget & _ & _ & _ & _ & Hupd & Htog & _).
  split; [|split; [exact Htog|exact (Hupd false)]].
  unfold stateOf. by rewrite Hget.
Defined.

(** ** Invariants of the reachable worlds *)

(** X4: in every reachable world each item has at most one pending
    animation frame, the handle of a pending frame is the one stored
    in [currentRaf] of its item, no two items store the same handle,
    and the item of a pending frame has the [div]s its closure reads. *)
Theorem one_pending_frame_per_item w :
  reachable w ->
  NoDup (frameTargets w)
  ∧ (∀ h i d, (h, (i, d)) ∈ frames w ->
       ∃ a, getAccordion w i = Some a ∧ currentRaf a = Some h
            ∧ is_Some (contentEl a)
            ∧ (d = Expand -> is_Some (contentElWrapper a)))
  ∧ (∀ i j a b h, getAccordion w i = Some a -> getAccordion w j = Some b ->
       currentRaf a = Some h -> currentRaf b = Some h -> i = j).
Proof.
  intros Hi%reachable_Inv. split; [apply Hi|]. split; [apply Hi|].
  apply (inv_inj w Hi).
Qed.

(** X5: in every reachable world an item that is Expanding or
    Collapsing, or whose content carries an inline max-height, has a
    frame pending or a transition end awaited: no item is ever left in
    a transient state with nothing scheduled to finish it. *)
Theorem transient_state_has_pending_work w this a :
  reachable w ->
  getAccordion w this = Some a ->
  state a = Expanding ∨ state a = Collapsing
  ∨ contentEl a ≫= maxHeight ≠ None ->
  this ∈ frameTargets w ∨ this ∈ waiterTargets w.
Proof. intros Hi%reachable_Inv Ha Hb. by apply (inv_busy w Hi this a). Qed.

Lemma three_panels_reachable : reachable three_panels.
Proof.
  exists (mount [panel "panel-1" 40; panel "panel-2" 60; panel "panel-3" 80]
            [VString "panel-2"]),
    [Connected 0; Connected 1; Connected 2].
  split; [|vm_compute; reflexivity].
  split; [reflexivity|]. split; [reflexivity|]. by repeat constructor.
Qed.

Lemma reachable_step e w : reachable w -> reachable (step e w).
Proof.
  intros (w0 & es & H0 & ->). exists w0, (es ++ [e]). split; [done|].
  unfold run. by rewrite foldl_snoc.
Qed.

Lemma frames_pending_reachable : reachable frames_pending.
Proof.
  apply (reachable_step (IonChange 0 (VString "panel-1")) three_panels),
    three_panels_reachable.
Qed.

Lemma mid_transition_reachable : reachable mid_transition.
Proof.
  apply (reachable_step AnimationFrame frames_pending), frames_pending_reachable.
Qed.

Lemma one_pending_frame_per_item_witness :
  NoDup (frameTargets frames_pending)
  ∧ ∀ h i d, (h, (i, d)) ∈ frames frames_pending ->
      ∃ a, getAccordion frames_pending i = Some a ∧ currentRaf a = Some h
           ∧ is_Some (contentEl a)
           ∧ (d = Expand -> is_Some (contentElWrapper a)).
Proof.
  destruct (one_pending_frame_per_item frames_pending frames_pending_reachable)
    as (Hnd & Hfr & _).
  split; [exact Hnd|exact Hfr].
Defined.

Lemma transient_state_has_pending_work_witness :
  0 ∈ frameTargets mid_transition ∨ 0 ∈ waiterTargets mid_transition.
Proof.
  apply (transient_state_has_pending_work mid_transition 0
           (mkAccordion (Some 0) (Some (mkDiv 40 (Some 40))) (Some (mkDiv 40 None))
              (Some 1) Expanding false false (Some "panel-1"))
           mid_transition_reachable eq_refl).
  by left.
Defined.

(** ** The latest request wins *)

Lemma pendingDirection_scheduled w this h d fr :
  frames w = fr ++ [(h, (this, d))] -> pendingDirection w this = Some d.
Proof.
  intros Hf. unfold pendingDirection.
  rewrite Hf, filter_app, filter_cons_True, filter_nil by done.
  by rewrite last_snoc.
Qed.

Lemma lastDirection_idle w this t :
  idle w this ->
  lastDirection this (waiters w ++ (toWaiter t <$> frames w)) = None.
Proof.
  intros [Hf Hw]. apply lastDirection_None.
  intros x [Hx|Hx]%elem_of_app Heq.
  - apply Hw, list_elem_of_fmap. by exists x.
  - apply list_elem_of_fmap in Hx as (p & -> & Hp).
    apply Hf, list_elem_of_fmap. by exists p.
Qed.

Lemma Inv_settle w :
  Inv w ->
  frames (settle w) = [] ∧ waiters (settle w) = []
  ∧ (∀ this d, pendingDirection w this = Some d ->
       ∃ a', getAccordion (settle w) this = Some a' ∧ state a' = terminal d
             ∧ contentEl a' ≫= maxHeight = None)
  ∧ (∀ this, idle w this -> nodes (settle w) !! this = nodes w !! this).
Proof.
  intros Hi. unfold settle. set (w1 := animationFrame w).
  destruct (animationFrame_spec w Hi) as (Hf1 & Hw1 & Hn1 & _ & _ & Ho1).
  pose proof (Inv_animationFrame w Hi) as Hi1. fold w1 in Hf1, Hw1, Hn1, Ho1, Hi1.
  set (v := set_now (now w1 + 50000)%N w1).
  assert (elapse 50000 w1
          = foldl (λ w x, resume x w) (set_waiters [] v) (waiters w1)) as Hw'.
  { unfold elapse. fold v. rewrite resolveWaiters_all; [done|].
    apply Forall_forall. intros x Hx. apply bool_decide_eq_true. simpl.
    pose proof (inv_deadline w1 Hi1 x Hx). lia. }
  destruct (foldl_resume_spec (waiters w1) (set_waiters [] v))
    as (Hf & Hw & _ & _ & Hv & Ho & Hd).
  rewrite <- Hw' in Hf, Hw, Hv, Ho, Hd. simpl in Hf, Hw.
  split; [congruence|]. split; [done|]. split.
  - intros this d Hp.
    rewrite <- (lastDirection_pending w this (now w)), <- Hw1 in Hp.
    destruct (lastDirection_Some_elem this _ d Hp) as (x & Hx & Ht).
    destruct (inv_waiter w1 Hi1 x Hx) as [a1 Ha1]. rewrite Ht in Ha1.
    assert (view keptByFrames w1 = view keptByFrames (elapse 50000 w1)) as Hv'
      by done.
    destruct (view_frames_getAccordion _ w1 this a1 Hv' Ha1) as (a' & Ha' & _).
    exists a'. split; [done|]. by apply (Hd this a' d).
  - intros this Hidle. rewrite Ho.
    + apply Ho1, Hidle.
    + rewrite Hw1. by apply lastDirection_idle.
Qed.

(** X6: the most recent accepted request decides where an item ends.
    In every reachable world, whatever frames and waits are still under
    way, a non-initial collapse of an item that is not Collapsed, and a
    non-initial expand of an item that is not Expanded, leave exactly
    one pending frame for the item, and once the scheduled work has
    finished the item is in the terminal state of that request with
    no inline max-height. *)
Theorem latest_request_wins w this a c :
  reachable w ->
  getAccordion w this = Some a ->
  contentEl a = Some c ->
  (state a ≠ Collapsed ->
     let w1 := collapseAccordion this false w in
     filter (λ p, p.2.1 = this) (frames w1)
       = [(nextHandle w, (this, Collapse))]
     ∧ ∃ a', getAccordion (settle w1) this = Some a' ∧ state a' = Collapsed
             ∧ contentEl a' ≫= maxHeight = None)
  ∧ (state a ≠ Expanded -> is_Some (contentElWrapper a) ->
     let w1 := expandAccordion this false w in
     filter (λ p, p.2.1 = this) (frames w1)
       = [(nextHandle w, (this, Expand))]
     ∧ ∃ a', getAccordion (settle w1) this = Some a' ∧ state a' = Expanded
             ∧ contentEl a' ≫= maxHeight = None).
Proof.
  intros Hi%reachable_Inv Ha Hc.
  assert (filter (λ p, p.2.1 = this) (cancelled a (frames w)) = []) as Hnone.
  { apply elem_of_nil_inv. intros p [Hp Hin]%list_elem_of_filter.
    by destruct (cancelled_sound w this a p Hi Ha Hin). }
  split.
  - intros Hs w1.
    destruct (collapseAccordion_accepted this w a c Ha Hs Hc)
      as (_ & Hf & _). fold w1 in Hf.
    split.
    + rewrite Hf, filter_app, Hnone, filter_cons_True, filter_nil; done.
    + pose proof (Inv_collapseAccordion this false w Hi) as Hi1. fold w1 in Hi1.
      destruct (Inv_settle w1 Hi1) as (_ & _ & Hp & _).
      apply (Hp this Collapse). by apply (pendingDirection_scheduled _ _ _ _ _ Hf).
  - intros Hs [cw Hcw] w1.
    destruct (expandAccordion_accepted this w a c cw Ha Hs Hc Hcw)
      as (_ & Hf & _). fold w1 in Hf.
    split.
    + rewrite Hf, filter_app, Hnone, filter_cons_True, filter_nil; done.
    + pose proof (Inv_expandAccordion this false w Hi) as Hi1. fold w1 in Hi1.
      destruct (Inv_settle w1 Hi1) as (_ & _ & Hp & _).
      apply (Hp this Expand). by apply (pendingDirection_scheduled _ _ _ _ _ Hf).
Qed.

Lemma latest_request_wins_witness :
  let w1 := collapseAccordion 0 false mid_transition in
  filter (λ p, p.2.1 = 0) (frames w1) = [(3, (0, Collapse))]
  ∧ ∃ a', getAccordion (settle w1) 0 = Some a' ∧ state a' = Collapsed
          ∧ contentEl a' ≫= maxHeight = None.
Proof.
  destruct (latest_request_wins mid_transition 0
              (mkAccordion (Some 0) (Some (mkDiv 40 (Some 40))) (Some (mkDiv 40 None))
                 (Some 1) Expanding false false (Some "panel-1"))
              (mkDiv 40 (Some 40)) mid_transition_reachable eq_refl eq_refl)
    as [Hcol _].
  apply Hcol. discriminate.
Defined.

(** ** Convergence to the selection *)

Lemma filter_cancelled_other w this j b :
  Inv w -> getAccordion w j = Some b -> j ≠ this ->
  filter (λ p, p.2.1 = this) (cancelled b (frames w))
  = filter (λ p, p.2.1 = this) (frames w).
Proof.
  intros Hi Hb Hne.
  assert (∀ p, p ∈ frames w -> p.2.1 = this -> p ∈ cancelled b (frames w)) as Hk.
  { intros p Hp Ht. apply (cancelled_complete w j b p Hi Hb Hp). congruence. }
  unfold cancelled in *. destruct (currentRaf b) as [h|]; [|done].
  induction (frames w) as [|p fr IH]; [done|].
  assert (∀ q, q ∈ fr -> q.2.1 = this -> q ∈ filter (λ p, p.1 ≠ h) fr) as Hk'.
  { intros q Hq Ht. specialize (Hk q (list_elem_of_further _ _ _ Hq) Ht).
    apply list_elem_of_filter in Hk as [Hh _]. by apply list_elem_of_filter. }
  destruct (decide (p.2.1 = this)) as [Ht|Ht].
  - specialize (Hk p (list_elem_of_here _ _) Ht).
    apply list_elem_of_filter in Hk as [Hh _].
    rewrite (filter_cons_True (λ p, p.1 ≠ h)) by done.
    rewrite !(filter_cons_True (λ p, p.2.1 = this)) by done.
    by rewrite IH.
  - rewrite (filter_cons_False (λ p, p.2.1 = this) p fr) by done.
    destruct (decide (p.1 ≠ h)).
    + rewrite (filter_cons_True (λ p, p.1 ≠ h)) by done.
      rewrite (filter_cons_False (λ p, p.2.1 = this)) by done. by apply IH.
    + rewrite (filter_cons_False (λ p, p.1 ≠ h)) by done. by apply IH.
Qed.

Lemma expandAccordion_frames_other this j initialUpdate w :
  Inv w -> j ≠ this ->
  filter (λ p, p.2.1 = this) (frames (expandAccordion j initialUpdate w))
  = filter (λ p, p.2.1 = this) (frames w).
Proof.
  intros Hi Hne.
  destruct (getAccordion w j) as [b|] eqn:Hb;
    [|unfold expandAccordion; by rewrite Hb].
  destruct initialUpdate; [unfold expandAccordion; by rewrite Hb|].
  destruct (decide (state b = Expanded)) as [Hs|Hs];
    [by rewrite (expandAccordion_noop j w b)|].
  destruct (contentEl b) as [c|] eqn:Hc;
    [|unfold expandAccordion; by rewrite Hb, decide_False, Hc].
  destruct (contentElWrapper b) as [cw|] eqn:Hcw;
    [|unfold expandAccordion; by rewrite Hb, decide_False, Hc, Hcw].
  destruct (expandAccordion_accepted j w b c cw Hb Hs Hc Hcw) as (_ & -> & _).
  rewrite filter_app, filter_cons_False, filter_nil, app_nil_r by done.
  by apply (filter_cancelled_other w this j b).
Qed.

Lemma collapseAccordion_frames_other this j initialUpdate w :
  Inv w -> j ≠ this ->
  filter (λ p, p.2.1 = this) (frames (collapseAccordion j initialUpdate w))
  = filter (λ p, p.2.1 = this) (frames w).
Proof.
  intros Hi Hne.
  destruct (getAccordion w j) as [b|] eqn:Hb;
    [|unfold collapseAccordion; by rewrite Hb].
  destruct initialUpdate; [unfold collapseAccordion; by rewrite Hb|].
  destruct (decide (state b = Collapsed)) as [Hs|Hs];
    [by rewrite (collapseAccordion_noop j w b)|].
  destruct (contentEl b) as [c|] eqn:Hc;
    [|unfold collapseAccordion; by rewrite Hb, decide_False, Hc].
  destruct (collapseAccordion_accepted j w b c Hb Hs Hc) as (_ & -> & _).
  rewrite filter_app, filter_cons_False, filter_nil, app_nil_r by done.
  by apply (filter_cancelled_other w this j b).
Qed.

(** The scheduler and the lifecycle state after [updateState] are those
    of the request it makes; the flags are assigned afterwards. *)
Lemma updateState_scheduler this initialUpdate w a x g gr :
  getAccordion w this = Some a ->
  value a = Some x ->
  accordionGroupEl a = Some g ->
  groups w !! g = Some gr ->
  let op := if isSelected (groupValue gr) x
            then expandAccordion this initialUpdate w
            else collapseAccordion this initialUpdate w in
  frames (updateState this initialUpdate w) = frames op
  ∧ waiters (updateState this initialUpdate w) = waiters op
  ∧ stateOf (updateState this initialUpdate w) this = stateOf op this.
Proof.
  intros Ha Hv Hg Hgr. unfold updateState.
  rewrite Ha, Hv, Hg. simpl. rewrite Hgr.
  destruct (isSelected (groupValue gr) x).
  - by rewrite stateOf_updAccordion.
  - destruct (getNextSibling _ _ ≫= nodeValue);
      destruct (getPreviousSibling _ _ ≫= nodeValue);
      by rewrite ?stateOf_updAccordion.
Qed.

Lemma updateState_frames_other this j initialUpdate w :
  Inv w -> j ≠ this ->
  filter (λ p, p.2.1 = this) (frames (updateState j initialUpdate w))
  = filter (λ p, p.2.1 = this) (frames w).
Proof.
  intros Hi Hne.
  destruct (getAccordion w j) as [b|] eqn:Hb;
    [|unfold updateState; by rewrite Hb].
  destruct (value b) as [x|] eqn:Hx;
    [|by rewrite (updateState_undefined j initialUpdate w b)].
  destruct (accordionGroupEl b) as [g|] eqn:Hg;
    [|unfold updateState; by rewrite Hb, Hx, Hg].
  destruct (groups w !! g) as [gr|] eqn:Hgr;
    [|unfold updateState; rewrite Hb, Hx, Hg; simpl; by rewrite Hgr].
  destruct (updateState_scheduler j initialUpdate w b x g gr Hb Hx Hg Hgr)
    as (-> & _).
  destruct (isSelected _ _);
    [by apply expandAccordion_frames_other
    |by apply collapseAccordion_frames_other].
Qed.

Lemma pendingDirection_scheduler w w' this :
  filter (λ p, p.2.1 = this) (frames w') = filter (λ p, p.2.1 = this) (frames w) ->
  waiters w' = waiters w ->
  pendingDirection w' this = pendingDirection w this.
Proof. intros Hf Hw. unfold pendingDirection. by rewrite Hf, Hw. Qed.

Lemma idle_scheduler w w' this :
  frames w' = frames w -> waiters w' = waiters w -> idle w this -> idle w' this.
Proof. intros Hf Hw. unfold idle, frameTargets, waiterTargets. by rewrite Hf, Hw. Qed.

Lemma rendered_member_view w w' this x g :
  view static w' = view static w ->
  rendered_member w this x g -> rendered_member w' this x g.
Proof.
  intros Hv (a & Ha & Hx & Hg & Hc & Hcw).
  apply (view_getAccordion static w w' this) in Hv. rewrite Ha in Hv.
  destruct (getAccordion w' this) as [a'|] eqn:Ha'; [|done].
  unfold static in Hv. simpl in Hv. simplify_eq.
  exists a'. split; [done|]. split; [congruence|]. split; [congruence|].
  split; [|congruence].
  destruct Hc as [c Hc]. rewrite Hc in *.
  destruct (contentEl a'); [by eexists|done].
Qed.

(** One request of [this] in the direction [d]: either nothing had to
    be done, or a frame in that direction is pending. *)
Lemma request_establishes w this x g gr d :
  Inv w ->
  rendered_member w this x g ->
  groups w !! g = Some gr ->
  d = (if isSelected (groupValue gr) x then Expand else Collapse) ->
  idle w this ∨ pendingDirection w this = Some d ->
  let w1 := updateState this false w in
  (idle w1 this ∧ stateOf w1 this = Some (terminal d))
  ∨ pendingDirection w1 this = Some d.
Proof.
  intros Hi (a & Ha & Hx & Hg & [c Hc] & [cw Hcw]) Hgr Hd HR w1.
  destruct (updateState_scheduler this false w a x g gr Ha Hx Hg Hgr)
    as (Hf & Hw & Hs). fold w1 in Hf, Hw, Hs.
  destruct (decide (state a = terminal d)) as [Hst|Hst].
  - (* nothing to do *)
    assert ((if isSelected (groupValue gr) x
             then expandAccordion this false w
             else collapseAccordion this false w) = w) as Hop.
    { destruct (isSelected _ _); subst d;
        [by apply (expandAccordion_noop this w a)
        |by apply (collapseAccordion_noop this w a)]. }
    rewrite Hop in Hf, Hw, Hs.
    destruct HR as [Hidle|Hp].
    + left. split; [by apply (idle_scheduler w)|].
      rewrite Hs. unfold stateOf. rewrite Ha. simpl. by rewrite Hst.
    + right. rewrite <- Hp. apply pendingDirection_scheduler; congruence.
  - right. destruct (isSelected _ _); subst d.
    + destruct (expandAccordion_accepted this w a c cw Ha Hst Hc Hcw)
        as (_ & Hf' & _).
      apply (pendingDirection_scheduled _ _ (nextHandle w) _
               (cancelled a (frames w))). congruence.
    + destruct (collapseAccordion_accepted this w a c Ha Hst Hc)
        as (_ & Hf' & _).
      apply (pendingDirection_scheduled _ _ (nextHandle w) _
               (cancelled a (frames w))). congruence.
Qed.

Lemma broadcast_establishes (inv Q : World -> Prop) X ls w :
  (∀ w l, inv w -> inv (updateState l false w)) ->
  (∀ w, inv w -> Q (updateState X false w)) ->
  (∀ w l, inv w -> Q w -> l ≠ X -> Q (updateState l false w)) ->
  inv w ->
  X ∈ ls ∨ Q w ->
  Q (foldl (λ w l, updateState l false w) w ls).
Proof.
  intros Hinv Hself Hother. revert w.
  induction ls as [|l ls IH]; intros w Hw Hcase; simpl.
  - destruct Hcase as [Hin|]; [|done]. by apply elem_of_nil in Hin.
  - apply IH; [by apply Hinv|].
    destruct (decide (l = X)) as [->|Hne].
    + right. by apply Hself.
    + destruct Hcase as [Hin|Hdone].
      * left. apply elem_of_cons in Hin as [->|]; done.
      * right. by apply Hother.
Qed.

(** X7: convergence.  Take a reachable world and a subscribed item with
    an identifier and rendered content for which nothing is in flight
    (no pending frame, no awaited transition end).  After a change
    notification of its group with any selection, and once the
    scheduled work has finished, the item is Expanded if its identifier
    is selected and Collapsed if it is not, with no inline max-height
    left on its content. *)
Theorem selection_converges w g gr sel this x :
  reachable w ->
  groups w !! g = Some gr ->
  this ∈ listeners gr ->
  rendered_member w this x g ->
  idle w this ->
  ∃ a', getAccordion (settle (ionChange g sel w)) this = Some a'
        ∧ state a' = (if isSelected sel x then Expanded else Collapsed)
        ∧ contentEl a' ≫= maxHeight = None.
Proof.
  intros Hi%reachable_Inv Hgr Hin Hm Hidle.
  set (d := if isSelected sel x then Expand else Collapse).
  assert ((if isSelected sel x then Expanded else Collapsed) = terminal d) as ->
    by (subst d; by destruct (isSelected sel x)).
  unfold ionChange.
  set (w1 := set_groups (alter (λ gr, {| groupValue := sel;
                                        listeners := listeners gr |}) g (groups w)) w).
  set (gr' := {| groupValue := sel; listeners := listeners gr |}).
  assert (groups w1 !! g = Some gr') as Hgr1.
  { subst w1. simpl. by rewrite list_lookup_alter_eq, Hgr. }
  rewrite Hgr1. simpl.
  set (inv := λ v : World,
    Inv v ∧ rendered_member v this x g ∧ groups v !! g = Some gr'
    ∧ (idle v this ∨ pendingDirection v this = Some d)).
  set (Q := λ v : World,
    Inv v ∧ ((idle v this ∧ ∃ a, getAccordion v this = Some a
                                  ∧ state a = terminal d
                                  ∧ contentEl a ≫= maxHeight = None)
             ∨ pendingDirection v this = Some d)).
  assert (inv w1) as Hinv1.
  { split; [by apply (Inv_same w)|]. split; [done|]. split; [done|]. by left. }
  assert (∀ v l, l ≠ this ->
            Inv v ->
            (idle v this -> idle (updateState l false v) this)
            ∧ pendingDirection (updateState l false v) this
              = pendingDirection v this
            ∧ getAccordion (updateState l false v) this = getAccordion v this)
    as Hoth.
  { intros v l Hne Hv. pose proof (updateState_local l false v) as Hl.
    split; [|split].
    - intros Hid. by destruct (local_keeps_idle static l this v _ Hl Hne Hid).
    - apply pendingDirection_scheduler;
        [by apply updateState_frames_other|apply updateState_waiters].
    - by apply (local_other_getAccordion _ _ _ _ _ Hl). }
  assert (∀ v, inv v -> Q (updateState this false v)) as Hself.
  { intros v (Hv & Hmv & Hgv & HR).
    split; [by apply Inv_updateState|].
    destruct (request_establishes v this x g gr' d Hv Hmv Hgv eq_refl HR)
      as [[Hid Hs]|Hp]; [left|by right].
    split; [done|]. unfold stateOf in Hs.
    destruct (getAccordion (updateState this false v) this) as [a1|] eqn:Ha1;
      [|done].
    simpl in Hs. exists a1. split; [done|]. split; [congruence|].
    destruct (contentEl a1 ≫= maxHeight) eqn:Hmh; [|done].
    destruct (inv_busy _ (Inv_updateState this false v Hv) this a1 Ha1)
      as [Hf|Hf]; [right; right; congruence|by destruct Hid..]. }
  assert (∀ v l, inv v -> inv (updateState l false v)) as Hstep.
  { intros v l Hv. destruct (decide (l = this)) as [->|Hne].
    - destruct (Hself v Hv) as (Hv' & HQ). destruct Hv as (Hv & Hmv & Hgv & HR).
      split; [done|]. pose proof (updateState_local this false v) as Hl.
      split; [apply (rendered_member_view v);
                [apply (local_view _ _ _ _ Hl)|done]|].
      split; [by rewrite (local_groups _ _ _ _ Hl)|].
      destruct HQ as [[Hid _]|Hp]; [by left|by right].
    - destruct Hv as (Hv & Hmv & Hgv & HR).
      pose proof (updateState_local l false v) as Hl.
      destruct (Hoth v l Hne Hv) as (Hid & Hp & _).
      split; [by apply Inv_updateState|].
      split; [apply (rendered_member_view v);
                [apply (local_view _ _ _ _ Hl)|done]|].
      split; [by rewrite (local_groups _ _ _ _ Hl)|].
      destruct HR as [?|?]; [left; auto|right; congruence]. }
  assert (∀ v l, inv v -> Q v -> l ≠ this -> Q (updateState l false v)) as Hkeep.
  { intros v l (Hv & _) (_ & HQ) Hne.
    destruct (Hoth v l Hne Hv) as (Hid & Hp & Hget).
    split; [by apply Inv_updateState|].
    destruct HQ as [[Hidle' Hs]|Hp']; [left|right; congruence].
    split; [auto|]. by rewrite Hget. }
  destruct (broadcast_establishes inv Q this (listeners gr) w1
              Hstep Hself Hkeep Hinv1 (or_introl Hin)) as (Hfin & HQ).
  set (w2 := foldl (λ w l, updateState l false w) w1 (listeners gr)) in *.
  destruct (Inv_settle w2 Hfin) as (_ & _ & Hp & Hkeepn).
  destruct HQ as [[Hid (a2 & Ha2 & Hs2 & Hm2)]|Hpend]; [|by apply Hp].
  exists a2. split; [|done]. unfold getAccordion in *. by rewrite Hkeepn.
Qed.

Lemma selection_converges_witness :
  ∃ a', getAccordion (settle (ionChange 0 (VArray ["panel-1"; "panel-3"])
                                three_panels)) 1 = Some a'
        ∧ state a' = Collapsed
        ∧ contentEl a' ≫= maxHeight = None.
Proof.
  apply (selection_converges three_panels 0
           (mkGroup (VString "panel-2") [0; 1; 2])
           (VArray ["panel-1"; "panel-3"]) 1 "panel-2"
           three_panels_reachable eq_refl).
  - apply (list_elem_of_lookup_2 _ 1). reflexivity.
  - exists (mkAccordion (Some 0) (Some (mkDiv 60 None)) (Some (mkDiv 60 None))
              None Expanded false false (Some "panel-2")).
    repeat split; by eexists.
  - split; apply not_elem_of_nil.
Defined.

(** ** Items whose content is not rendered *)

Lemma expandAccordion_unrendered this w a :
  getAccordion w this = Some a -> contentEl a = None ->
  expandAccordion this false w = w.
Proof.
  intros Ha Hc. unfold expandAccordion. rewrite Ha, Hc. by case_decide.
Qed.

Lemma collapseAccordion_unrendered this w a :
  getAccordion w this = Some a -> contentEl a = None ->
  collapseAccordion this false w = w.
Proof.
  intros Ha Hc. unfold collapseAccordion. rewrite Ha, Hc. by case_decide.
Qed.

Lemma updateState_unrendered this initialUpdate w a :
  getAccordion w this = Some a -> contentEl a = None ->
  frames (updateState this initialUpdate w) = frames w
  ∧ (initialUpdate = false ->
     stateOf (updateState this initialUpdate w) this = Some (state a)).
Proof.
  intros Ha Hc.
  assert (stateOf w this = Some (state a)) as Hst
    by (unfold stateOf; by rewrite Ha).
  destruct (value a) as [x|] eqn:Hx;
    [|by rewrite (updateState_undefined this initialUpdate w a)].
  destruct (accordionGroupEl a) as [g|] eqn:Hg;
    [|unfold updateState; by rewrite Ha, Hx, Hg].
  destruct (groups w !! g) as [gr|] eqn:Hgr;
    [|unfold updateState; rewrite Ha, Hx, Hg; simpl; by rewrite Hgr].
  destruct (updateState_scheduler this initialUpdate w a x g gr Ha Hx Hg Hgr)
    as (-> & _ & ->).
  destruct initialUpdate.
  - split; [|done]. unfold expandAccordion, collapseAccordion. rewrite Ha.
    by destruct (isSelected _ _).
  - rewrite (expandAccordion_unrendered this w a),
      (collapseAccordion_unrendered this w a) by done.
    by destruct (isSelected _ _).
Qed.

Lemma unrendered_view w w' this :
  view static w' = view static w -> unrendered w this -> unrendered w' this.
Proof.
  intros Hv (a & Ha & Hc).
  apply (view_getAccordion static w w' this) in Hv. rewrite Ha in Hv.
  destruct (getAccordion w' this) as [a'|] eqn:Ha'; [|done].
  unfold static in Hv. simpl in Hv. simplify_eq.
  exists a'. split; [done|]. rewrite Hc in *. by destruct (contentEl a').
Qed.

Lemma unrendered_same_node w w' this :
  nodes w' !! this = nodes w !! this -> unrendered w this -> unrendered w' this.
Proof.
  intros Hn (a & Ha & Hc). exists a. unfold getAccordion in *. by rewrite Hn.
Qed.

Lemma unrendered_updAccordion this j f w :
  (∀ a, contentEl (f a) = contentEl a) ->
  unrendered w this -> unrendered (updAccordion j f w) this.
Proof.
  intros Hf (a & Ha & Hc). unfold unrendered.
  rewrite getAccordion_updAccordion. case_decide.
  - rewrite Ha. exists (f a). by rewrite Hf.
  - by exists a.
Qed.

Lemma unrendered_updateState this j initialUpdate w :
  unrendered w this ∧ idle w this ->
  unrendered (updateState j initialUpdate w) this
  ∧ idle (updateState j initialUpdate w) this.
Proof.
  intros [Hu Hi]. pose proof (updateState_local j initialUpdate w) as Hl.
  split; [apply (unrendered_view w); [apply (local_view _ _ _ _ Hl)|done]|].
  destruct (decide (j = this)) as [->|Hne].
  - destruct Hu as (a & Ha & Hc).
    destruct (updateState_unrendered this initialUpdate w a Ha Hc) as [Hf _].
    apply (idle_scheduler w); [done|apply updateState_waiters|done].
  - by destruct (local_keeps_idle static j this w _ Hl Hne Hi).
Qed.

Lemma unrendered_resolveWaiters this fires w :
  unrendered w this ∧ idle w this ->
  unrendered (resolveWaiters fires w) this ∧ idle (resolveWaiters fires w) this.
Proof.
  intros [Hu Hi]. unfold resolveWaiters.
  set (w1 := set_waiters (filter (λ x, fires x = false) (waiters w)) w).
  assert (idle w1 this) as Hi1.
  { destruct Hi as [Hf Hw]. split; [done|].
    intros (x & -> & Hx)%list_elem_of_fmap.
    apply list_elem_of_filter in Hx as [_ Hx].
    apply Hw, list_elem_of_fmap. by exists x. }
  destruct (foldl_keeps_idle keptByFrames (λ w x, resume x w) wTarget this
              (filter (λ x, fires x = true) (waiters w)) w1) as [Hi' Hn];
    [intros; apply resume_local| |done|].
  { intros x [_ Hx]%list_elem_of_filter Heq.
    destruct Hi as [_ Hw]. apply Hw, list_elem_of_fmap. by exists x. }
  split; [|done]. by apply (unrendered_same_node w).
Qed.

Lemma unrendered_step this e w :
  unrendered w this ∧ idle w this ->
  unrendered (step e w) this ∧ idle (step e w) this.
Proof.
  intros [Hu Hi]. destruct e as [j|j|g v| |j|ms|j v|j]; simpl.
  - unfold connectedCallback.
    set (g' := if decide (j ∈ children w) then closest w else None).
    set (w1 := updAccordion j (set_accordionGroupEl g') w).
    assert (unrendered w1 this ∧ idle w1 this) as H1.
    { split; [|done]. by apply unrendered_updAccordion. }
    destruct g' as [g|]; [|done].
    destruct (unrendered_updateState this j true w1 H1) as [Hu2 Hi2].
    split; [by apply (unrendered_same_node (updateState j true w1))|done].
  - unfold toggleExpanded. destruct (getAccordion w j) as [a|]; [|done].
    by destruct (accordionGroupEl a).
  - unfold ionChange. set (w1 := set_groups _ w).
    assert (unrendered w1 this ∧ idle w1 this) as H1 by done.
    destruct (groups w1 !! g) as [gr|]; [|done].
    generalize dependent w1. clear.
    induction (listeners gr) as [|l ls IH]; intros w1 H1; [done|].
    simpl. by apply IH, unrendered_updateState.
  - unfold animationFrame.
    assert (idle (set_frames [] w) this) as Hi0
      by (split; [apply not_elem_of_nil|apply Hi]).
    destruct (foldl_keeps_idle keptByFrames (λ w p, runFrame p.2 w)
                (λ p, p.2.1) this (frames w) (set_frames [] w)) as [Hi' Hn];
      [intros; apply runFrame_local| |done|].
    { intros p Hp Heq. destruct Hi as [Hf _].
      apply Hf, list_elem_of_fmap. by exists p. }
    split; [|done]. by apply (unrendered_same_node w).
  - by apply unrendered_resolveWaiters.
  - unfold elapse. by apply unrendered_resolveWaiters.
  - split; [|done]. by apply unrendered_updAccordion.
  - unfold removeChild, disconnectedCallback.
    by destruct (getAccordion _ j ≫= accordionGroupEl).
Qed.

(** X8: an item whose content [div] is not rendered never animates.
    Starting with nothing scheduled for it, no sequence of events gets
    a frame requested or a transition end awaited for it, and every
    later non-initial [updateState] leaves its lifecycle state as it
    is, whether or not the item is selected: only the initial update
    at attachment assigns its state. *)
Theorem unrendered_item_never_schedules this w es :
  unrendered w this ->
  idle w this ->
  let w' := run es w in
  unrendered w' this ∧ idle w' this
  ∧ frames (updateState this false w') = frames w'
  ∧ stateOf (updateState this false w') this = stateOf w' this.
Proof.
  intros Hu Hi w'.
  assert (unrendered w' this ∧ idle w' this) as [Hu' Hi'].
  { subst w'. revert w Hu Hi. induction es as [|e es IH]; intros w Hu Hi; [done|].
    unfold run in *. simpl.
    destruct (unrendered_step this e w (conj Hu Hi)) as [Hu1 Hi1]. by apply IH. }
  split; [done|]. split; [done|].
  destruct Hu' as (a & Ha & Hc).
  destruct (updateState_unrendered this false w' a Ha Hc) as [Hf Hs].
  split; [done|]. rewrite Hs by done. unfold stateOf. by rewrite Ha.
Qed.

Lemma unrendered_item_never_schedules_witness :
  let w' := run [IonChange 0 (VString "b"); AnimationFrame; Elapse 50000]
              content_missing in
  idle w' 0 ∧ stateOf (updateState 0 false w') 0 = stateOf w' 0.
Proof.
  destruct (unrendered_item_never_schedules 0 content_missing
              [IonChange 0 (VString "b"); AnimationFrame; Elapse 50000])
    as (_ & Hi & _ & Hs).
  - exists (mkAccordion (Some 0) None None None Expanded false false (Some "a")).
    split; reflexivity.
  - split; apply not_elem_of_nil.
  - split; [exact Hi|exact Hs].
Defined.

(** ** What is rendered *)

(** X9: whatever the mode, the flags and the two interaction props, the
    host carries exactly one of the four lifecycle classes, and it is
    the one naming the current state. *)
Theorem render_one_state_class mode disabled readonly a :
  filter (λ c, c ∈ stateClasses) (classList (render mode disabled readonly a))
  = [stateClass (state a)].
Proof.
  destruct a as [g c cw r s n p v]. unfold render, classList. simpl.
  destruct mode, s, n, p, disabled, readonly; vm_compute; reflexivity.
Qed.

(** X10: a click asks the group for the opposite of what the item
    announces.  With a resolvable group, [toggleExpanded] requests
    expansion exactly when [render] gives [aria-expanded] "false", and
    [aria-expanded] is "true" exactly when the header and the content
    expose the [expanded] part and exactly when the host carries
    [accordion-expanded] or [accordion-expanding]. *)
Theorem click_requests_opposite_of_aria_expanded
    this w a g mode disabled readonly :
  getAccordion w this = Some a ->
  accordionGroupEl a = Some g ->
  let r := render mode disabled readonly a in
  (∃ expand,
     log (toggleExpanded this w)
       = log w ++ [ERequestAccordionToggle g (value a) expand]
     ∧ (expand = true ↔ ariaExpanded r = "false"))
  ∧ (ariaExpanded r = "true" ↔ headerPart r = "header expanded")
  ∧ (ariaExpanded r = "true" ↔ contentPart r = "content expanded")
  ∧ (ariaExpanded r = "true" ↔
       "accordion-expanded" ∈ classList r ∨ "accordion-expanding" ∈ classList r).
Proof.
  intros Ha Hg r. split; [|split; [|split]].
  - exists (bool_decide (state a = Collapsed)
            || bool_decide (state a = Collapsing)).
    split.
    + unfold toggleExpanded. by rewrite Ha, Hg.
    + subst r. unfold render. simpl. by destruct (state a).
  - subst r. unfold render. simpl. by destruct (state a).
  - subst r. unfold render. simpl. by destruct (state a).
  - subst r. destruct a as [g0 c cw rf s n p v]. unfold render, classList. simpl.
    destruct mode, s, n, p, disabled, readonly; simpl;
      (split; [intros H; try discriminate H;
               first [left; apply (bool_decide_unpack _); by vm_compute
                     |right; apply (bool_decide_unpack _); by vm_compute]
              |intros [H|H]; try reflexivity;
               apply (bool_decide_pack _) in H; by vm_compute in H]).
Qed.

Lemma click_requests_opposite_of_aria_expanded_witness :
  let r := render md false false
             (mkAccordion (Some 0) (Some (mkDiv 40 None)) (Some (mkDiv 40 None))
                None Collapsed false true (Some "panel-1")) in
  (∃ expand,
     log (toggleExpanded 0 three_panels)
       = log three_panels ++ [ERequestAccordionToggle 0 (Some "panel-1") expand]
     ∧ (expand = true ↔ ariaExpanded r = "false"))
  ∧ (ariaExpanded r = "true" ↔ headerPart r = "header expanded").
Proof.
  destruct (click_requests_opposite_of_aria_expanded 0 three_panels
              (mkAccordion (Some 0) (Some (mkDiv 40 None)) (Some (mkDiv 40 None))
                 None Collapsed false true (Some "panel-1"))
              0 md false false eq_refl eq_refl)
    as (Hreq & Hpart & _).
  split; [exact Hreq|exact Hpart].
Defined.

(** ** Slotting the toggle icon *)

Lemma hasToggleIcon_toggleIcons e :
  hasToggleIcon e = true ↔ toggleIcons e ≠ [].
Proof.
  unfold hasToggleIcon, toggleIcons.
  induction (descendants e) as [|d ds IH]; simpl; [done|].
  destruct (decide ("ion-accordion-toggle-icon" ∈ descendantClasses d)) as [Hd|Hd].
  - rewrite filter_cons_True, bool_decide_eq_true_2 by done. done.
  - by rewrite filter_cons_False, bool_decide_eq_false_2.
Qed.

Lemma slotInto_spec s ic e :
  let e' := slotInto s ic e in
  slottedTag e' = slottedTag e ∧ button e' = true ∧ detail e' = Some false
  ∧ descendants e'
    = (if hasToggleIcon e then descendants e
       else descendants e ++ [DIcon (newToggleIcon s ic)])
  ∧ hasToggleIcon e' = true.
Proof.
  unfold slotInto, hasToggleIcon. simpl.
  destruct (existsb _ (descendants e)) eqn:He; simpl; [done|].
  do 4 (split; [done|]). rewrite existsb_app. simpl.
  apply orb_true_intro. right. by vm_compute.
Qed.

Lemma slotInto_again s ic s' ic' e :
  slotInto s' ic' (slotInto s ic e) = slotInto s ic e.
Proof.
  destruct (slotInto_spec s ic e) as (Ht & Hb & Hd & _ & Hh).
  unfold slotInto at 1. unfold hasToggleIcon in *. simpl. rewrite Hh.
  destruct (slotInto s ic e). simpl in *. by subst.
Qed.

Lemma list_find_insert_same {A} (P : A -> Prop) `{∀ x, Decision (P x)}
    (l : list A) i x y :
  list_find P l = Some (i, x) -> P y ->
  list_find P (<[i := y]> l) = Some (i, y).
Proof.
  intros (Hi & _ & Hlt)%list_find_Some Hy. apply list_find_Some.
  split; [|split; [done|]].
  - apply list_lookup_insert_eq. by apply lookup_lt_Some in Hi.
  - intros j z Hj Hji. rewrite list_lookup_insert_ne in Hj by lia.
    by apply (Hlt j z).
Qed.

(** X11: [slotToggleIcon] settles after one call.  A second call, with
    the same or with other values of [toggleIcon] and [toggleIconSlot],
    changes nothing: it finds the same [ion-item], which already is a
    button and already holds a toggle icon, so no second icon is ever
    added and the icon slotted first keeps its name and its slot. *)
Theorem slotToggleIcon_settles s ic s' ic' headerEl :
  slotToggleIcon s' ic' (slotToggleIcon s ic headerEl)
  = slotToggleIcon s ic headerEl.
Proof.
  destruct headerEl as [[[[[els|]]|]]|]; try done. simpl.
  destruct (list_find isIonItem els) as [[i e]|] eqn:Hfind; simpl.
  - destruct (slotInto_spec s ic e) as (Ht & _).
    assert (isIonItem (slotInto s ic e)) as Hitem.
    { apply list_find_Some in Hfind as (_ & He & _).
      unfold isIonItem in *. congruence. }
    rewrite (list_find_insert_same isIonItem els i e _ Hfind Hitem).
    by rewrite slotInto_again, list_insert_insert_eq.
  - by rewrite Hfind.
Qed.

(** X12: what one call does.  When the header slot has assigned
    elements and [e] is the first [ion-item] among them, the call
    replaces exactly that element: it becomes a button without detail
    arrow; if it holds no element of class [ion-accordion-toggle-icon]
    it gets one [ion-icon] appended, not lazy, with that class and with
    the slot and the name given by the two props, and otherwise its
    descendants are left as they are; afterwards it holds as many
    toggle icons as before, but at least one.  Every other assigned
    element, later [ion-item]s included, is untouched. *)
Theorem slotToggleIcon_effect s ic headerEl els i e :
  slotted headerEl = Some els ->
  list_find isIonItem els = Some (i, e) ->
  ∃ e',
    slotted (slotToggleIcon s ic headerEl) = Some (<[i := e']> els)
    ∧ <[i := e']> els !! i = Some e'
    ∧ (∀ j, j ≠ i -> <[i := e']> els !! j = els !! j)
    ∧ slottedTag e' = "ION-ITEM" ∧ button e' = true ∧ detail e' = Some false
    ∧ (hasToggleIcon e = true -> descendants e' = descendants e)
    ∧ (hasToggleIcon e = false ->
         descendants e'
         = descendants e
           ++ [DIcon {| iconSlot := s; lazy := false;
                        iconClasses := ["ion-accordion-toggle-icon"];
                        icon := ic |}])
    ∧ length (toggleIcons e') = Nat.max 1 (length (toggleIcons e)).
Proof.
  intros Hs Hfind. exists (slotInto s ic e).
  destruct (slotInto_spec s ic e) as (Ht & Hb & Hd & Hdesc & Hh).
  pose proof Hfind as (Hi & He & _)%list_find_Some.
  split.
  { destruct headerEl as [[[[[els0|]]|]]|]; try done.
    simpl in Hs. injection Hs as ->. simpl. by rewrite Hfind. }
  split; [apply list_lookup_insert_eq; by apply lookup_lt_Some in Hi|].
  split; [intros j Hj; by apply list_lookup_insert_ne|].
  split; [unfold isIonItem in He; congruence|].
  split; [done|]. split; [done|].
  split; [intros Hy; by rewrite Hdesc, Hy|].
  split; [intros Hn; by rewrite Hdesc, Hn|].
  unfold toggleIcons. rewrite Hdesc.
  destruct (hasToggleIcon e) eqn:Hy.
  - apply hasToggleIcon_toggleIcons in Hy. unfold toggleIcons in Hy.
    destruct (filter _ (descendants e)); [done|]. simpl. lia.
  - assert (toggleIcons e = []) as Hnil.
    { destruct (toggleIcons e) eqn:Hti; [done|].
      assert (hasToggleIcon e = true) as Hc
        by (apply hasToggleIcon_toggleIcons; by rewrite Hti).
      congruence. }
    unfold toggleIcons in Hnil. rewrite filter_app, Hnil.
    rewrite filter_cons_True by (simpl; left). done.
Qed.

Lemma slotToggleIcon_effect_witness :
  ∃ e',
    slotted (slotToggleIcon SlotEnd "chevron-down"
               (Some (mkHeader (Some (mkSlot (Some
                  [mkSlotted "ION-LABEL" false None [];
                   mkSlotted "ION-ITEM" false None [DOther ["label"]]]))))))
    = Some [mkSlotted "ION-LABEL" false None []; e']
    ∧ button e' = true
    ∧ descendants e'
      = [DOther ["label"];
         DIcon (mkIcon SlotEnd false ["ion-accordion-toggle-icon"] "chevron-down")].
Proof.
  destruct (slotToggleIcon_effect SlotEnd "chevron-down"
              (Some (mkHeader (Some (mkSlot (Some
                 [mkSlotted "ION-LABEL" false None [];
                  mkSlotted "ION-ITEM" false None [DOther ["label"]]])))))
              [mkSlotted "ION-LABEL" false None [];
               mkSlotted "ION-ITEM" false None [DOther ["label"]]]
              1 (mkSlotted "ION-ITEM" false None [DOther ["label"]])
              eq_refl eq_refl)
    as (e' & Hs & _ & _ & _ & Hb & _ & _ & Hn & _).
  exists e'. split; [exact Hs|]. split; [exact Hb|]. apply Hn. reflexivity.
Defined.

(** X13: when there is nothing to slot into, [slotToggleIcon] changes
    nothing: no header element, no slot in it, no [assignedElements]
    on the slot, or no [ion-item] among the assigned elements. *)
Theorem slotToggleIcon_nothing_to_slot s ic headerEl :
  slotted headerEl = None
  ∨ (∃ els, slotted headerEl = Some els
            ∧ Forall (λ e, slottedTag e ≠ "ION-ITEM") els) ->
  slotToggleIcon s ic headerEl = headerEl.
Proof.
  intros [Hn|(els & Hs & Hall)].
  - by destruct headerEl as [[[[[els|]]|]]|].
  - destruct headerEl as [[[[[els0|]]|]]|]; try done.
    simpl in Hs. injection Hs as ->. simpl.
    destruct (list_find isIonItem els) as [[i e]|] eqn:Hfind; [|done].
    apply list_find_Some in Hfind as (Hi & He & _).
    rewrite Forall_lookup in Hall. by destruct (Hall i e Hi).
Qed.

Lemma slotToggleIcon_nothing_to_slot_witness :
  slotToggleIcon SlotStart "caret" (Some (mkHeader (Some (mkSlot None))))
  = Some (mkHeader (Some (mkSlot None)))
  ∧ slotToggleIcon SlotStart "caret" None = None.
Proof.
  split.
  - apply slotToggleIcon_nothing_to_slot. by left.
  - apply slotToggleIcon_nothing_to_slot. by left.
Defined.

(** ** Attachment and detachment as a round trip *)

(** X14: attaching an item that is not yet subscribed and detaching it
    again leaves the listeners of every group as they were, and in
    between the item is a listener of its group, registered once, at
    the end of the list. *)
Theorem attach_detach_restores_listeners this w a g gr :
  getAccordion w this = Some a ->
  this ∈ children w ->
  closest w = Some g ->
  groups w !! g = Some gr ->
  this ∉ listeners gr ->
  let w1 := connectedCallback this w in
  groups w1 !! g = Some {| groupValue := groupValue gr;
                           listeners := listeners gr ++ [this] |}
  ∧ groups (disconnectedCallback this w1) = groups w.
Proof.
  intros Ha Hin Hc Hgr Hout w1.
  set (w0 := updAccordion this (set_accordionGroupEl (Some g)) w).
  assert (w1 = addEventListener g this (updateState this true w0)) as Hw1.
  { subst w1. unfold connectedCallback. by rewrite decide_True, Hc. }
  assert (groups (updateState this true w0) = groups w) as Hg0
    by apply (local_groups _ _ _ _ (updateState_local this true w0)).
  assert (groups w1 !! g = Some {| groupValue := groupValue gr;
                                   listeners := listeners gr ++ [this] |}) as Hg1.
  { rewrite Hw1. simpl. rewrite Hg0, list_lookup_alter_eq, Hgr. simpl.
    by rewrite decide_False. }
  split; [done|].
  assert (∃ a1, getAccordion w1 this = Some a1 ∧ accordionGroupEl a1 = Some g)
    as (a1 & Ha1 & Hga1).
  { assert (getAccordion w0 this = Some (set_accordionGroupEl (Some g) a)) as Ha0
      by (subst w0; by rewrite getAccordion_updAccordion_eq, Ha).
    destruct (view_static_getAccordion w0 (updateState this true w0) this _
                (local_view _ _ _ _ (updateState_local this true w0)) Ha0)
      as (a1 & Ha1 & _ & Hg1').
    exists a1. by rewrite Hw1. }
  unfold disconnectedCallback. rewrite Ha1. simpl. rewrite Hga1.
  unfold removeEventListener. simpl.
  apply list_eq. intros j. destruct (decide (g = j)) as [<-|Hne].
  - rewrite list_lookup_alter_eq, Hg1, Hgr. simpl.
    rewrite filter_app, filter_cons_False, filter_nil, app_nil_r by (by intros ?).
    assert (filter (λ l, l ≠ this) (listeners gr) = listeners gr) as ->.
    { clear -Hout. induction (listeners gr) as [|l ls IH]; [done|].
      apply not_elem_of_cons in Hout as [Hne Hout].
      rewrite filter_cons_True by done. by rewrite IH. }
    by destruct gr.
  - rewrite list_lookup_alter_ne by done. rewrite Hw1. simpl.
    by rewrite list_lookup_alter_ne, Hg0.
Qed.

Lemma attach_detach_restores_listeners_witness :
  let w := mount [panel "a" 10; panel "b" 20] [VString "b"] in
  groups (disconnectedCallback 1 (connectedCallback 1 w)) = groups w.
Proof.
  intros w.
  assert (1 ∈ children w) as Hin by (apply (list_elem_of_lookup_2 _ 1); reflexivity).
  destruct (attach_detach_restores_listeners 1 w
              (newAccordion (Some "b") (Some (mkDiv 20 None)) (Some (mkDiv 20 None)))
              0 (mkGroup (VString "b") [])
              eq_refl Hin eq_refl eq_refl (not_elem_of_nil 1))
    as [_ Hback].
  exact Hback.
Defined.

(** ** What frames and completions leave alone *)

Lemma foldl_groups_children {X B} (π : Accordion -> X)
    (f : World -> B -> World) (tgt : B -> nat) l w :
  (∀ w b, local π (tgt b) w (f w b)) ->
  groups (foldl f w l) = groups w ∧ children (foldl f w l) = children w.
Proof.
  intros Hf. revert w. induction l as [|b l IH]; intros w; [done|].
  simpl. destruct (IH (f w b)) as [-> ->].
  split; [apply (local_groups _ _ _ _ (Hf w b))
         |apply (local_children _ _ _ _ (Hf w b))].
Qed.

Lemma settling_step_frame e w :
  settling e ->
  groups (step e w) = groups w ∧ children (step e w) = children w
  ∧ view keptByFrames (step e w) = view keptByFrames w.
Proof.
  destruct e; simpl; try done; intros _.
  - destruct (foldl_groups_children keptByFrames (λ w p, runFrame p.2 w)
                (λ p, p.2.1) (frames w) (set_frames [] w)) as [Hg Hc];
      [intros; apply runFrame_local|].
    split; [done|]. split; [done|]. apply animationFrame_view.
  - destruct (foldl_groups_children keptByFrames (λ w x, resume x w) wTarget
                (filter (λ x, bool_decide (wTarget x = this) = true) (waiters w))
                (set_waiters
                   (filter (λ x, bool_decide (wTarget x = this) = false)
                      (waiters w)) w)) as [Hg Hc];
      [intros; apply resume_local|].
    split; [done|]. split; [done|]. apply resolveWaiters_view.
  - unfold elapse. set (v := set_now (now w + ms)%N w).
    destruct (foldl_groups_children keptByFrames (λ w x, resume x w) wTarget
                (filter (λ x, bool_decide (wDeadline x ≤ now v)%N = true)
                   (waiters v))
                (set_waiters
                   (filter (λ x, bool_decide (wDeadline x ≤ now v)%N = false)
                      (waiters v)) v)) as [Hg Hc];
      [intros; apply resume_local|].
    split; [done|]. split; [done|]. by rewrite resolveWaiters_view.
Qed.

(** X15: the frame callbacks and the code after their [await] assign
    nothing but the lifecycle state and the inline max-height.  Over
    any sequence of animation frames, transition ends and elapsed time
    every item keeps its adjacency flags, its identifier, its group,
    its stored frame handle and its wrapper, and no group and no
    document order changes. *)
Theorem settling_leaves_flags_and_handles es w :
  Forall settling es ->
  groups (run es w) = groups w
  ∧ children (run es w) = children w
  ∧ ∀ i a, getAccordion w i = Some a ->
      ∃ a', getAccordion (run es w) i = Some a'
            ∧ isNext a' = isNext a ∧ isPrevious a' = isPrevious a
            ∧ value a' = value a
            ∧ accordionGroupEl a' = accordionGroupEl a
            ∧ currentRaf a' = currentRaf a
            ∧ contentElWrapper a' = contentElWrapper a.
Proof.
  intros Hes.
  assert (groups (run es w) = groups w ∧ children (run es w) = children w
          ∧ view keptByFrames (run es w) = view keptByFrames w) as (Hg & Hc & Hv).
  { revert w. induction Hes as [|e es He _ IH]; intros w; [done|].
    unfold run in *. simpl. destruct (IH (step e w)) as (-> & -> & ->).
    by apply settling_step_frame. }
  split; [done|]. split; [done|]. intros i a Ha.
  apply (view_getAccordion keptByFrames w (run es w) i) in Hv. rewrite Ha in Hv.
  destruct (getAccordion (run es w) i) as [a'|]; [|done].
  exists a'. unfold keptByFrames, kept, static, flags in Hv. simpl in Hv.
  by simplify_eq.
Qed.

Lemma settling_leaves_flags_and_handles_witness :
  ∃ a', getAccordion (run [AnimationFrame; TransitionEnd 1; Elapse 50000]
                        frames_pending) 1 = Some a'
        ∧ isNext a' = true ∧ isPrevious a' = false
        ∧ currentRaf a' = Some 2.
Proof.
  destruct (settling_leaves_flags_and_handles
              [AnimationFrame; TransitionEnd 1; Elapse 50000] frames_pending)
    as (_ & _ & Hitem).
  { by repeat constructor. }
  destruct (Hitem 1 (mkAccordion (Some 0) (Some (mkDiv 60 None))
                       (Some (mkDiv 60 None)) (Some 2) Expanded true false
                       (Some "panel-2")) eq_refl)
    as (a' & Ha' & Hn & Hp & _ & _ & Hr & _).
  exists a'. by repeat split.
Defined.

(** ** The order of the effects of one transition *)

Lemma runFrame_log cb w :
  ∃ es, log (runFrame cb w) = log w ++ es
        ∧ Forall (λ e, effectItem e = Some cb.1) es.
Proof.
  destruct cb as [i d]. unfold runFrame. simpl. destruct d.
  - unfold expandFrame.
    destruct (getAccordion w i) as [a|]; [|exists []; by rewrite app_nil_r].
    destruct (contentEl a), (contentElWrapper a);
      try (exists []; by rewrite app_nil_r).
    eexists [_; _; _; _]. split; [simpl; by rewrite <- !app_assoc|].
    by repeat constructor.
  - unfold collapseFrame.
    destruct (getAccordion w i) as [a|]; [|exists []; by rewrite app_nil_r].
    destruct (contentEl a); [|exists []; by rewrite app_nil_r].
    eexists [_; _; _; _; _]. split; [simpl; by rewrite <- !app_assoc|].
    by repeat constructor.
Qed.

Lemma foldl_runFrame_log (fs : list (nat * (nat * Direction))) v :
  ∃ es, log (foldl (λ w p, runFrame p.2 w) v fs) = log v ++ es
        ∧ Forall (λ e, ∃ p, p ∈ fs ∧ effectItem e = Some p.2.1) es.
Proof.
  revert v. induction fs as [|p fs IH]; intros v; simpl.
  - exists []. by rewrite app_nil_r.
  - destruct (runFrame_log p.2 v) as (es1 & H1 & F1).
    destruct (IH (runFrame p.2 v)) as (es2 & H2 & F2).
    exists (es1 ++ es2). split; [by rewrite H2, H1, app_assoc|].
    apply Forall_app. split.
    + eapply Forall_impl; [done|]. intros e He. exists p. split; [left|done].
    + eapply Forall_impl; [done|]. intros e (q & Hq & He).
      exists q. split; [by right|done].
Qed.

Lemma resume_log x w :
  log (resume x w)
  = log w ++ [ESetState (wTarget x) (terminal (wDirection x));
              ERemoveMaxHeight (wTarget x)].
Proof. unfold resume, setState. simpl. by rewrite <- app_assoc. Qed.

Lemma foldl_resume_log xs v :
  ∃ es, log (foldl (λ w x, resume x w) v xs) = log v ++ es
        ∧ Forall isCompletion es.
Proof.
  revert v. induction xs as [|x xs IH]; intros v; simpl.
  - exists []. by rewrite app_nil_r.
  - destruct (IH (resume x v)) as (es & H & F).
    exists ([ESetState (wTarget x) (terminal (wDirection x));
             ERemoveMaxHeight (wTarget x)] ++ es).
    split; [by rewrite H, resume_log, <- app_assoc|].
    apply Forall_app. split; [|done].
    apply Forall_cons. split; [exists (wTarget x), (wDirection x); by left|].
    apply Forall_cons. split; [exists (wTarget x), (wDirection x); by right|].
    apply Forall_nil_2.
Qed.

Lemma foldl_now {X B} (π : Accordion -> X) (f : World -> B -> World)
    (tgt : B -> nat) l w :
  (∀ w b, local π (tgt b) w (f w b)) -> now (foldl f w l) = now w.
Proof.
  intros Hf. revert w. induction l as [|b l IH]; intros w; [done|].
  simpl. rewrite IH. apply (local_now _ _ _ _ (Hf w b)).
Qed.

Lemma foldl_other_node {X B} (π : Accordion -> X) (f : World -> B -> World)
    (tgt : B -> nat) this l w :
  (∀ w b, local π (tgt b) w (f w b)) ->
  (∀ b, b ∈ l -> tgt b ≠ this) ->
  nodes (foldl f w l) !! this = nodes w !! this.
Proof.
  intros Hf. revert w. induction l as [|b l IH]; intros w Hl; [done|].
  simpl. rewrite IH; [|intros; apply Hl; by right].
  apply (local_other _ _ _ _ (Hf w b)). intros Heq. by apply (Hl b); [left|].
Qed.

(** The frame requested last runs last: when its callback starts, the
    other pending callbacks have run, the clock has not moved, and the
    component still has the [div]s the closure captured. *)
Lemma scheduled_frame_runs_last this d w1 fr h a1 c :
  frames w1 = fr ++ [(h, (this, d))] ->
  getAccordion w1 this = Some a1 ->
  contentEl a1 = Some c ->
  ∃ v aV cV others,
    animationFrame w1 = runFrame (this, d) v
    ∧ log v = log w1 ++ others
    ∧ Forall (λ e, ∃ p, p ∈ fr ∧ effectItem e = Some p.2.1) others
    ∧ now v = now w1
    ∧ getAccordion v this = Some aV
    ∧ contentEl aV = Some cV
    ∧ offsetHeight cV = offsetHeight c
    ∧ contentElWrapper aV = contentElWrapper a1
    ∧ ((∀ p, p ∈ fr -> p.2.1 ≠ this) -> aV = a1).
Proof.
  intros Hf Ha Hc.
  set (v := foldl (λ w p, runFrame p.2 w) (set_frames [] w1) fr).
  assert (view keptByFrames v = view keptByFrames w1) as Hv.
  { subst v. rewrite view_foldl; [done|].
    intros w' p. apply (runFrame_local p.2 w'). }
  pose proof (view_getAccordion keptByFrames w1 v this Hv) as Hg.
  rewrite Ha in Hg. destruct (getAccordion v this) as [aV|] eqn:HaV; [|done].
  unfold keptByFrames, kept, static in Hg. simpl in Hg.
  rewrite Hc in Hg. simpl in Hg.
  destruct (contentEl aV) as [cV|] eqn:HcV; [|by simplify_eq].
  simpl in Hg.
  destruct (foldl_runFrame_log fr (set_frames [] w1)) as (others & Hl & Fo).
  exists v, aV, cV, others.
  split. { unfold animationFrame. by rewrite Hf, foldl_snoc. }
  split; [done|]. split; [done|].
  split. { subst v. by rewrite (foldl_now keptByFrames _ (λ p : nat * (nat * Direction), p.2.1));
             [|intros w' p; apply (runFrame_local p.2 w')]. }
  split; [done|]. split; [done|].
  split; [by simplify_eq|]. split; [by simplify_eq|].
  intros Hne.
  assert (nodes v !! this = nodes (set_frames [] w1) !! this) as Hn.
  { subst v. apply (foldl_other_node keptByFrames _
             (λ p : nat * (nat * Direction), p.2.1)); [|done].
    intros w' p. apply (runFrame_local p.2 w'). }
  unfold getAccordion in HaV, Ha. rewrite Hn in HaV. simpl in HaV.
  rewrite Ha in HaV. by simplify_eq.
Qed.

(** The promise registered last is resumed last, whichever signal
    resolves it. *)
Lemma latest_wait_resumes_last this d fires w2 ws t a2 :
  waiters w2 = ws ++ [mkWaiter this t d] ->
  fires (mkWaiter this t d) = true ->
  getAccordion w2 this = Some a2 ->
  is_Some (contentEl a2) ->
  let w3 := resolveWaiters fires w2 in
  (∃ earlier,
      log w3 = log w2 ++ earlier
                 ++ [ESetState this (terminal d); ERemoveMaxHeight this]
      ∧ Forall isCompletion earlier)
  ∧ stateOf w3 this = Some (terminal d)
  ∧ maxHeightOf w3 this = Some None.
Proof.
  intros Hw Hf Ha Hc w3. subst w3. unfold resolveWaiters.
  rewrite Hw, !filter_app.
  rewrite (filter_cons_True (λ x, fires x = true)); [|done].
  rewrite (filter_cons_False (λ x, fires x = false)); [|congruence].
  rewrite !filter_nil, app_nil_r, foldl_snoc.
  set (u := foldl _ _ _).
  assert (view keptByFrames u = view keptByFrames w2) as Hv.
  { subst u. rewrite view_foldl; [done|]. intros w' x. apply (resume_local x w'). }
  pose proof (view_getAccordion keptByFrames w2 u this Hv) as Hg.
  rewrite Ha in Hg. destruct (getAccordion u this) as [aU|] eqn:HaU; [|done].
  unfold keptByFrames, kept, static in Hg. simpl in Hg.
  destruct Hc as [c2 Hc]. rewrite Hc in Hg. simpl in Hg.
  destruct (contentEl aU) as [cU|] eqn:HcU; [|by simplify_eq].
  destruct (resume_runs (mkWaiter this t d) u aU HaU)
    as (Hget & _).
  simpl in Hget.
  destruct (foldl_resume_log (filter (λ x, fires x = true) ws)
              (set_waiters (filter (λ x, fires x = false) ws) w2))
    as (earlier & Hle & Fe).
  fold u in Hle. simpl in Hle.
  split; [|split].
  - exists earlier. split; [|done]. by rewrite resume_log, Hle, <- app_assoc.
  - unfold stateOf. by rewrite Hget.
  - by apply (maxHeightOf_resumed _ _ aU cU (terminal d)).
Qed.

(** C4: the order of the effects of an animated transition, whatever
    else is scheduled or awaited when it is requested.  Expanding sets
    the state to Expanding and requests a frame.  The callbacks pending
    before it run first in that frame ([others]; in a reachable world
    none of them is on this component), then its own: the wrapper's
    unconstrained height is measured first, then the wait for the
    transition end (with its timeout of 50000 ms) begins, then the
    height is applied as max-height and the layout flush is forced.
    The state is still Expanding then; it becomes Expanded, and the
    constraint is removed, only when the wait completes or times out,
    after the continuations of the waits registered before it
    ([earlier]).  Collapsing requests a frame and leaves the state as it
    is; in its callback the rendered height of the content is measured
    and applied and the flush is forced before the wait begins and
    before the state becomes Collapsing; the state becomes Collapsed,
    and the constraint is removed, only when the wait completes or
    times out.  The wrapper is needed for expanding only. *)
Theorem transition_protocol_order this w a c :
  getAccordion w this = Some a ->
  contentEl a = Some c ->
  (∀ cw, contentElWrapper a = Some cw -> state a ≠ Expanded ->
     let w1 := expandAccordion this false w in
     let w2 := animationFrame w1 in
     log w1 = log w ++ ESetState this Expanding :: cancelLog a
                    ++ [ERaf (nextHandle w) this Expand]
     ∧ (∃ others,
          log w2 = log w1 ++ others
                     ++ [EMeasureWrapper this (offsetHeight cw);
                         ETransitionEndAsync this 50000;
                         ESetMaxHeight this (offsetHeight cw);
                         EForceRepaint this]
          ∧ (reachable w -> Forall (elsewhere this) others))
     ∧ (reachable w -> stateOf w2 this = Some Expanding)
     ∧ maxHeightOf w2 this = Some (Some (offsetHeight cw))
     ∧ ∀ w3, w3 = transitionEnd this w2 ∨ w3 = elapse 50000 w2 ->
         (∃ earlier,
            log w3 = log w2 ++ earlier
                       ++ [ESetState this Expanded; ERemoveMaxHeight this]
            ∧ Forall isCompletion earlier)
         ∧ stateOf w3 this = Some Expanded
         ∧ maxHeightOf w3 this = Some None)
  ∧ (state a ≠ Collapsed ->
     let w1 := collapseAccordion this false w in
     let w2 := animationFrame w1 in
     log w1 = log w ++ cancelLog a ++ [ERaf (nextHandle w) this Collapse]
     ∧ stateOf w1 this = Some (state a)
     ∧ (∃ others,
          log w2 = log w1 ++ others
                     ++ [EMeasureContent this (offsetHeight c);
                         ESetMaxHeight this (offsetHeight c);
                         EForceRepaint this;
                         ETransitionEndAsync this 50000;
                         ESetState this Collapsing]
          ∧ (reachable w -> Forall (elsewhere this) others))
     ∧ stateOf w2 this = Some Collapsing
     ∧ maxHeightOf w2 this = Some (Some (offsetHeight c))
     ∧ ∀ w3, w3 = transitionEnd this w2 ∨ w3 = elapse 50000 w2 ->
         (∃ earlier,
            log w3 = log w2 ++ earlier
                       ++ [ESetState this Collapsed; ERemoveMaxHeight this]
            ∧ Forall isCompletion earlier)
         ∧ stateOf w3 this = Some Collapsed
         ∧ maxHeightOf w3 this = Some None).
Proof.
  intros Ha Hc. split.
  - intros cw Hcw Hs w1 w2.
    destruct (expandAccordion_accepted this w a c cw Ha Hs Hc Hcw)
      as (Hg1 & Hf1 & Hw1 & _ & Hn1 & Hl1). fold w1 in Hg1, Hf1, Hw1, Hn1, Hl1.
    destruct (scheduled_frame_runs_last this Expand w1 _ _ _ c Hf1 Hg1 Hc)
      as (v & aV & cV & others & Hw2 & Hlv & Hoth & Hnv & HgV & HcV & Hh
          & HwV & Hsame).
    fold w2 in Hw2. change (runFrame (this, Expand) v) with (expandFrame this v) in Hw2.
    simpl in HwV. rewrite Hcw in HwV.
    destruct (expandFrame_runs this v aV cV cw HgV HcV HwV)
      as (Hg2 & _ & Hws2 & _ & Hn2 & Hl2). rewrite <- Hw2 in Hg2, Hws2, Hn2, Hl2.
    assert (∀ p, reachable w -> p ∈ cancelled a (frames w) -> p.2.1 ≠ this)
      as Hne.
    { intros p Hr%reachable_Inv Hp. by apply (cancelled_sound w this a p). }
    split; [done|]. split; [|split; [|split; [|]]].
    + exists others. split; [by rewrite Hl2, Hlv, <- app_assoc|].
      intros Hr. eapply Forall_impl; [done|].
      intros e (p & Hp & He) Heq. rewrite He in Heq.
      apply (Hne p Hr Hp). by simplify_eq.
    + intros Hr. unfold stateOf. rewrite Hg2.
      rewrite Hsame; [done|]. intros p. by apply Hne.
    + unfold maxHeightOf. rewrite Hg2. simpl. by rewrite HcV.
    + intros w3 [-> | ->].
      * unfold transitionEnd.
        apply (latest_wait_resumes_last this Expand
                 (λ x, bool_decide (wTarget x = this)) w2 (waiters v)
                 (now v + 50000)%N _ Hws2 (bool_decide_eq_true_2 _ eq_refl) Hg2).
        simpl. rewrite HcV. by eexists.
      * unfold elapse.
        eapply (latest_wait_resumes_last this Expand _
                  (set_now (now w2 + 50000)%N w2) (waiters v)
                  (now v + 50000)%N _ Hws2); [|exact Hg2|].
        -- apply bool_decide_eq_true. simpl. rewrite Hn2. lia.
        -- simpl. rewrite HcV. by eexists.
  - intros Hs w1 w2.
    destruct (collapseAccordion_accepted this w a c Ha Hs Hc)
      as (Hg1 & Hf1 & Hw1 & _ & Hn1 & Hl1). fold w1 in Hg1, Hf1, Hw1, Hn1, Hl1.
    destruct (scheduled_frame_runs_last this Collapse w1 _ _ _ c Hf1 Hg1 Hc)
      as (v & aV & cV & others & Hw2 & Hlv & Hoth & Hnv & HgV & HcV & Hh
          & HwV & Hsame).
    fold w2 in Hw2.
    change (runFrame (this, Collapse) v) with (collapseFrame this v) in Hw2.
    destruct (collapseFrame_runs this v aV cV HgV HcV)
      as (Hg2 & _ & Hws2 & _ & Hn2 & Hl2). rewrite <- Hw2 in Hg2, Hws2, Hn2, Hl2.
    rewrite Hh in Hg2, Hl2.
    assert (∀ p, reachable w -> p ∈ cancelled a (frames w) -> p.2.1 ≠ this)
      as Hne.
    { intros p Hr%reachable_Inv Hp. by apply (cancelled_sound w this a p). }
    split; [done|]. split; [unfold stateOf; by rewrite Hg1|].
    split; [|split; [|split; [|]]].
    + exists others. split; [by rewrite Hl2, Hlv, <- app_assoc|].
      intros Hr. eapply Forall_impl; [done|].
      intros e (p & Hp & He) Heq. rewrite He in Heq.
      apply (Hne p Hr Hp). by simplify_eq.
    + unfold stateOf. by rewrite Hg2.
    + unfold maxHeightOf. rewrite Hg2. simpl. by rewrite HcV.
    + intros w3 [-> | ->].
      * unfold transitionEnd.
        apply (latest_wait_resumes_last this Collapse
                 (λ x, bool_decide (wTarget x = this)) w2 (waiters v)
                 (now v + 50000)%N _ Hws2 (bool_decide_eq_true_2 _ eq_refl) Hg2).
        simpl. rewrite HcV. by eexists.
      * unfold elapse.
        eapply (latest_wait_resumes_last this Collapse _
                  (set_now (now w2 + 50000)%N w2) (waiters v)
                  (now v + 50000)%N _ Hws2); [|exact Hg2|].
        -- apply bool_decide_eq_true. simpl. rewrite Hn2. lia.
        -- simpl. rewrite HcV. by eexists.
Qed.

Lemma transition_protocol_order_witness :
  (let w1 := collapseAccordion 1 false frames_pending in
   let w2 := animationFrame w1 in
   (∃ others,
       log w2 = log w1 ++ others
                  ++ [EMeasureContent 1 60; ESetMaxHeight 1 60;
                      EForceRepaint 1; ETransitionEndAsync 1 50000;
                      ESetState 1 Collapsing]
       ∧ Forall (elsewhere 1) others)
   ∧ ∃ earlier,
       log (transitionEnd 1 w2)
       = log w2 ++ earlier ++ [ESetState 1 Collapsed; ERemoveMaxHeight 1]
       ∧ Forall isCompletion earlier)
  ∧ (let w1 := expandAccordion 1 false mid_transition in
     let w2 := animationFrame w1 in
     (∃ others,
         log w2 = log w1 ++ others
                    ++ [EMeasureWrapper 1 60; ETransitionEndAsync 1 50000;
                        ESetMaxHeight 1 60; EForceRepaint 1]
         ∧ Forall (elsewhere 1) others)
     ∧ stateOf w2 1 = Some Expanding
     ∧ ∃ earlier,
         log (elapse 50000 w2)
         = log w2 ++ earlier ++ [ESetState 1 Expanded; ERemoveMaxHeight 1]
         ∧ Forall isCompletion earlier).
Proof.
  split.
  - destruct (transition_protocol_order 1 frames_pending
                (mkAccordion (Some 0) (Some (mkDiv 60 None)) (Some (mkDiv 60 None))
                   (Some 2) Expanded true false (Some "panel-2"))
                (mkDiv 60 None) eq_refl eq_refl) as [_ Hcol].
    destruct Hcol as (_ & _ & (others & Hl & Ho) & _ & _ & Hend); [discriminate|].
    intros w1 w2. split.
    + exists others. split; [exact Hl|exact (Ho frames_pending_reachable)].
    + destruct (Hend _ (or_introl eq_refl)) as (He & _). exact He.
  - destruct (transition_protocol_order 1 mid_transition
                (mkAccordion (Some 0) (Some (mkDiv 60 (Some 60)))
                   (Some (mkDiv 60 None)) (Some 2) Collapsing true false
                   (Some "panel-2"))
                (mkDiv 60 (Some 60)) eq_refl eq_refl) as [Hexp _].
    destruct (Hexp (mkDiv 60 None) eq_refl)
      as (_ & (others & Hl & Ho) & Hst & _ & Hend); [discriminate|].
    intros w1 w2. split; [|split].
    + exists others. split; [exact Hl|exact (Ho mid_transition_reachable)].
    + exact (Hst mid_transition_reachable).
    + destruct (Hend _ (or_intror eq_refl)) as (He & _). exact He.
Defined.
